(** * converter_heic_para_jpeg: batch HEIC/HEIF to JPEG/PNG conversion

    A shallow embedding of [src/converter_heic_para_jpeg.py]:

    - [Posixpath]: the functions of [os.path] the program calls
      ([splitext], [join], [dirname], [normpath], [abspath], [relpath]) and
      [str.lower], over [string];
    - a file system as a tree of directory entries, with the [os] calls of the
      program ([isdir], [exists], [listdir], [walk], [makedirs]);
    - the part of the imaging library the program observes ([Image.open],
      [exif_transpose], [convert], [save]);
    - the three functions of the program: [_listar_ficheiros_heic],
      [_salvar_imagem] and [converter_heic] (with its closure [destino_para]),
      in a state and exception monad over the file system and a log of the
      effects performed.  The thread pool is modelled by a scheduler that
      chooses which submitted tasks complete at each point of the submission
      loop; every theorem holds for all schedulers;
    - [main], for the namespace that [_parse_args] returns (the parsing is
      [argparse]'s and is not embedded). *)

From Stdlib Require Import List String Ascii Bool Arith ZArith Lia Permutation.
Import ListNotations.
Local Open Scope list_scope.
Local Open Scope string_scope.

(** ** Strings *)

Module Str.

(** [str.lower] on the ASCII range.  The only characters the program
    compares after lowering are the letters of [".heic"], [".heif"],
    ["jpeg"] and ["png"]; no character outside ASCII lowers to one of
    them. *)
Definition lower_ascii (c : ascii) : ascii :=
  let n := nat_of_ascii c in
  if Nat.leb 65 n && Nat.leb n 90 then ascii_of_nat (n + 32) else c.

Fixpoint lower (s : string) : string :=
  match s with
  | EmptyString => EmptyString
  | String c r => String (lower_ascii c) (lower r)
  end.

Definition startswith_sep (s : string) : bool :=
  match s with
  | String "/" _ => true
  | _ => false
  end.

Fixpoint endswith_sep (s : string) : bool :=
  match s with
  | EmptyString => false
  | String c EmptyString => Ascii.eqb c "/"
  | String _ r => endswith_sep r
  end.

(** [has c s]: the character occurs in the string. *)
Fixpoint has (c : ascii) (s : string) : bool :=
  match s with
  | EmptyString => false
  | String a r => Ascii.eqb a c || has c r
  end.

(** [s.split(c)]: never empty; [split c "" = [""]]. *)
Fixpoint split (c : ascii) (s : string) : list string :=
  match s with
  | EmptyString => [EmptyString]
  | String a r =>
      if Ascii.eqb a c then EmptyString :: split c r
      else match split c r with
           | [] => [String a EmptyString]
           | x :: xs => String a x :: xs
           end
  end.

(** [c.join(l)]. *)
Fixpoint join_with (c : ascii) (l : list string) : string :=
  match l with
  | [] => EmptyString
  | [x] => x
  | x :: r => x ++ String c (join_with c r)
  end.

(** Cut at the last occurrence of [c]: [rcut c s = Some (a, b)] when
    [s = a ++ b], [b] starts with [c] and holds no other [c]; [None] when
    [c] does not occur (Python's [rfind] giving [-1]). *)
Fixpoint rcut (c : ascii) (s : string) : option (string * string) :=
  match s with
  | EmptyString => None
  | String a r =>
      match rcut c r with
      | Some (pre, suf) => Some (String a pre, suf)
      | None => if Ascii.eqb a c then Some (EmptyString, s) else None
      end
  end.

(** [s.rstrip(c)]. *)
Fixpoint rstrip (c : ascii) (s : string) : string :=
  match s with
  | EmptyString => EmptyString
  | String a r =>
      match rstrip c r with
      | EmptyString => if Ascii.eqb a c then EmptyString else String a EmptyString
      | r' => String a r'
      end
  end.

(** Every character of [s] is [c] (true on the empty string). *)
Fixpoint all_are (c : ascii) (s : string) : bool :=
  match s with
  | EmptyString => true
  | String a r => Ascii.eqb a c && all_are c r
  end.

Definition is_empty (s : string) : bool :=
  match s with EmptyString => true | _ => false end.

End Str.

(** ** [os.path] on POSIX *)

Module Posixpath.

Definition sep : ascii := "/".
Definition extsep : ascii := ".".

(** [os.path.split]: everything up to and including the last slash, and
    what follows it; the head loses its trailing slashes unless it is
    made of slashes only. *)
Definition split_raw (p : string) : string * string :=
  match Str.rcut sep p with
  | Some (pre, String _ tail) => (pre ++ "/", tail)
  | _ => (EmptyString, p)
  end.

Definition strip_head (head : string) : string :=
  if negb (Str.is_empty head) && negb (Str.all_are sep head)
  then Str.rstrip sep head else head.

Definition dirname (p : string) : string := strip_head (fst (split_raw p)).

(** [os.path.splitext]: the extension starts at the last dot of the last
    component, provided some character before that dot, in the component,
    is not a dot. *)
Definition splitext (p : string) : string * string :=
  let (head, name) := split_raw p in
  match Str.rcut extsep name with
  | Some (stem, ext) =>
      if Str.all_are extsep stem then (p, EmptyString)
      else (head ++ stem, ext)
  | None => (p, EmptyString)
  end.

(** [os.path.join(a, b)]. *)
Definition join (a b : string) : string :=
  if Str.startswith_sep b then b
  else if Str.is_empty a || Str.endswith_sep a then a ++ b
  else a ++ "/" ++ b.

(** [os.path.join(a, *p)]. *)
Definition join_all (a : string) (p : list string) : string :=
  fold_left join p a.

Definition isabs (p : string) : bool := Str.startswith_sep p.

(** The loop of [normpath] over the components. *)
Definition norm_step (initial_slashes : nat) (new_comps : list string)
           (comp : string) : list string :=
  if String.eqb comp "" || String.eqb comp "." then new_comps
  else if negb (String.eqb comp "..")
          || (Nat.eqb initial_slashes 0 && Nat.eqb (List.length new_comps) 0)
          || (match rev new_comps with
              | last :: _ => String.eqb last ".."
              | [] => false
              end)
       then (new_comps ++ [comp])%list
       else removelast new_comps.

Definition initial_slashes (p : string) : nat :=
  match p with
  | String "/" (String "/" (String "/" _)) => 1
  | String "/" (String "/" _) => 2
  | String "/" _ => 1
  | _ => 0
  end.

Definition normpath (path : string) : string :=
  if Str.is_empty path then "."
  else
    let i := initial_slashes path in
    let comps := fold_left (norm_step i) (Str.split sep path) [] in
    let p := (match i with 0 => "" | 1 => "/" | _ => "//" end)
               ++ Str.join_with sep comps in
    if Str.is_empty p then "." else p.

(** [os.path.abspath], with the current directory as an argument. *)
Definition abspath (cwd : string) (path : string) : string :=
  if isabs path then normpath path else normpath (join cwd path).

Definition nonempty (s : string) : bool := negb (Str.is_empty s).

(** Length of the common prefix of two lists of components. *)
Fixpoint common (a b : list string) : nat :=
  match a, b with
  | x :: a', y :: b' => if String.eqb x y then S (common a' b') else 0
  | _, _ => 0
  end.

(** [os.path.relpath(path, start)]. *)
Definition relpath (cwd : string) (path start : string) : string :=
  let start_list := filter nonempty (Str.split sep (abspath cwd start)) in
  let path_list := filter nonempty (Str.split sep (abspath cwd path)) in
  let i := common start_list path_list in
  let rel_list :=
    (repeat ".." (List.length start_list - i) ++ skipn i path_list)%list in
  match rel_list with
  | [] => "."
  | x :: r => join_all x r
  end.

End Posixpath.

(** ** The imaging library, as far as the program observes it *)

Inductive mode := ModeL | ModeLA | ModeRGB | ModeRGBA | ModeCMYK.

Definition has_alpha (m : mode) : bool :=
  match m with
  | ModeLA | ModeRGBA => true
  | _ => false
  end.

(** Metadata blobs are opaque bytes; [exif_transpose] rewrites the EXIF blob
    without its orientation tag. *)
Inductive blob :=
| Bytes (b : string)
| WithoutOrientation (b : blob).

(** Truth value of a [bytes] object: false exactly on the empty one. *)
Definition truthy (b : option blob) : bool :=
  match b with
  | None => false
  | Some (Bytes EmptyString) => false
  | Some _ => true
  end.

(** Pixel buffers are symbolic: what matters is which library transforms were
    applied to them. *)
Inductive pixels :=
| Raw (id : nat)
| Transposed (orientation : nat) (p : pixels)
| Converted (m : mode) (p : pixels).

Record image := mkImage {
  im_mode : mode;
  im_pixels : pixels;
  im_orientation : nat;            (* EXIF orientation, 1 when absent *)
  im_exif : option blob;           (* info["exif"] *)
  im_icc : option blob             (* info["icc_profile"] *)
}.

(** The keyword arguments of [Image.save]: a key that is absent from the
    dictionary is [None]. *)
Record save_params := mkParams {
  p_format : string;
  p_quality : option Z;
  p_subsampling : option Z;
  p_optimize : option bool;
  p_progressive : option bool;
  p_exif : option blob;
  p_icc_profile : option blob
}.

Record jpeg_file := mkJpeg {
  jf_image : image;
  jf_quality : option Z;
  jf_subsampling : option Z;
  jf_optimize : option bool;
  jf_progressive : option bool
}.

Inductive content :=
| Heif (im : image)
| Jpeg (f : jpeg_file)
| Png (im : image)
| Junk.

Inductive exn :=
| FileNotFoundError (p : string)
| NotADirectoryError (p : string)
| IsADirectoryError (p : string)
| FileExistsError (p : string)
| UnidentifiedImageError (p : string)
| OSError (msg : string)
| ValueError (msg : string).

Inductive result (A : Type) :=
| Ok (a : A)
| Raise (e : exn).
Arguments Ok {A} a.
Arguments Raise {A} e.

Module PIL.

(** What [Image.open] decodes from the bytes of a file. *)
Definition decode (c : content) : option image :=
  match c with
  | Heif im => Some im
  | Jpeg f => Some (jf_image f)
  | Png im => Some im
  | Junk => None
  end.

(** [ImageOps.exif_transpose]: orientations 2 to 8 are applied to the
    pixels and the tag is removed; otherwise the image is unchanged. *)
Definition exif_transpose (im : image) : image :=
  if Nat.leb 2 (im_orientation im) && Nat.leb (im_orientation im) 8 then
    {| im_mode := im_mode im;
       im_pixels := Transposed (im_orientation im) (im_pixels im);
       im_orientation := 1;
       im_exif := option_map WithoutOrientation (im_exif im);
       im_icc := im_icc im |}
  else im.

(** [im.convert(m)]. *)
Definition convert (m : mode) (im : image) : image :=
  {| im_mode := m;
     im_pixels := Converted m (im_pixels im);
     im_orientation := im_orientation im;
     im_exif := im_exif im;
     im_icc := im_icc im |}.

Definition jpeg_writes (m : mode) : bool :=
  match m with
  | ModeL | ModeRGB | ModeCMYK => true
  | _ => false
  end.

Definition png_writes (m : mode) : bool :=
  match m with
  | ModeL | ModeLA | ModeRGB | ModeRGBA => true
  | ModeCMYK => false
  end.

(** The encoders: the bytes [im.save(path, **params)] writes.  Each
    encoder embeds the metadata it is given in [params] and nothing
    else. *)
Definition encode (im : image) (p : save_params) : result content :=
  let out := {| im_mode := im_mode im;
                im_pixels := im_pixels im;
                im_orientation := im_orientation im;
                im_exif := p_exif p;
                im_icc := p_icc_profile p |} in
  if String.eqb (p_format p) "JPEG" then
    if jpeg_writes (im_mode im) then
      Ok (Jpeg {| jf_image := out;
                  jf_quality := p_quality p;
                  jf_subsampling := p_subsampling p;
                  jf_optimize := p_optimize p;
                  jf_progressive := p_progressive p |})
    else Raise (OSError "cannot write mode as JPEG")
  else if String.eqb (p_format p) "PNG" then
    if png_writes (im_mode im) then Ok (Png out)
    else Raise (OSError "cannot write mode as PNG")
  else Raise (ValueError "unknown file extension").

End PIL.

(** ** The file system *)

(** A node is a regular file or a directory; the entries of a directory are
    kept in the order the system lists them. *)
#[local] Unset Elimination Schemes.
Inductive node :=
| File (c : content)
| Dir (es : list (string * node)).
#[local] Set Elimination Schemes.

Definition node_ind (P : node -> Prop)
           (HFile : forall c, P (File c))
           (HDir : forall es, Forall (fun e => P (snd e)) es -> P (Dir es))
  : forall n, P n :=
  fix go (n : node) : P n :=
    match n with
    | File c => HFile c
    | Dir es =>
        HDir es ((fix all (l : list (string * node))
                  : Forall (fun e => P (snd e)) l :=
                    match l with
                    | [] => Forall_nil _
                    | e :: r => Forall_cons e (go (snd e)) (all r)
                    end) es)
    end.

Module FS.

Fixpoint assoc (x : string) (es : list (string * node)) : option node :=
  match es with
  | [] => None
  | (y, n) :: r => if String.eqb x y then Some n else assoc x r
  end.

(** Replace the entry [x], or add it after the existing ones. *)
Fixpoint set (x : string) (n : node) (es : list (string * node))
  : list (string * node) :=
  match es with
  | [] => [(x, n)]
  | (y, m) :: r => if String.eqb x y then (y, n) :: r else (y, m) :: set x n r
  end.

Fixpoint lookup (n : node) (names : list string) : option node :=
  match names with
  | [] => Some n
  | x :: r =>
      match n with
      | Dir es => match assoc x es with
                  | Some c => lookup c r
                  | None => None
                  end
      | File _ => None
      end
  end.

Definition is_dir (n : option node) : bool :=
  match n with
  | Some (Dir _) => true
  | _ => false
  end.

(** Names of the components of a path string. *)
Definition names (p : string) : list string :=
  filter Posixpath.nonempty (Str.split Posixpath.sep p).

(** Resolution of the components of a path by the system, from the
    directory [stack]: every component is looked up in a directory that
    exists; [".."] goes to the parent. *)
Fixpoint canon (root : node) (stack : list string) (cs : list string)
  : option (list string) :=
  match cs with
  | [] => Some stack
  | c :: r =>
      if is_dir (lookup root stack) then
        if String.eqb c "" || String.eqb c "." then canon root stack r
        else if String.eqb c ".." then canon root (removelast stack) r
        else match lookup root (stack ++ [c])%list with
             | Some _ => canon root (stack ++ [c])%list r
             | None => None
             end
      else None
  end.

Definition resolve (cwd : string) (root : node) (p : string)
  : option (list string) :=
  if Str.is_empty p then None
  else canon root (if Posixpath.isabs p then [] else names cwd)
             (Str.split Posixpath.sep p).

(** The node a path names, if any ([os.stat]). *)
Definition stat (cwd : string) (root : node) (p : string) : option node :=
  match resolve cwd root p with
  | Some ns => lookup root ns
  | None => None
  end.

Definition filenames (es : list (string * node)) : list string :=
  map fst (filter (fun e => match snd e with File _ => true | Dir _ => false end) es).

Definition dirnames (es : list (string * node)) : list string :=
  map fst (filter (fun e => match snd e with Dir _ => true | File _ => false end) es).

(** [os.walk(top)], top-down: the triple of the directory, then the walks
    of its sub-directories in the order of the listing.  A [top] that
    cannot be listed yields nothing ([onerror] is [None]). *)
Fixpoint walk (top : string) (n : node)
  : list (string * list string * list string) :=
  match n with
  | File _ => []
  | Dir es =>
      (top, dirnames es, filenames es)
        :: (fix subdirs (l : list (string * node)) :=
              match l with
              | [] => []
              | (d, File _) :: r => subdirs r
              | (d, (Dir _) as sub) :: r =>
                  (walk (Posixpath.join top d) sub ++ subdirs r)%list
              end) es
  end.

(** [os.makedirs(p, exist_ok=True)] along the names of [p]: missing
    directories are created, existing ones are kept. *)
Fixpoint mkdirs (p : string) (n : node) (ns : list string) : result node :=
  match n with
  | File _ =>
      match ns with
      | [] => Raise (FileExistsError p)
      | _ :: _ => Raise (NotADirectoryError p)
      end
  | Dir es =>
      match ns with
      | [] => Ok n
      | x :: r =>
          match mkdirs p (match assoc x es with
                          | Some c => c
                          | None => Dir []
                          end) r with
          | Ok c' => Ok (Dir (set x c' es))
          | Raise e => Raise e
          end
      end
  end.

(** Apply [f] to the directory listing at [ns]. *)
Fixpoint update (n : node) (ns : list string)
         (f : list (string * node) -> list (string * node)) : node :=
  match n with
  | File _ => n
  | Dir es =>
      match ns with
      | [] => Dir (f es)
      | x :: r =>
          match assoc x es with
          | Some c => Dir (set x (update c r f) es)
          | None => n
          end
      end
  end.

End FS.

(** ** Effects: the world, the log and the monad *)

(** The arguments of one call of [_salvar_imagem], as the batch submits
    them to the pool. *)
Record task := mkTask {
  t_caminho_entrada : string;
  t_caminho_saida : string;
  t_formato : string;
  t_qualidade : Z;
  t_subsampling : Z;
  t_progressivo : bool;
  t_otimizar : bool;
  t_manter_metadata : bool
}.

(** What [print] writes. *)
Inductive message :=
| MsgAvisoQualidade
| MsgNenhumFicheiro (pasta_origem : string)
| MsgAConverter (total : nat) (pasta_origem pasta_destino : string)
| MsgOpcoes (formato : string) (qualidade subsampling : Z)
            (progressivo otimizar manter_metadata recursivo overwrite : bool)
            (threads : Z)
| MsgErro (e : exn)
| MsgConcluida
| MsgConvertidos (n : nat)
| MsgComErro (n : nat).

(** The effects a run performs, in order. *)
Inductive event :=
| EvMakedirs (p : string)            (* os.makedirs created or found p *)
| EvListdir (p : string)             (* os.listdir enumerated p *)
| EvWalk (p : string)                (* os.walk enumerated the tree of p *)
| EvOpen (p : string)                (* Image.open read and decoded p *)
| EvSave (p : string) (c : content)  (* Image.save wrote c at p *)
| EvSubmit (t : task)                (* executor.submit *)
| EvDone (t : task) (r : result unit) (* the task ran to completion *)
| EvPrint (m : message).

Record world := mkWorld {
  w_cwd : string;                    (* os.getcwd() *)
  w_cpu_count : option Z;            (* os.cpu_count() *)
  w_fs : node;                       (* the root directory *)
  w_log : list event                 (* effects so far, oldest first *)
}.

Definition M (S A : Type) : Type := S -> result A * S.

Definition ret {S A} (a : A) : M S A := fun s => (Ok a, s).

Definition bind {S A B} (m : M S A) (k : A -> M S B) : M S B :=
  fun s => match m s with
           | (Ok a, s') => k a s'
           | (Raise e, s') => (Raise e, s')
           end.

Definition raise {S A} (e : exn) : M S A := fun s => (Raise e, s).

(** [try: m except Exception as e: h e]. *)
Definition try_except {S A} (m : M S A) (h : exn -> M S A) : M S A :=
  fun s => match m s with
           | (Ok a, s') => (Ok a, s')
           | (Raise e, s') => h e s'
           end.

Declare Scope monad_scope.
Delimit Scope monad_scope with monad.
Notation "x <- m ;; k" := (bind m (fun x => k))
  (at level 61, m at next level, right associativity) : monad_scope.
Notation "m ;; k" := (bind m (fun _ => k))
  (at level 61, right associativity) : monad_scope.
Local Open Scope monad_scope.

Definition with_fs (w : world) (fs : node) : world :=
  {| w_cwd := w_cwd w; w_cpu_count := w_cpu_count w; w_fs := fs; w_log := w_log w |}.

Definition emit (e : event) : M world unit :=
  fun w => (Ok tt, {| w_cwd := w_cwd w; w_cpu_count := w_cpu_count w;
                      w_fs := w_fs w; w_log := (w_log w ++ [e])%list |}).

Definition print (m : message) : M world unit := emit (EvPrint m).

(** ** The [os] and [PIL] calls of the program *)

Module OS.

Definition path_isdir (p : string) : M world bool :=
  fun w => (Ok (FS.is_dir (FS.stat (w_cwd w) (w_fs w) p)), w).

Definition path_exists (p : string) : M world bool :=
  fun w => (Ok (match FS.stat (w_cwd w) (w_fs w) p with
                | Some _ => true
                | None => false
                end), w).

Definition path_abspath (p : string) : M world string :=
  fun w => (Ok (Posixpath.abspath (w_cwd w) p), w).

Definition path_relpath (p start : string) : M world string :=
  fun w => (Ok (Posixpath.relpath (w_cwd w) p start), w).

Definition cpu_count : M world (option Z) :=
  fun w => (Ok (w_cpu_count w), w).

(** [os.makedirs(p, exist_ok=True)]; the program calls it on absolute,
    normalised paths only, whose names are those of [abspath]. *)
Definition makedirs (p : string) : M world unit :=
  fun w =>
    match FS.mkdirs p (w_fs w) (FS.names (Posixpath.abspath (w_cwd w) p)) with
    | Ok fs' => emit (EvMakedirs p) (with_fs w fs')
    | Raise e => (Raise e, w)
    end.

Definition listdir (p : string) : M world (list string) :=
  fun w =>
    match FS.stat (w_cwd w) (w_fs w) p with
    | Some (Dir es) => (emit (EvListdir p) ;; ret (map fst es)) w
    | Some (File _) => (Raise (NotADirectoryError p), w)
    | None => (Raise (FileNotFoundError p), w)
    end.

Definition walk (top : string)
  : M world (list (string * list string * list string)) :=
  fun w =>
    match FS.stat (w_cwd w) (w_fs w) top with
    | Some n => (emit (EvWalk top) ;; ret (FS.walk top n)) w
    | None => (Ok [], w)
    end.

Definition bad_name (name : string) : bool :=
  String.eqb name "" || String.eqb name "." || String.eqb name "..".

(** [open(p, "wb")] followed by the write of [c]: the parent must be an
    existing directory and [p] must not name a directory. *)
Definition write_file (p : string) (c : content) : M world unit :=
  fun w =>
    let (head, name) := Posixpath.split_raw p in
    if bad_name name then (Raise (IsADirectoryError p), w)
    else
      match FS.resolve (w_cwd w) (w_fs w) (if Str.is_empty head then "." else head) with
      | None => (Raise (FileNotFoundError p), w)
      | Some ns =>
          match FS.lookup (w_fs w) ns with
          | Some (Dir es) =>
              match FS.assoc name es with
              | Some (Dir _) => (Raise (IsADirectoryError p), w)
              | _ => emit (EvSave p c)
                       (with_fs w (FS.update (w_fs w) ns (FS.set name (File c))))
              end
          | Some (File _) => (Raise (NotADirectoryError p), w)
          | None => (Raise (FileNotFoundError p), w)
          end
      end.

End OS.

Module Image.

(** [Image.open(p)], with the decoding it triggers. *)
Definition open (p : string) : M world image :=
  fun w =>
    match FS.stat (w_cwd w) (w_fs w) p with
    | Some (File c) =>
        match PIL.decode c with
        | Some im => (emit (EvOpen p) ;; ret im) w
        | None => (Raise (UnidentifiedImageError p), w)
        end
    | Some (Dir _) => (Raise (IsADirectoryError p), w)
    | None => (Raise (FileNotFoundError p), w)
    end.

(** [im.save(p, **params)]: nothing is left at [p] when the encoder
    fails. *)
Definition save (im : image) (p : string) (params : save_params) : M world unit :=
  match PIL.encode im params with
  | Ok c => OS.write_file p c
  | Raise e => raise e
  end.

End Image.

(** ** The program *)

Definition exts : list string := [".heic"; ".heif"].

(** [os.path.splitext(f)[1].lower() in exts] *)
Definition ext_in_exts (f : string) : bool :=
  existsb (String.eqb (Str.lower (snd (Posixpath.splitext f)))) exts.

(** [_listar_ficheiros_heic]: the generator is consumed whole by [list(...)],
    so it is modelled by the list of what it yields. *)
Definition _listar_ficheiros_heic (pasta_origem : string) (recursivo : bool)
  : M world (list (string * string)) :=
  pasta_origem_abs <- OS.path_abspath pasta_origem ;;
  if recursivo then
    triples <- OS.walk pasta_origem_abs ;;
    cwd <- (fun w => (Ok (w_cwd w), w)) ;;
    ret (flat_map
           (fun '(raiz, _, ficheiros) =>
              map (fun f =>
                     let caminho_abs := Posixpath.join raiz f in
                     let caminho_rel :=
                       Posixpath.relpath cwd caminho_abs pasta_origem_abs in
                     (caminho_abs, caminho_rel))
                  (filter ext_in_exts ficheiros))
           triples)
  else
    entradas <- OS.listdir pasta_origem_abs ;;
    ret (map (fun f =>
                let caminho_abs := Posixpath.join pasta_origem_abs f in
                (caminho_abs, f))
             (filter ext_in_exts entradas)).

Definition params_jpeg (qualidade subsampling : Z) (otimizar progressivo : bool)
  : save_params :=
  {| p_format := "JPEG";
     p_quality := Some qualidade;
     p_subsampling := Some subsampling;
     p_optimize := Some otimizar;
     p_progressive := Some progressivo;
     p_exif := None;
     p_icc_profile := None |}.

Definition params_png : save_params :=
  {| p_format := "PNG";
     p_quality := None;
     p_subsampling := None;
     p_optimize := None;
     p_progressive := None;
     p_exif := None;
     p_icc_profile := None |}.

(** [params["exif"] = exif] and [params["icc_profile"] = icc]. *)
Definition set_exif (p : save_params) (exif : option blob) : save_params :=
  {| p_format := p_format p; p_quality := p_quality p;
     p_subsampling := p_subsampling p; p_optimize := p_optimize p;
     p_progressive := p_progressive p; p_exif := exif;
     p_icc_profile := p_icc_profile p |}.

Definition set_icc_profile (p : save_params) (icc : option blob) : save_params :=
  {| p_format := p_format p; p_quality := p_quality p;
     p_subsampling := p_subsampling p; p_optimize := p_optimize p;
     p_progressive := p_progressive p; p_exif := p_exif p;
     p_icc_profile := icc |}.

Definition _salvar_imagem (caminho_entrada caminho_saida formato : string)
           (qualidade subsampling : Z)
           (progressivo otimizar manter_metadata : bool) : M world unit :=
  im <- Image.open caminho_entrada ;;
  let im := PIL.exif_transpose im in
  let exif := if manter_metadata then im_exif im else None in
  let icc := if manter_metadata then im_icc im else None in
  if String.eqb formato "jpeg" then
    let params := params_jpeg qualidade subsampling otimizar progressivo in
    let params := if truthy exif then set_exif params exif else params in
    let params := if truthy icc then set_icc_profile params icc else params in
    Image.save (PIL.convert ModeRGB im) caminho_saida params
  else if String.eqb formato "png" then
    let params := params_png in
    let params := if truthy icc then set_icc_profile params icc else params in
    Image.save im caminho_saida params
  else raise (ValueError "Formato nao suportado").

Definition run_task (t : task) : M world unit :=
  _salvar_imagem (t_caminho_entrada t) (t_caminho_saida t) (t_formato t)
                 (t_qualidade t) (t_subsampling t) (t_progressivo t)
                 (t_otimizar t) (t_manter_metadata t).

(** *** The thread pool *)

(** Inside [with ThreadPoolExecutor(...) as executor], the state also holds
    the futures: the tasks submitted and not yet run, in submission order,
    and the finished ones with their outcome, in completion order.  A task
    runs atomically: its only read is of its input, which no task writes
    (outputs end in [.jpg] or [.png]). *)
Record exec := mkExec {
  x_world : world;
  x_pending : list task;
  x_finished : list (task * result unit)
}.

Definition lift {A} (m : M world A) : M exec A :=
  fun x => let (r, w) := m (x_world x) in
           (r, {| x_world := w; x_pending := x_pending x;
                  x_finished := x_finished x |}).

(** [executor.submit(...)]. *)
Definition submit (t : task) : M exec unit :=
  fun x => let (_, w) := emit (EvSubmit t) (x_world x) in
           (Ok tt, {| x_world := w;
                      x_pending := (x_pending x ++ [t])%list;
                      x_finished := x_finished x |}).

(** A worker runs the pending task at position [k] to completion; the
    exception of a failed task is kept in its future. *)
Definition complete (k : nat) : M exec unit :=
  fun x =>
    match nth_error (x_pending x) k with
    | None => (Ok tt, x)
    | Some t =>
        let (r, w) := run_task t (x_world x) in
        let (_, w') := emit (EvDone t r) w in
        (Ok tt, {| x_world := w';
                   x_pending := (firstn k (x_pending x)
                                   ++ skipn (S k) (x_pending x))%list;
                   x_finished := (x_finished x ++ [(t, r)])%list |})
    end.

Fixpoint workers (picks : list nat) : M exec unit :=
  match picks with
  | [] => ret tt
  | k :: r => complete k ;; workers r
  end.

(** Every task still pending runs, oldest first. *)
Fixpoint run_all (n : nat) : M exec unit :=
  match n with
  | 0 => ret tt
  | S n' => complete 0 ;; run_all n'
  end.

(** Waiting for all futures: the workers first complete the tasks the
    scheduler picks, then whatever is left. *)
Definition wait_all (picks : list nat) : M exec unit :=
  workers picks ;;
  fun x => run_all (List.length (x_pending x)) x.

(** The scheduler gives, for each point of the run where the main thread
    can be overtaken, the positions in the queue of the tasks that complete
    there. *)
Definition scheduler := nat -> list nat.

(** [with ThreadPoolExecutor(...) as executor: body]: on exit, normal or
    not, [shutdown(wait=True)] lets every submitted task finish. *)
Definition with_executor {A} (final : list nat) (body : M exec A) : M world A :=
  fun w =>
    let (r, x) := body {| x_world := w; x_pending := []; x_finished := [] |} in
    let (_, x') := wait_all final x in
    (r, x_world x').

(** [destino_para], a closure over [formato] and [pasta_destino_abs]. *)
Definition destino_para (formato pasta_destino_abs : string) (rel_path : string)
  : M world string :=
  let (nome_base, _) := Posixpath.splitext rel_path in
  let ext_out := if String.eqb formato "jpeg" then ".jpg" else ".png" in
  let caminho_out := Posixpath.join pasta_destino_abs (nome_base ++ ext_out) in
  OS.makedirs (Posixpath.dirname caminho_out) ;;
  ret caminho_out.

Section Batch.

Variable sched : scheduler.
Variables (qualidade subsampling : Z).
Variables (progressivo otimizar manter_metadata overwrite : bool).
Variables (formato pasta_destino_abs : string).

(** The submission loop, lines 143 to 160; [i] counts the files seen. *)
Fixpoint submeter (i : nat) (ficheiros : list (string * string)) : M exec unit :=
  match ficheiros with
  | [] => ret tt
  | (caminho_abs, caminho_rel) :: resto =>
      workers (sched (2 * i)) ;;
      saida <- lift (destino_para formato pasta_destino_abs caminho_rel) ;;
      workers (sched (2 * i + 1)) ;;
      existe <- lift (OS.path_exists saida) ;;
      (if negb overwrite && existe then ret tt
       else submit (mkTask caminho_abs saida formato qualidade subsampling
                           progressivo otimizar manter_metadata)) ;;
      submeter (S i) resto
  end.

(** The collection loop, lines 162 to 168, over the futures in the order
    they completed. *)
Fixpoint contar (futs : list (task * result unit)) (convertidos erros : nat)
  : M world (nat * nat) :=
  match futs with
  | [] => ret (convertidos, erros)
  | (_, Ok _) :: r => contar r (S convertidos) erros
  | (_, Raise e) :: r => print (MsgErro e) ;; contar r convertidos (S erros)
  end.

Definition as_completed (n : nat) : M exec (nat * nat) :=
  wait_all (sched n) ;;
  fun x => lift (contar (x_finished x) 0 0) x.

End Batch.

Definition resolve_threads (threads : option Z) (cpus : option Z) : Z :=
  let auto := Z.max 1 (Z.min 32 (match cpus with
                                 | Some c => if Z.eqb c 0 then 2 else c
                                 | None => 2
                                 end)) in
  match threads with
  | None => auto
  | Some t => if Z.leb t 0 then auto else t
  end%Z.

Definition converter_heic (sched : scheduler)
           (pasta_origem pasta_destino : string)
           (qualidade subsampling : Z)
           (progressivo otimizar manter_metadata recursivo overwrite : bool)
           (formato : string) (threads : option Z) : M world (nat * nat) :=
  isdir <- OS.path_isdir pasta_origem ;;
  if negb isdir then raise (FileNotFoundError pasta_origem)
  else
    let formato := Str.lower formato in
    if negb (existsb (String.eqb formato) ["jpeg"; "png"])
    then raise (ValueError "'formato' deve ser 'jpeg' ou 'png'.")
    else
      (if Z.ltb 95 qualidade && String.eqb formato "jpeg"
       then print MsgAvisoQualidade else ret tt) ;;
      pasta_origem_abs <- OS.path_abspath pasta_origem ;;
      pasta_destino_abs <- OS.path_abspath pasta_destino ;;
      OS.makedirs pasta_destino_abs ;;
      ficheiros <- _listar_ficheiros_heic pasta_origem_abs recursivo ;;
      let total := List.length ficheiros in
      if Nat.eqb total 0 then
        print (MsgNenhumFicheiro pasta_origem) ;;
        ret (0, 0)
      else
        cpus <- OS.cpu_count ;;
        let threads := resolve_threads threads cpus in
        print (MsgAConverter total pasta_origem pasta_destino) ;;
        print (MsgOpcoes formato qualidade subsampling progressivo otimizar
                         manter_metadata recursivo overwrite threads) ;;
        tallies <- with_executor (sched (2 * total + 1))
                     (submeter sched qualidade subsampling progressivo otimizar
                               manter_metadata overwrite formato
                               pasta_destino_abs 0 ficheiros ;;
                      as_completed sched (2 * total)) ;;
        print MsgConcluida ;;
        print (MsgConvertidos (fst tallies)) ;;
        print (MsgComErro (snd tallies)) ;;
        ret tallies.

(** ** Sample inputs *)

Definition foto (i : nat) : content :=
  Heif {| im_mode := ModeRGBA; im_pixels := Raw i; im_orientation := 6;
          im_exif := Some (Bytes "Exif"); im_icc := Some (Bytes "sRGB") |}.

(** [/s] holds two pictures, a text file, a corrupt picture in a
    sub-directory, and a directory whose name ends in [.heic]. *)
Definition fs_exemplo : node :=
  Dir [("s", Dir [("a.heic", File (foto 1));
                  ("n.txt", File Junk);
                  ("sub", Dir [("b.HEIF", File (foto 2));
                               ("bad.heic", File Junk)]);
                  ("album.heic", Dir [])])].

Definition mundo (fs : node) : world :=
  {| w_cwd := "/"; w_cpu_count := Some 4%Z; w_fs := fs; w_log := [] |}.

(** The pool runs nothing before the main thread waits. *)
Definition sched_tardio : scheduler := fun _ => [].

(** The pool completes the oldest pending task at every point. *)
Definition sched_imediato : scheduler := fun _ => [0].

(** ** Vocabulary of the statements *)

(** The tasks a log submits, and the futures it completes, in order. *)
Fixpoint submitted (evs : list event) : list task :=
  match evs with
  | [] => []
  | EvSubmit t :: r => t :: submitted r
  | _ :: r => submitted r
  end.

Fixpoint completed (evs : list event) : list (task * result unit) :=
  match evs with
  | [] => []
  | EvDone t o :: r => (t, o) :: completed r
  | _ :: r => completed r
  end.

(** Events of the main thread and of the tasks that are not pool events. *)
Definition plain (e : event) : Prop :=
  match e with
  | EvSubmit _ | EvDone _ _ => False
  | _ => True
  end.

Definition succeeded (f : task * result unit) : bool :=
  match snd f with Ok _ => true | Raise _ => false end.

Definition failed (f : task * result unit) : bool := negb (succeeded f).

(** A relation on states that a computation maintains from its initial to
    its final state, whatever it returns. *)
Definition pres {S A} (T : S -> S -> Prop) (m : M S A) : Prop :=
  forall s r s', m s = (r, s') -> T s s'.

(** A predicate on states that a computation keeps. *)
Definition keeps {S A} (I : S -> Prop) (m : M S A) : Prop :=
  forall s r s', I s -> m s = (r, s') -> I s'.

(** The current directory and the processor count never change. *)
Definition same_env (w w' : world) : Prop :=
  w_cwd w' = w_cwd w /\ w_cpu_count w' = w_cpu_count w.

(** The log only grows, here by events that are not pool events. *)
Definition logs_plain (w w' : world) : Prop :=
  exists evs, w_log w' = (w_log w ++ evs)%list /\ Forall plain evs.

(** *** Growth of the file system

    The program never removes or renames anything: a run only adds entries
    and replaces the content of regular files.  [grow ok fs fs'] says that
    [fs'] is [fs] with, in every directory, the same entries in the same
    order (files still files, directories grown) followed by new entries
    that satisfy [ok]. *)
Section Grow.

Variable ok : string -> node -> bool.

Inductive grow : node -> node -> Prop :=
| grow_file c c' : grow (File c) (File c')
| grow_dir es es' : grow_entries es es' -> grow (Dir es) (Dir es')
with grow_entries : list (string * node) -> list (string * node) -> Prop :=
| grow_new new :
    Forall (fun e => ok (fst e) (snd e) = true) new -> grow_entries [] new
| grow_cons x n n' es es' :
    grow n n' -> grow_entries es es' ->
    grow_entries ((x, n) :: es) ((x, n') :: es').

(** One step of the main thread or of a task. *)
Definition wstep (w w' : world) : Prop :=
  same_env w w' /\ logs_plain w w' /\ grow (w_fs w) (w_fs w').

End Grow.

Scheme grow_mut := Minimality for grow Sort Prop
  with grow_entries_mut := Minimality for grow_entries Sort Prop.

(** Any new entry is accepted. *)
Definition ok_any (x : string) (n : node) : bool := true.

(** New entries the enumerator does not see: files whose extension is not
    recognised and, when [dirs] is set, directories of such entries. *)
Fixpoint fresh (dirs : bool) (x : string) (n : node) : bool :=
  match n with
  | File _ => negb (ext_in_exts x)
  | Dir es =>
      dirs && (fix all (l : list (string * node)) : bool :=
                 match l with
                 | [] => true
                 | (y, m) :: r => fresh dirs y m && all r
                 end) es
  end.

(** Directories all the way down, as [os.makedirs] creates them. *)
Fixpoint only_dirs (n : node) : bool :=
  match n with
  | File _ => false
  | Dir es =>
      (fix all (l : list (string * node)) : bool :=
         match l with
         | [] => true
         | (_, m) :: r => only_dirs m && all r
         end) es
  end.

(** *** Stages of [converter_heic] *)

(** The warning of line 107. *)
Definition aviso (qualidade : Z) (formato : string) : M world unit :=
  if Z.ltb 95 qualidade && String.eqb formato "jpeg"
  then print MsgAvisoQualidade else ret tt.

(** The two announcements of lines 135 to 140. *)
Definition anuncio (total : nat) (pasta_origem pasta_destino formato : string)
           (qualidade subsampling : Z)
           (progressivo otimizar manter_metadata recursivo overwrite : bool)
           (threads : option Z) : M world unit :=
  cpus <- OS.cpu_count ;;
  print (MsgAConverter total pasta_origem pasta_destino) ;;
  print (MsgOpcoes formato qualidade subsampling progressivo otimizar
                   manter_metadata recursivo overwrite
                   (resolve_threads threads cpus)).

(** The body of the [with] block. *)
Definition corpo (sched : scheduler) (qualidade subsampling : Z)
           (progressivo otimizar manter_metadata overwrite : bool)
           (formato pasta_destino_abs : string)
           (ficheiros : list (string * string)) : M exec (nat * nat) :=
  submeter sched qualidade subsampling progressivo otimizar manter_metadata
           overwrite formato pasta_destino_abs 0 ficheiros ;;
  as_completed sched (2 * List.length ficheiros).

(** The summary of lines 170 to 173. *)
Definition resumo (tallies : nat * nat) : M world unit :=
  print MsgConcluida ;;
  print (MsgConvertidos (fst tallies)) ;;
  print (MsgComErro (snd tallies)).

(** The pool accounts for every task: relative to the log [l0] at the entry
    of the [with] block, the tasks submitted are the finished and the
    pending ones, and the completions logged are the finished futures. *)
Definition acct (l0 : list event) (x : exec) : Prop :=
  exists evs,
    w_log (x_world x) = (l0 ++ evs)%list
    /\ Permutation (submitted evs) (map fst (x_finished x) ++ x_pending x)
    /\ completed evs = x_finished x.

(** What a whole run adds to the log: every task submitted ran to
    completion exactly once, and nothing else ran. *)
Definition all_ran (w w' : world) : Prop :=
  exists evs,
    w_log w' = (w_log w ++ evs)%list
    /\ Permutation (submitted evs) (map fst (completed evs)).

(** The events a run adds to the log. *)
Definition news (w w' : world) : list event :=
  skipn (List.length (w_log w)) (w_log w').

(** *** The ways a run of [converter_heic] can go *)
Section Run.

Variable sched : scheduler.
Variables (pasta_origem pasta_destino : string) (qualidade subsampling : Z).
Variables (progressivo otimizar manter_metadata recursivo overwrite : bool).
Variables (formato : string) (threads : option Z).

(** From the creation of the destination root on; [formato] is already
    in lower case. *)
Inductive run_batch (w1 : world) : result (nat * nat) -> world -> Prop :=
| run_no_destination e w2 :
    OS.makedirs (Posixpath.abspath (w_cwd w1) pasta_destino) w1 = (Raise e, w2) ->
    run_batch w1 (Raise e) w2
| run_no_listing w2 e w3 :
    OS.makedirs (Posixpath.abspath (w_cwd w1) pasta_destino) w1 = (Ok tt, w2) ->
    _listar_ficheiros_heic (Posixpath.abspath (w_cwd w1) pasta_origem)
                           recursivo w2 = (Raise e, w3) ->
    run_batch w1 (Raise e) w3
| run_empty w2 w3 w4 :
    OS.makedirs (Posixpath.abspath (w_cwd w1) pasta_destino) w1 = (Ok tt, w2) ->
    _listar_ficheiros_heic (Posixpath.abspath (w_cwd w1) pasta_origem)
                           recursivo w2 = (Ok [], w3) ->
    print (MsgNenhumFicheiro pasta_origem) w3 = (Ok tt, w4) ->
    run_batch w1 (Ok (0, 0)) w4
| run_aborted w2 ficheiros w3 w4 e w5 :
    OS.makedirs (Posixpath.abspath (w_cwd w1) pasta_destino) w1 = (Ok tt, w2) ->
    _listar_ficheiros_heic (Posixpath.abspath (w_cwd w1) pasta_origem)
                           recursivo w2 = (Ok ficheiros, w3) ->
    ficheiros <> [] ->
    anuncio (List.length ficheiros) pasta_origem pasta_destino
            formato qualidade subsampling progressivo otimizar
            manter_metadata recursivo overwrite threads w3 = (Ok tt, w4) ->
    with_executor (sched (2 * List.length ficheiros + 1))
                  (corpo sched qualidade subsampling progressivo otimizar
                         manter_metadata overwrite formato
                         (Posixpath.abspath (w_cwd w1) pasta_destino)
                         ficheiros) w4 = (Raise e, w5) ->
    run_batch w1 (Raise e) w5
| run_done w2 ficheiros w3 w4 tallies w5 w6 :
    OS.makedirs (Posixpath.abspath (w_cwd w1) pasta_destino) w1 = (Ok tt, w2) ->
    _listar_ficheiros_heic (Posixpath.abspath (w_cwd w1) pasta_origem)
                           recursivo w2 = (Ok ficheiros, w3) ->
    ficheiros <> [] ->
    anuncio (List.length ficheiros) pasta_origem pasta_destino
            formato qualidade subsampling progressivo otimizar
            manter_metadata recursivo overwrite threads w3 = (Ok tt, w4) ->
    with_executor (sched (2 * List.length ficheiros + 1))
                  (corpo sched qualidade subsampling progressivo otimizar
                         manter_metadata overwrite formato
                         (Posixpath.abspath (w_cwd w1) pasta_destino)
                         ficheiros) w4 = (Ok tallies, w5) ->
    resumo tallies w5 = (Ok tt, w6) ->
    run_batch w1 (Ok tallies) w6.

End Run.

Inductive run (sched : scheduler) (pasta_origem pasta_destino : string)
          (qualidade subsampling : Z)
          (progressivo otimizar manter_metadata recursivo overwrite : bool)
          (formato : string) (threads : option Z) (w : world)
  : result (nat * nat) -> world -> Prop :=
| run_not_found :
    FS.is_dir (FS.stat (w_cwd w) (w_fs w) pasta_origem) = false ->
    run sched pasta_origem pasta_destino qualidade subsampling progressivo
        otimizar manter_metadata recursivo overwrite formato threads w
        (Raise (FileNotFoundError pasta_origem)) w
| run_bad_format :
    FS.is_dir (FS.stat (w_cwd w) (w_fs w) pasta_origem) = true ->
    existsb (String.eqb (Str.lower formato)) ["jpeg"; "png"] = false ->
    run sched pasta_origem pasta_destino qualidade subsampling progressivo
        otimizar manter_metadata recursivo overwrite formato threads w
        (Raise (ValueError "'formato' deve ser 'jpeg' ou 'png'.")) w
| run_started w1 r w' :
    FS.is_dir (FS.stat (w_cwd w) (w_fs w) pasta_origem) = true ->
    existsb (String.eqb (Str.lower formato)) ["jpeg"; "png"] = true ->
    aviso qualidade (Str.lower formato) w = (Ok tt, w1) ->
    run_batch sched pasta_origem pasta_destino qualidade subsampling
              progressivo otimizar manter_metadata recursivo overwrite
              (Str.lower formato) threads w1 r w' ->
    run sched pasta_origem pasta_destino qualidade subsampling progressivo
        otimizar manter_metadata recursivo overwrite formato threads w r w'.

(** What a run adds to the log and returns: every submitted task completed
    exactly once, and the tallies count the completions by outcome. *)
Definition tallied (w : world) (r : result (nat * nat)) (w' : world) : Prop :=
  exists evs,
    w_log w' = (w_log w ++ evs)%list
    /\ Permutation (submitted evs) (map fst (completed evs))
    /\ match r with
       | Ok (c, e) =>
           c = List.length (filter succeeded (completed evs))
           /\ e = List.length (filter failed (completed evs))
       | Raise _ => True
       end.

(** The exceptions a computation can raise all satisfy [P]. *)
Definition raises {S A} (P : exn -> Prop) (m : M S A) : Prop :=
  forall s e s', m s = (Raise e, s') -> P e.

(** Errors of the file system, as opposed to [ValueError]. *)
Definition os_error (e : exn) : Prop :=
  match e with
  | ValueError _ => False
  | _ => True
  end.

(** The output path [destino_para] computes for a relative input path. *)
Definition saida_de (formato pasta_destino_abs rel_path : string) : string :=
  Posixpath.join pasta_destino_abs
                 (fst (Posixpath.splitext rel_path)
                    ++ (if String.eqb formato "jpeg" then ".jpg" else ".png")).

(** *** Invariant of the [with] block

    Relative to the world [w0] at the entry of the block: the environment is
    the same, the file system has grown, and every task submitted so far,
    pending or not, satisfies [P]. *)
Definition xinv (ok : string -> node -> bool) (P : task -> Prop) (w0 : world)
           (x : exec) : Prop :=
  same_env w0 (x_world x)
  /\ grow ok (w_fs w0) (w_fs (x_world x))
  /\ (exists evs, w_log (x_world x) = (w_log w0 ++ evs)%list
                  /\ Forall P (submitted evs))
  /\ Forall P (x_pending x).

(** A task writes a file whose name [ok] accepts as a new entry. *)
Definition writes_ok (ok : string -> node -> bool) (t : task) : Prop :=
  forall c, ok (snd (Posixpath.split_raw (t_caminho_saida t))) (File c) = true.

(** The tasks a run submits all satisfy [P]. *)
Definition subs (P : task -> Prop) (w w' : world) : Prop :=
  exists evs, w_log w' = (w_log w ++ evs)%list /\ Forall P (submitted evs).

(** *** Well-formed file systems *)

(** A name a directory entry can have: not empty, not [.] or [..], and
    without a slash. *)
Definition clean (x : string) : bool :=
  negb (Str.has "/" x) && negb (OS.bad_name x).

Fixpoint wf_node (n : node) : bool :=
  match n with
  | File _ => true
  | Dir es =>
      (fix all (l : list (string * node)) : bool :=
         match l with
         | [] => true
         | (x, m) :: r => clean x && wf_node m && all r
         end) es
  end.

(** The current directory is absolute and every entry has a proper name. *)
Definition wf_world (w : world) : Prop :=
  Posixpath.isabs (w_cwd w) = true /\ wf_node (w_fs w) = true.

(** An absolute path whose components are proper names, as [abspath]
    returns them. *)
Definition normal (p : string) : Prop :=
  Posixpath.isabs p = true /\ Forall (fun x => clean x = true) (FS.names p).

(** The directory part of a relative path of names [ds]. *)
Definition dir_prefix (ds : list string) : string :=
  match ds with
  | [] => ""
  | _ => Str.join_with "/" ds ++ "/"
  end.

(** The pairs the recursive enumerator yields for one triple of [os.walk]. *)
Definition pares (cwd pasta_origem_abs : string)
           (t : string * list string * list string) : list (string * string) :=
  let '(raiz, _, ficheiros) := t in
  map (fun f =>
         let caminho_abs := Posixpath.join raiz f in
         let caminho_rel := Posixpath.relpath cwd caminho_abs pasta_origem_abs in
         (caminho_abs, caminho_rel))
      (filter ext_in_exts ficheiros).

(** Events that touch a picture or the pool. *)
Definition touches (ev : event) : Prop :=
  match ev with
  | EvOpen _ | EvSave _ _ | EvSubmit _ | EvDone _ _ => True
  | _ => False
  end.

(** An absolute normalised path as a string: one or two slashes, then
    proper names separated by single slashes. *)
Definition tidy (p : string) : Prop :=
  exists comps,
    Forall (fun y => clean y = true) comps
    /\ (p = "/" ++ Str.join_with "/" comps \/ p = "//" ++ Str.join_with "/" comps).

(** The walks of the sub-directories among the entries [l] of [top]. *)
Fixpoint walk_entries (top : string) (l : list (string * node))
  : list (string * list string * list string) :=
  match l with
  | [] => []
  | (d, File _) :: r => walk_entries top r
  | (d, (Dir _) as sub) :: r =>
      (FS.walk (Posixpath.join top d) sub ++ walk_entries top r)%list
  end.

(** The directory of the path [p] exists. *)
Definition dir_ok (cwd : string) (fs : node) (p : string) : Prop :=
  FS.is_dir (FS.lookup fs (FS.names (Posixpath.abspath cwd (Posixpath.dirname p))))
  = true.

(** Inside the [with] block of a run: unless some task has failed, the
    directory of every output path in [douts] exists, and every output path
    in [eouts] exists already or is the output of a pending task. *)
Definition cover (cwd : string) (douts eouts : list string) (x : exec) : Prop :=
  w_cwd (x_world x) = cwd
  /\ (forall s, In s douts -> dir_ok cwd (w_fs (x_world x)) s)
  /\ ((exists t e, In (t, Raise e) (x_finished x))
      \/ forall s, In s eouts ->
                   FS.stat cwd (w_fs (x_world x)) s <> None
                   \/ In s (map t_caminho_saida (x_pending x))).

(** A step that leaves the file system alone and touches no picture. *)
Definition quiet_step (w w' : world) : Prop :=
  w_fs w' = w_fs w /\ w_cwd w' = w_cwd w
  /\ exists evs, w_log w' = (w_log w ++ evs)%list
                 /\ Forall (fun ev => ~ touches ev) evs.

(** [/s] holds one picture and a sub-directory with another one. *)
Definition fs_duas_fotos : node :=
  Dir [("s", Dir [("a.heic", File (foto 1));
                  ("sub", Dir [("b.HEIF", File (foto 2))])])].

(** From [w] to [w']: the environment is the same and the file system has
    only grown. *)
Definition evolves (w w' : world) : Prop :=
  same_env w w' /\ grow ok_any (w_fs w) (w_fs w').

(** *** What a log prints, writes and holds *)

(** The messages a log prints and the paths it writes, in order. *)
Fixpoint prints (evs : list event) : list message :=
  match evs with
  | [] => []
  | EvPrint m :: r => m :: prints r
  | _ :: r => prints r
  end.

Fixpoint saves (evs : list event) : list string :=
  match evs with
  | [] => []
  | EvSave p _ :: r => p :: saves r
  | _ :: r => saves r
  end.

(** The exceptions of the futures that failed, in order. *)
Fixpoint failures (futs : list (task * result unit)) : list exn :=
  match futs with
  | [] => []
  | (_, Raise e) :: r => e :: failures r
  | (_, Ok _) :: r => failures r
  end.

(** Events that print nothing, write nothing, submit and complete
    nothing. *)
Definition mute (evs : list event) : Prop :=
  prints evs = [] /\ saves evs = [] /\ submitted evs = [] /\ completed evs = [].

(** A computation of the main thread that adds mute events only. *)
Definition quietly {A} (m : M world A) : Prop :=
  forall w r w', m w = (r, w') ->
    exists evs, w_log w' = (w_log w ++ evs)%list /\ mute evs.

(** The task the batch builds for an enumerated file (lines 149 to 159). *)
Definition tarefa_de (formato pasta_destino_abs : string) (qualidade subsampling : Z)
           (progressivo otimizar manter_metadata : bool)
           (fr : string * string) : task :=
  mkTask (fst fr) (saida_de formato pasta_destino_abs (snd fr)) formato
         qualidade subsampling progressivo otimizar manter_metadata.

(** Inside the [with] block, until the futures are counted: nothing has
    been printed, every write went to the output of a submitted task, and
    the pending tasks are submitted ones. *)
Definition linv (l0 : list event) (x : exec) : Prop :=
  exists evs,
    w_log (x_world x) = (l0 ++ evs)%list
    /\ prints evs = []
    /\ incl (saves evs) (map t_caminho_saida (submitted evs))
    /\ incl (x_pending x) (submitted evs).

(** The files a run enumerates: those the enumerator yields once the
    destination root has been created. *)
Definition ficheiros_de (pasta_origem pasta_destino : string) (recursivo : bool)
           (w : world) : result (list (string * string)) :=
  fst (_listar_ficheiros_heic
         (Posixpath.abspath (w_cwd w) pasta_origem) recursivo
         (snd (OS.makedirs (Posixpath.abspath (w_cwd w) pasta_destino) w))).

(** From [x] to [x'] the log grows by events that submit the tasks [l]. *)
Definition xsub (l : list task) (x x' : exec) : Prop :=
  exists evs, w_log (x_world x') = (w_log (x_world x) ++ evs)%list
              /\ submitted evs = l.

(** A run over [fs_exemplo], in which one conversion fails. *)
Definition corrida_exemplo (overwrite : bool) : result (nat * nat) * world :=
  converter_heic sched_tardio "/s" "out" 96 0 true true true true overwrite
                 "JPEG" None (mundo fs_exemplo).

(** ** The command line *)

(** The namespace [_parse_args] returns: one attribute for each option the
    parser declares (lines 182 to 198).  The parsing itself is done by
    [argparse] and is not part of this development. *)
Module Args.

Record t := mk {
  origem : string;
  destino : string;
  formato : string;
  qualidade : Z;
  subsampling : Z;
  sem_progressivo : bool;
  sem_otimizar : bool;
  sem_metadata : bool;
  nao_recursivo : bool;
  overwrite : bool;
  threads : Z
}.

End Args.

(** How [main] ends: it returns, or [sys.exit] raises [SystemExit], which
    is not an [Exception] and leaves [main]. *)
Inductive ending :=
| Returns
| SystemExit (code : Z).

(** [main], from line 204 on, for the namespace [args] that [_parse_args]
    returned.  Every exception of [exn] is an [Exception]. *)
Definition main (sched : scheduler) (args : Args.t) : world -> ending * world :=
  fun w =>
    match converter_heic sched (Args.origem args) (Args.destino args)
                         (Args.qualidade args) (Args.subsampling args)
                         (negb (Args.sem_progressivo args))
                         (negb (Args.sem_otimizar args))
                         (negb (Args.sem_metadata args))
                         (negb (Args.nao_recursivo args))
                         (Args.overwrite args) (Args.formato args)
                         (Some (Args.threads args)) w with
    | (Ok _, w') => (Returns, w')
    | (Raise e, w') =>
        let (_, w'') := print (MsgErro e) w' in
        (SystemExit 1, w'')
    end.

(** *** Files that keep their content *)

(** From [fs] to [fs'], every regular file whose name satisfies [K] is
    still there, at the same place, with the same content. *)
Definition frame (K : string -> bool) (fs fs' : node) : Prop :=
  forall ns c,
    FS.lookup fs ns = Some (File c) -> K (last ns "") = true ->
    FS.lookup fs' ns = Some (File c).

Definition wframe (K : string -> bool) (w w' : world) : Prop :=
  frame K (w_fs w) (w_fs w').

(** Inside the [with] block: the files that [K] protects are as they were
    in [fs0], and no pending task writes a file that [K] protects. *)
Definition finv (K : string -> bool) (fs0 : node) (x : exec) : Prop :=
  frame K fs0 (w_fs (x_world x))
  /\ Forall (fun t => K (snd (Posixpath.split_raw (t_caminho_saida t))) = false)
            (x_pending x).

(** No directory has two entries of the same name, at any depth. *)
Fixpoint distinct (n : node) : bool :=
  match n with
  | File _ => true
  | Dir es =>
      (fix all (l : list (string * node)) : bool :=
         match l with
         | [] => true
         | (x, m) :: r =>
             negb (existsb (String.eqb x) (map fst r)) && distinct m && all r
         end) es
  end.

(** *** The file system a log produces *)






(** *** Letter case *)





(** *** The number of workers *)

(** The number of workers that lines 131 to 133 choose, case by case: a
    positive [threads] as it is; otherwise the processor count brought into
    the range from 1 to 32, with 2 in the place of a count that is unknown
    or zero. *)
Definition contagem_certa (threads cpus : option Z) (n : Z) : Prop :=
  if match threads with Some t => Z.ltb 0 t | None => false end
  then threads = Some n
  else match cpus with
       | None => n = 2%Z
       | Some c =>
           (c = 0 -> n = 2)%Z /\ (c < 0 -> n = 1)%Z
           /\ (1 <= c <= 32 -> n = c)%Z /\ (32 < c -> n = 32)%Z
       end.

(** A message that, if it is the options line, shows a number of workers
    that satisfies [P]. *)
Definition opcoes_com (P : Z -> Prop) (m : message) : Prop :=
  match m with
  | MsgOpcoes _ _ _ _ _ _ _ _ n => P n
  | _ => True
  end.

(** A run in which the loop of submissions raises after a task was
    submitted and run: [/out/sub] is a regular file, so the directory of
    the second output cannot be created. *)
Definition corrida_interrompida : result (nat * nat) * world :=
  converter_heic sched_imediato "/s" "/out" 90 0 true true true true false
                 "jpeg" None
                 (mundo (Dir [("s", Dir [("a.heic", File (foto 1));
                                         ("sub", Dir [("b.heic", File (foto 2))])]);
                              ("out", Dir [("sub", File Junk)])])).

(** *** A source without pictures *)

(** A directory with the entries [es] holds no picture: none of its regular
    files has a recognised extension and, when [deep], none has one in its
    sub-directories, at any depth. *)
Definition sem_fotos (deep : bool) (es : list (string * node)) : bool :=
  if deep then forallb (fun e => fresh true (fst e) (snd e)) es
  else forallb (fun x => negb (ext_in_exts x)) (FS.filenames es).

(** The names in [ns] are not those of pictures. *)
Definition nomes_comuns (ns : list string) : bool :=
  forallb (fun x => negb (ext_in_exts x)) ns.

(** * Properties *)

Example splitext_heic : Posixpath.splitext "a/b.c/IMG_1.HEIC" = ("a/b.c/IMG_1", ".HEIC").
Proof. reflexivity. Qed.
Example splitext_dotfile : Posixpath.splitext "a/.heic" = ("a/.heic", "").
Proof. reflexivity. Qed.
Example splitext_dots : Posixpath.splitext "..heic" = ("..heic", "").
Proof. reflexivity. Qed.
Example splitext_dir_dot : Posixpath.splitext "a.b/c" = ("a.b/c", "").
Proof. reflexivity. Qed.
Example splitext_two : Posixpath.splitext "x.tar.heif" = ("x.tar", ".heif").
Proof. reflexivity. Qed.
Example dirname_ex : Posixpath.dirname "/out/a/b.jpg" = "/out/a".
Proof. reflexivity. Qed.
Example dirname_root : Posixpath.dirname "/b.jpg" = "/".
Proof. reflexivity. Qed.
Example normpath_ex : Posixpath.normpath "/a//b/./c/../d/" = "/a/b/d".
Proof. reflexivity. Qed.
Example normpath_rel : Posixpath.normpath "../a/.." = "..".
Proof. reflexivity. Qed.
Example abspath_ex : Posixpath.abspath "/home/u" "fotos_heic" = "/home/u/fotos_heic".
Proof. reflexivity. Qed.
Example relpath_ex : Posixpath.relpath "/" "/s/a/b/img.heic" "/s" = "a/b/img.heic".
Proof. reflexivity. Qed.
Example lower_ex : Str.lower "JPEG" = "jpeg".
Proof. reflexivity. Qed.


(** ** The monad *)

Lemma bind_inv {S A B} (m : M S A) (k : A -> M S B) s r s' :
  bind m k s = (r, s') ->
  (exists a s1, m s = (Ok a, s1) /\ k a s1 = (r, s'))
  \/ (exists e, m s = (Raise e, s') /\ r = Raise e).
Proof.
  unfold bind. destruct (m s) as [[a|e] s1]; intros H.
  - left. now exists a, s1.
  - right. exists e. now inversion H.
Qed.

Section Preservation.

Context {S : Type} (T : S -> S -> Prop).
Hypothesis T_refl : forall s, T s s.
Hypothesis T_trans : forall a b c, T a b -> T b c -> T a c.

Lemma pres_ret {A} (a : A) : pres T (ret a).
Proof. intros s r s' H. inversion H. apply T_refl. Qed.

Lemma pres_raise {A} e : pres T (@raise S A e).
Proof. intros s r s' H. inversion H. apply T_refl. Qed.

Lemma pres_bind {A B} (m : M S A) (k : A -> M S B) :
  pres T m -> (forall a, pres T (k a)) -> pres T (bind m k).
Proof.
  intros Hm Hk s r s' H.
  destruct (bind_inv _ _ _ _ _ H) as [(a & s1 & H1 & H2)|(e & H1 & _)].
  - eapply T_trans; [eapply Hm, H1 | eapply Hk, H2].
  - eapply Hm, H1.
Qed.

Lemma pres_if {A} (b : bool) (m1 m2 : M S A) :
  pres T m1 -> pres T m2 -> pres T (if b then m1 else m2).
Proof. now destruct b. Qed.

End Preservation.

Lemma keeps_ret {S A} (I : S -> Prop) (a : A) : keeps I (ret a).
Proof. intros s r s' Hs H. now inversion H; subst. Qed.

Lemma keeps_bind {S A B} (I : S -> Prop) (m : M S A) (k : A -> M S B) :
  keeps I m -> (forall a, keeps I (k a)) -> keeps I (bind m k).
Proof.
  intros Hm Hk s r s' Hs H.
  destruct (bind_inv _ _ _ _ _ H) as [(a & s1 & H1 & H2)|(e & H1 & _)].
  - eapply Hk; [eapply Hm; eassumption | eassumption].
  - eapply Hm; eassumption.
Qed.

(** ** Entries of a directory *)

Lemma set_absent x n es :
  FS.assoc x es = None -> FS.set x n es = (es ++ [(x, n)])%list.
Proof.
  induction es as [|[y m] es IH]; simpl; [reflexivity|].
  destruct (String.eqb x y); [discriminate|].
  intros H. now rewrite IH.
Qed.

Lemma set_same x n es : FS.assoc x es = Some n -> FS.set x n es = es.
Proof.
  induction es as [|[y m] es IH]; simpl; [discriminate|].
  destruct (String.eqb x y).
  - now intros [= ->].
  - intros H. now rewrite IH.
Qed.

Lemma assoc_set_eq x n es : FS.assoc x (FS.set x n es) = Some n.
Proof.
  induction es as [|[y m] es IH]; simpl.
  - now rewrite String.eqb_refl.
  - destruct (String.eqb x y) eqn:E; simpl; now rewrite E.
Qed.

(** ** Growth *)

Section GrowLemmas.

Variable ok : string -> node -> bool.

Lemma grow_refl n : grow ok n n.
Proof.
  induction n as [c|es IH] using node_ind; constructor.
  induction IH as [|[x n] es H _ IH]; constructor; auto.
Qed.

Lemma grow_entries_refl es : grow_entries ok es es.
Proof.
  induction es as [|[x n] es IH]; constructor; auto using grow_refl.
Qed.

Lemma grow_entries_app es new :
  Forall (fun e => ok (fst e) (snd e) = true) new ->
  grow_entries ok es (es ++ new)%list.
Proof.
  intros H. induction es as [|[x n] es IH]; simpl.
  - now constructor.
  - constructor; auto using grow_refl.
Qed.

Lemma grow_entries_set x n n' es :
  FS.assoc x es = Some n -> grow ok n n' ->
  grow_entries ok es (FS.set x n' es).
Proof.
  induction es as [|[y m] es IH]; simpl; [discriminate|].
  destruct (String.eqb x y).
  - intros [= ->] H. constructor; auto using grow_entries_refl.
  - intros H1 H2. constructor; auto using grow_refl.
Qed.

Lemma grow_assoc es es' :
  grow_entries ok es es' ->
  forall x n, FS.assoc x es = Some n ->
              exists n', FS.assoc x es' = Some n' /\ grow ok n n'.
Proof.
  induction 1 as [new _|y m m' es es' Hm _ IH]; simpl; [discriminate|].
  intros x n. destruct (String.eqb x y).
  - intros [= <-]. eauto.
  - apply IH.
Qed.

Lemma grow_lookup ns : forall n n',
  grow ok n n' ->
  forall m, FS.lookup n ns = Some m ->
            exists m', FS.lookup n' ns = Some m' /\ grow ok m m'.
Proof.
  induction ns as [|x r IH]; simpl; intros n n' H m.
  - intros [= <-]. eauto.
  - destruct H as [c c'|es es' He]; [discriminate|].
    destruct (FS.assoc x es) as [c|] eqn:E; [|discriminate].
    destruct (grow_assoc _ _ He _ _ E) as (c' & -> & Hc).
    now apply IH.
Qed.

Lemma grow_is_dir n n' m ns :
  grow ok n n' -> FS.lookup n ns = Some m ->
  FS.is_dir (FS.lookup n' ns) = FS.is_dir (Some m).
Proof.
  intros H Hm. destruct (grow_lookup _ _ _ H _ Hm) as (m' & -> & Hg).
  now destruct Hg.
Qed.

Lemma grow_canon fs fs' :
  grow ok fs fs' ->
  forall cs st ns, FS.canon fs st cs = Some ns -> FS.canon fs' st cs = Some ns.
Proof.
  intros H. induction cs as [|c r IH]; simpl; intros st ns; [auto|].
  destruct (FS.lookup fs st) as [m|] eqn:E; [|discriminate].
  rewrite (grow_is_dir _ _ _ _ H E).
  destruct (FS.is_dir (Some m)); [|discriminate].
  destruct (String.eqb c "" || String.eqb c "."); [apply IH|].
  destruct (String.eqb c ".."); [apply IH|].
  destruct (FS.lookup fs (st ++ [c])) as [m1|] eqn:E1; [|discriminate].
  destruct (grow_lookup _ _ _ H _ E1) as (m1' & -> & _). apply IH.
Qed.

Lemma grow_resolve cwd fs fs' p ns :
  grow ok fs fs' ->
  FS.resolve cwd fs p = Some ns -> FS.resolve cwd fs' p = Some ns.
Proof.
  unfold FS.resolve. intros H. destruct (Str.is_empty p); [discriminate|].
  now apply grow_canon.
Qed.

Lemma grow_stat cwd fs fs' p m :
  grow ok fs fs' -> FS.stat cwd fs p = Some m ->
  exists m', FS.stat cwd fs' p = Some m' /\ grow ok m m'.
Proof.
  unfold FS.stat. intros H.
  destruct (FS.resolve cwd fs p) as [ns|] eqn:E; [|discriminate].
  rewrite (grow_resolve _ _ _ _ _ H E). now apply grow_lookup.
Qed.

(** Transitivity asks that [ok] survive growth. *)
Hypothesis ok_stable :
  forall x n n', ok x n = true -> grow ok n n' -> ok x n' = true.

Lemma grow_entries_ok es es' :
  grow_entries ok es es' ->
  Forall (fun e => ok (fst e) (snd e) = true) es ->
  Forall (fun e => ok (fst e) (snd e) = true) es'.
Proof.
  induction 1 as [new Hn|y m m' es es' Hm _ IH]; [auto|].
  intros H. inversion H; subst. constructor; simpl in *; eauto.
Qed.

Lemma grow_trans a b : grow ok a b -> forall c, grow ok b c -> grow ok a c.
Proof.
  revert a b.
  apply (grow_mut ok
           (fun a b => forall c, grow ok b c -> grow ok a c)
           (fun es es' => forall es'', grow_entries ok es' es'' ->
                                       grow_entries ok es es'')).
  - intros c c' d H. inversion H. constructor.
  - intros es es' _ IH d H. inversion H; subst. constructor. auto.
  - intros new Hn es'' H. constructor. eapply grow_entries_ok; eassumption.
  - intros x n n' es es' _ IHn _ IHe es'' H. inversion H; subst.
    constructor; auto.
Qed.

End GrowLemmas.

(** ** Steps of the world *)

Lemma fresh_stable dirs x n n' :
  fresh dirs x n = true -> grow (fresh dirs) n n' -> fresh dirs x n' = true.
Proof.
  intros H G. revert x H. revert n n' G.
  apply (grow_mut (fresh dirs)
           (fun n n' => forall x, fresh dirs x n = true -> fresh dirs x n' = true)
           (fun es es' =>
              forall x, fresh dirs x (Dir es) = true -> fresh dirs x (Dir es') = true)).
  - auto.
  - auto.
  - intros new Hn x. simpl. intros H. rewrite andb_true_r in H. subst dirs.
    simpl. induction Hn as [|[y m] r Hy _ IH]; [reflexivity|].
    simpl in Hy. now rewrite Hy, IH.
  - intros y n n' es es' _ IHn _ IHe x. simpl.
    destruct dirs; [|discriminate]. simpl.
    intros H. apply andb_prop in H. destruct H as [H1 H2].
    rewrite (IHn _ H1). apply (IHe x). simpl. exact H2.
Qed.

Lemma fresh_only_dirs x n : only_dirs n = true -> fresh true x n = true.
Proof.
  revert x. induction n as [c|es IH] using node_ind; intros x; simpl; [discriminate|].
  induction IH as [|[y m] r Hy _ IHr]; [reflexivity|].
  intros H. apply andb_prop in H. destruct H as [H1 H2].
  simpl in Hy. now rewrite (Hy y H1), IHr.
Qed.

Lemma mkdirs_only_dirs p ns : forall n n',
  only_dirs n = true -> FS.mkdirs p n ns = Ok n' -> only_dirs n' = true.
Proof.
  induction ns as [|x r IH]; intros n n' Hn; destruct n as [c|es]; simpl;
    try discriminate.
  - now intros [= <-].
  - destruct (FS.mkdirs p _ r) as [c'|e] eqn:E; [|discriminate].
    intros [= <-].
    assert (Hc : only_dirs c' = true).
    { eapply IH; [|exact E].
      destruct (FS.assoc x es) as [c|] eqn:Ea; [|reflexivity].
      clear E. simpl in Hn. induction es as [|[y m] es IHes]; [discriminate|].
      simpl in Ea. apply andb_prop in Hn. destruct Hn as [H1 H2].
      destruct (String.eqb x y); [now inversion Ea; subst|auto]. }
    simpl in Hn |- *. clear E.
    induction es as [|[y m] es IHes]; simpl.
    + now rewrite Hc.
    + apply andb_prop in Hn. destruct Hn as [H1 H2].
      destruct (String.eqb x y); simpl.
      * now rewrite Hc, H2.
      * now rewrite H1, IHes.
Qed.

(** Turn a goal on one run of [m] into the preservation of [T] by [m]. *)
Ltac as_pres :=
  match goal with
  | |- ?m ?w = (?r, ?w') -> ?T ?w ?w' =>
      apply (fun H : pres T m => H w r w')
  end.

Section Steps.

Variable ok : string -> node -> bool.
Hypothesis ok_stable :
  forall x n n', ok x n = true -> grow ok n n' -> ok x n' = true.

Lemma logs_plain_refl w : logs_plain w w.
Proof. exists []. now rewrite app_nil_r. Qed.

Lemma logs_plain_trans a b c : logs_plain a b -> logs_plain b c -> logs_plain a c.
Proof.
  intros (e1 & H1 & F1) (e2 & H2 & F2). exists (e1 ++ e2)%list.
  rewrite H2, H1, app_assoc. split; [reflexivity|]. now apply Forall_app.
Qed.

Lemma wstep_refl w : wstep ok w w.
Proof. repeat split; auto using logs_plain_refl, grow_refl. Qed.

Lemma wstep_trans a b c : wstep ok a b -> wstep ok b c -> wstep ok a c.
Proof.
  intros ((E1 & E2) & L & G) ((E1' & E2') & L' & G').
  repeat split; try congruence.
  - eapply logs_plain_trans; eassumption.
  - eapply grow_trans; eassumption.
Qed.

Lemma wstep_bind {A B} (m : M world A) (k : A -> M world B) :
  pres (wstep ok) m -> (forall a, pres (wstep ok) (k a)) ->
  pres (wstep ok) (bind m k).
Proof. apply pres_bind, wstep_trans. Qed.

Lemma wstep_emit e : plain e -> pres (wstep ok) (emit e).
Proof.
  intros He w r w' H. inversion H; subst; clear H.
  repeat split; simpl; auto using grow_refl.
  exists [e]. auto.
Qed.

Lemma wstep_with_fs w fs' :
  grow ok (w_fs w) fs' -> wstep ok w (with_fs w fs').
Proof.
  intros H. split; [now split|]. split; [|exact H].
  exists []. simpl. now rewrite app_nil_r.
Qed.

Lemma wstep_read {A} (f : world -> A) : pres (wstep ok) (fun w => (Ok (f w), w)).
Proof. intros w r w' H. inversion H; subst. apply wstep_refl. Qed.

Lemma mkdirs_grow p ns :
  (forall x n, only_dirs n = true -> ok x n = true) ->
  forall n n', FS.mkdirs p n ns = Ok n' -> grow ok n n'.
Proof.
  intros Hd. induction ns as [|x r IH]; intros n n'; destruct n as [c|es]; simpl;
    try discriminate.
  - intros [= <-]. apply grow_refl.
  - destruct (FS.mkdirs p _ r) as [c'|e] eqn:E; [|discriminate].
    intros [= <-]. constructor.
    destruct (FS.assoc x es) as [c|] eqn:Ea.
    + eapply grow_entries_set; eauto.
    + rewrite (set_absent _ _ _ Ea). apply grow_entries_app.
      constructor; [|constructor]. simpl. apply Hd.
      eapply mkdirs_only_dirs; [|exact E]. reflexivity.
Qed.

Lemma wstep_makedirs p :
  (forall x n, only_dirs n = true -> ok x n = true) ->
  pres (wstep ok) (OS.makedirs p).
Proof.
  intros Hd w r w'. unfold OS.makedirs.
  destruct (FS.mkdirs p (w_fs w) _) as [fs'|e] eqn:E.
  - intros H. eapply wstep_trans; [|eapply wstep_emit, H; exact I].
    apply wstep_with_fs. eapply mkdirs_grow; eassumption.
  - intros [= _ <-]. apply wstep_refl.
Qed.

Lemma update_grow f ns : forall n es,
  FS.lookup n ns = Some (Dir es) ->
  grow_entries ok es (f es) ->
  grow ok n (FS.update n ns f).
Proof.
  induction ns as [|x r IH]; intros n es; destruct n as [c|es0]; simpl;
    try discriminate.
  - intros [= ->] H. now constructor.
  - destruct (FS.assoc x es0) as [c|] eqn:Ea; [|discriminate].
    intros Hl Hf. constructor. eapply grow_entries_set; eauto.
Qed.

Lemma set_file_grow x c es :
  ok x (File c) = true ->
  match FS.assoc x es with Some (Dir _) => False | _ => True end ->
  grow_entries ok es (FS.set x (File c) es).
Proof.
  intros Hok Ha. destruct (FS.assoc x es) as [[c0|?]|] eqn:E; [| tauto |].
  - eapply grow_entries_set; [exact E | constructor].
  - rewrite (set_absent _ _ _ E). apply grow_entries_app. now repeat constructor.
Qed.

Lemma wstep_write_file p c :
  ok (snd (Posixpath.split_raw p)) (File c) = true ->
  pres (wstep ok) (OS.write_file p c).
Proof.
  intros Hok w r w'. unfold OS.write_file.
  destruct (Posixpath.split_raw p) as [head name]. simpl in Hok.
  destruct (OS.bad_name name); [intros [= _ <-]; apply wstep_refl|].
  destruct (FS.resolve _ _ _) as [ns|]; [|intros [= _ <-]; apply wstep_refl].
  destruct (FS.lookup (w_fs w) ns) as [[c0|es]|] eqn:El;
    try (intros [= _ <-]; apply wstep_refl).
  assert (G : match FS.assoc name es with Some (Dir _) => False | _ => True end ->
              wstep ok w (with_fs w (FS.update (w_fs w) ns (FS.set name (File c))))).
  { intros Ha. apply wstep_with_fs. eapply update_grow; [exact El|].
    now apply set_file_grow. }
  destruct (FS.assoc name es) as [[c0|?]|] eqn:Ea;
    try (intros [= _ <-]; apply wstep_refl);
    intros H; (eapply wstep_trans; [apply G; exact I|]);
    eapply wstep_emit, H; exact I.
Qed.

Lemma wstep_open p : pres (wstep ok) (Image.open p).
Proof.
  intros w r w'. unfold Image.open.
  destruct (FS.stat _ _ p) as [[c|es]|]; try (intros [= _ <-]; apply wstep_refl).
  destruct (PIL.decode c); [|intros [= _ <-]; apply wstep_refl].
  as_pres. apply wstep_bind.
  - now apply wstep_emit.
  - intros _. apply pres_ret. apply wstep_refl.
Qed.

Lemma wstep_save im p params :
  (forall c, ok (snd (Posixpath.split_raw p)) (File c) = true) ->
  pres (wstep ok) (Image.save im p params).
Proof.
  intros Hok. unfold Image.save. destruct (PIL.encode im params).
  - now apply wstep_write_file.
  - apply pres_raise, wstep_refl.
Qed.

Lemma wstep_salvar entrada saida formato q ss pr ot mm :
  (forall c, ok (snd (Posixpath.split_raw saida)) (File c) = true) ->
  pres (wstep ok) (_salvar_imagem entrada saida formato q ss pr ot mm).
Proof.
  intros Hok. unfold _salvar_imagem.
  apply wstep_bind; auto using wstep_open.
  intros im. cbv zeta.
  repeat (apply pres_if); auto using wstep_save, pres_raise, wstep_refl.
Qed.

Lemma wstep_listdir p : pres (wstep ok) (OS.listdir p).
Proof.
  intros w r w'. unfold OS.listdir.
  destruct (FS.stat _ _ p) as [[c|es]|]; try (intros [= _ <-]; apply wstep_refl).
  as_pres. apply wstep_bind.
  - now apply wstep_emit.
  - intros _. apply pres_ret, wstep_refl.
Qed.

Lemma wstep_walk p : pres (wstep ok) (OS.walk p).
Proof.
  intros w r w'. unfold OS.walk.
  destruct (FS.stat _ _ p) as [n|]; try (intros [= _ <-]; apply wstep_refl).
  as_pres. apply wstep_bind.
  - now apply wstep_emit.
  - intros _. apply pres_ret, wstep_refl.
Qed.

Lemma wstep_listar p rec : pres (wstep ok) (_listar_ficheiros_heic p rec).
Proof.
  unfold _listar_ficheiros_heic.
  apply wstep_bind.
  { apply wstep_read. }
  intros pa. destruct rec.
  - apply wstep_bind; auto using wstep_walk.
    intros t. apply wstep_bind.
    { apply (wstep_read w_cwd). }
    intros cwd. apply pres_ret, wstep_refl.
  - apply wstep_bind; auto using wstep_listdir.
    intros t. apply pres_ret, wstep_refl.
Qed.

Lemma wstep_print m : pres (wstep ok) (print m).
Proof. now apply wstep_emit. Qed.

Lemma wstep_contar futs : forall c e, pres (wstep ok) (contar futs c e).
Proof.
  induction futs as [|[t [u|x]] r IH]; intros c e; simpl.
  - apply pres_ret, wstep_refl.
  - apply IH.
  - apply wstep_bind; auto using wstep_print.
Qed.

Lemma wstep_destino formato dest rel :
  (forall x n, only_dirs n = true -> ok x n = true) ->
  pres (wstep ok) (destino_para formato dest rel).
Proof.
  intros Hd. unfold destino_para. destruct (Posixpath.splitext rel) as [b e].
  apply wstep_bind; auto using wstep_makedirs.
  intros _. apply pres_ret, wstep_refl.
Qed.

End Steps.

(** ** The log *)

Lemma submitted_app a b : submitted (a ++ b) = (submitted a ++ submitted b)%list.
Proof.
  induction a as [|e a IH]; simpl; [reflexivity|].
  destruct e; simpl; now rewrite IH.
Qed.

Lemma completed_app a b : completed (a ++ b) = (completed a ++ completed b)%list.
Proof.
  induction a as [|e a IH]; simpl; [reflexivity|].
  destruct e; simpl; now rewrite IH.
Qed.

Lemma submitted_plain evs : Forall plain evs -> submitted evs = [].
Proof.
  induction 1 as [|e r He _ IH]; [reflexivity|].
  destruct e; simpl in *; tauto.
Qed.

Lemma completed_plain evs : Forall plain evs -> completed evs = [].
Proof.
  induction 1 as [|e r He _ IH]; [reflexivity|].
  destruct e; simpl in *; tauto.
Qed.

Lemma news_app w w' evs : w_log w' = (w_log w ++ evs)%list -> news w w' = evs.
Proof.
  unfold news. intros ->. rewrite skipn_app, skipn_all, Nat.sub_diag. reflexivity.
Qed.

Lemma all_ran_refl w : all_ran w w.
Proof. exists []. rewrite app_nil_r. split; [reflexivity|constructor]. Qed.

Lemma all_ran_trans a b c : all_ran a b -> all_ran b c -> all_ran a c.
Proof.
  intros (e1 & H1 & P1) (e2 & H2 & P2). exists (e1 ++ e2)%list.
  rewrite H2, H1, app_assoc. split; [reflexivity|].
  rewrite submitted_app, completed_app, map_app. now apply Permutation_app.
Qed.

Lemma wstep_all_ran ok w w' : wstep ok w w' -> all_ran w w'.
Proof.
  intros (_ & (evs & H & F) & _). exists evs. split; [exact H|].
  rewrite (submitted_plain _ F), (completed_plain _ F). constructor.
Qed.

(** ** The pool *)

Lemma ok_any_stable x n n' : ok_any x n = true -> grow ok_any n n' -> ok_any x n' = true.
Proof. reflexivity. Qed.

Lemma run_task_wstep t : pres (wstep ok_any) (run_task t).
Proof. apply wstep_salvar; [exact ok_any_stable | reflexivity]. Qed.

Lemma nth_error_cut {A} (l : list A) k t :
  nth_error l k = Some t -> l = (firstn k l ++ t :: skipn (S k) l)%list.
Proof.
  revert k. induction l as [|a l IH]; intros [|k]; simpl; try discriminate.
  - now intros [= ->].
  - intros H. f_equal. now apply IH.
Qed.

Lemma acct_lift {A} l0 (m : M world A) :
  pres (wstep ok_any) m -> keeps (acct l0) (lift m).
Proof.
  intros Hm x r x' (evs & Hl & Hp & Hc). unfold lift.
  destruct (m (x_world x)) as [r1 w1] eqn:E. intros [= _ <-].
  destruct (Hm _ _ _ E) as (_ & (e1 & H1 & F1) & _).
  exists (evs ++ e1)%list. simpl. rewrite H1, Hl, app_assoc.
  rewrite submitted_app, completed_app.
  rewrite (submitted_plain _ F1), (completed_plain _ F1), !app_nil_r. auto.
Qed.

Lemma acct_submit l0 t : keeps (acct l0) (submit t).
Proof.
  intros x r x' (evs & Hl & Hp & Hc). unfold submit. simpl. intros [= _ <-].
  exists (evs ++ [EvSubmit t])%list. simpl. rewrite Hl, app_assoc.
  rewrite submitted_app, completed_app. simpl. rewrite app_nil_r.
  repeat split; auto. rewrite app_assoc. now apply Permutation_app.
Qed.

Lemma acct_complete l0 k : keeps (acct l0) (complete k).
Proof.
  intros x r x' (evs & Hl & Hp & Hc). unfold complete.
  destruct (nth_error (x_pending x) k) as [t|] eqn:En.
  - destruct (run_task t (x_world x)) as [r1 w1] eqn:E. simpl. intros [= _ <-].
    destruct (run_task_wstep _ _ _ _ E) as (_ & (e1 & H1 & F1) & _).
    exists (evs ++ e1 ++ [EvDone t r1])%list. simpl.
    rewrite H1, Hl, <- !app_assoc. split; [reflexivity|].
    rewrite !submitted_app, !completed_app.
    rewrite (submitted_plain _ F1), (completed_plain _ F1). simpl.
    rewrite app_nil_r, Hc. split; [|reflexivity].
    rewrite Hp, map_app. simpl. rewrite <- app_assoc. apply Permutation_app_head.
    rewrite (nth_error_cut _ _ _ En) at 1. simpl.
    symmetry. apply Permutation_middle.
  - intros [= _ <-]. now exists evs.
Qed.

Lemma acct_workers l0 picks : keeps (acct l0) (workers picks).
Proof.
  induction picks as [|k r IH]; simpl.
  - apply keeps_ret.
  - apply keeps_bind; auto using acct_complete.
Qed.

Lemma acct_run_all l0 n : keeps (acct l0) (run_all n).
Proof.
  induction n as [|n IH]; simpl.
  - apply keeps_ret.
  - apply keeps_bind; auto using acct_complete.
Qed.

Lemma acct_wait_all l0 picks : keeps (acct l0) (wait_all picks).
Proof.
  unfold wait_all. apply keeps_bind; [apply acct_workers|].
  intros _ x r x' Hx. apply acct_run_all. exact Hx.
Qed.

Lemma complete_ok k x : exists x', complete k x = (Ok tt, x').
Proof.
  unfold complete. destruct (nth_error _ k); [|eauto].
  destruct (run_task _ _) as [r w]. simpl. eauto.
Qed.

Lemma workers_ok picks : forall x, exists x', workers picks x = (Ok tt, x').
Proof.
  induction picks as [|k r IH]; intros x; simpl; [unfold ret; eauto|].
  unfold bind. destruct (complete_ok k x) as (x1 & ->). apply IH.
Qed.

Lemma run_all_ok n : forall x, exists x', run_all n x = (Ok tt, x').
Proof.
  induction n as [|n IH]; intros x; simpl; [unfold ret; eauto|].
  unfold bind. destruct (complete_ok 0 x) as (x1 & ->). apply IH.
Qed.

Lemma wait_all_ok picks x : exists x', wait_all picks x = (Ok tt, x').
Proof.
  unfold wait_all, bind. destruct (workers_ok picks x) as (x1 & ->). apply run_all_ok.
Qed.

Lemma run_all_drains n : forall x r x',
  List.length (x_pending x) <= n -> run_all n x = (r, x') -> x_pending x' = [].
Proof.
  induction n as [|n IH]; intros x r x' Hn; simpl.
  - intros [= _ <-]. destruct (x_pending x); [reflexivity|simpl in Hn; lia].
  - unfold bind. destruct (complete 0 x) as [[[]|e] x1] eqn:E.
    + apply IH. unfold complete in E.
      destruct (x_pending x) as [|t p] eqn:Ep; simpl in E.
      * inversion E; subst. rewrite Ep. simpl. lia.
      * destruct (run_task t _) as [r1 w1]. simpl in E. inversion E; subst.
        simpl in *. lia.
    + destruct (complete_ok 0 x) as (x2 & E2). congruence.
Qed.

Lemma wait_all_drains picks x r x' :
  wait_all picks x = (r, x') -> x_pending x' = [].
Proof.
  unfold wait_all, bind. destruct (workers_ok picks x) as (x1 & ->).
  apply run_all_drains. lia.
Qed.

Lemma wstep_any_destino formato dest rel :
  pres (wstep ok_any) (destino_para formato dest rel).
Proof. apply wstep_destino; [exact ok_any_stable | reflexivity]. Qed.

Lemma acct_submeter l0 sched q ss pr ot mm ow f dest ficheiros : forall i,
  keeps (acct l0) (submeter sched q ss pr ot mm ow f dest i ficheiros).
Proof.
  induction ficheiros as [|[a rel] rest IH]; intros i; simpl.
  - apply keeps_ret.
  - apply keeps_bind; [apply acct_workers|intros _].
    apply keeps_bind; [apply acct_lift, wstep_any_destino|intros saida].
    apply keeps_bind; [apply acct_workers|intros _].
    apply keeps_bind; [apply acct_lift, wstep_read|intros existe].
    apply keeps_bind; [|intros _; apply IH].
    destruct (negb ow && existe); [apply keeps_ret|apply acct_submit].
Qed.

Lemma contar_result futs : forall c e w,
  exists w', contar futs c e w
             = (Ok (c + List.length (filter succeeded futs),
                    e + List.length (filter failed futs)), w')
             /\ wstep ok_any w w'.
Proof.
  induction futs as [|[t [u|x]] r IH]; intros c e w; simpl.
  - exists w. rewrite !Nat.add_0_r. split; [reflexivity|apply wstep_refl].
  - destruct (IH (S c) e w) as (w' & -> & H). exists w'.
    split; [|exact H]. now rewrite <- plus_n_Sm.
  - unfold bind. destruct (print (MsgErro x) w) as [r1 w1] eqn:E.
    assert (H1 := wstep_print ok_any _ _ _ _ E).
    assert (Hr : r1 = Ok tt) by (unfold print, emit in E; now inversion E).
    subst r1.
    destruct (IH c (S e) w1) as (w' & -> & H). exists w'.
    split; [now rewrite <- plus_n_Sm|].
    eapply wstep_trans; eauto using ok_any_stable.
Qed.

Lemma wait_all_idle picks x : x_pending x = [] -> wait_all picks x = (Ok tt, x).
Proof.
  intros Hp. unfold wait_all, bind.
  assert (Hw : workers picks x = (Ok tt, x)).
  { induction picks as [|k r IH]; simpl; [reflexivity|].
    unfold bind, complete. rewrite Hp.
    replace (nth_error [] k) with (@None task) by now destruct k.
    exact IH. }
  rewrite Hw, Hp. reflexivity.
Qed.

Lemma as_completed_result sched n x r x' :
  as_completed sched n x = (r, x') ->
  x_pending x' = []
  /\ r = Ok (List.length (filter succeeded (x_finished x')),
             List.length (filter failed (x_finished x'))).
Proof.
  unfold as_completed, bind.
  destruct (wait_all_ok (sched n) x) as (x1 & E). rewrite E.
  unfold lift. destruct (contar_result (x_finished x1) 0 0 (x_world x1)) as (w1 & -> & _).
  intros [= <- <-]. simpl. split; [|reflexivity].
  eapply wait_all_drains. exact E.
Qed.

(** The [with] block of [converter_heic]: every task it submits is run once
    before the block is left, and the tallies count the outcomes. *)
Lemma with_corpo final sched q ss pr ot mm ow f dest ficheiros w r w' :
  with_executor final (corpo sched q ss pr ot mm ow f dest ficheiros) w = (r, w') ->
  exists evs,
    w_log w' = (w_log w ++ evs)%list
    /\ Permutation (submitted evs) (map fst (completed evs))
    /\ match r with
       | Ok (c, e) =>
           c = List.length (filter succeeded (completed evs))
           /\ e = List.length (filter failed (completed evs))
       | Raise _ => True
       end.
Proof.
  unfold with_executor.
  set (x0 := {| x_world := w; x_pending := []; x_finished := [] |}).
  destruct (corpo _ _ _ _ _ _ _ _ _ _ x0) as [rx x] eqn:Eb.
  destruct (wait_all final x) as [u x'] eqn:Ew. intros [= <- <-].
  assert (A0 : acct (w_log w) x0).
  { exists []. simpl. rewrite app_nil_r. repeat split. constructor. }
  assert (A1 : acct (w_log w) x).
  { revert Eb. unfold corpo. eapply keeps_bind; [apply acct_submeter| |exact A0].
    intros _. unfold as_completed. apply keeps_bind; [apply acct_wait_all|].
    intros _ y ry y' Hy. apply acct_lift; [|exact Hy].
    intros s rs s' Hs.
    destruct (contar_result (x_finished y) 0 0 s) as (s1 & E1 & H1). congruence. }
  assert (A2 : acct (w_log w) x') by (eapply acct_wait_all; eassumption).
  assert (P2 := wait_all_drains _ _ _ _ Ew).
  destruct A2 as (evs & Hl & Hp & Hc). exists evs. split; [exact Hl|].
  rewrite P2, app_nil_r, <- Hc in Hp. split; [exact Hp|].
  destruct rx as [[c e]|ex]; [|exact I].
  unfold corpo in Eb. apply bind_inv in Eb.
  destruct Eb as [(u1 & x1 & _ & Ea)|(ex & _ & ?)]; [|discriminate].
  apply as_completed_result in Ea. destruct Ea as [Hpx Hr].
  rewrite (wait_all_idle _ _ Hpx) in Ew. inversion Ew; subst x'.
  rewrite Hc. now inversion Hr.
Qed.

(** ** The stages of a run *)

Lemma aviso_ok q f w : exists w1, aviso q f w = (Ok tt, w1).
Proof. unfold aviso. destruct (_ && _); unfold print, emit, ret; eauto. Qed.

Lemma anuncio_ok n po pd f q ss pr ot mm rec ow th w :
  exists w1, anuncio n po pd f q ss pr ot mm rec ow th w = (Ok tt, w1).
Proof. unfold anuncio, bind, OS.cpu_count, print, emit. eauto. Qed.

Lemma resumo_ok t w : exists w1, resumo t w = (Ok tt, w1).
Proof. unfold resumo, bind, print, emit. eauto. Qed.

Lemma aviso_cwd q f w w1 : aviso q f w = (Ok tt, w1) -> w_cwd w1 = w_cwd w.
Proof.
  unfold aviso. destruct (_ && _); unfold print, emit, ret; now intros [= <-].
Qed.

Lemma converter_heic_run sched po pd q ss pr ot mm rec ow fmt th w r w' :
  converter_heic sched po pd q ss pr ot mm rec ow fmt th w = (r, w') ->
  run sched po pd q ss pr ot mm rec ow fmt th w r w'.
Proof.
  unfold converter_heic. unfold bind at 1. unfold OS.path_isdir at 1.
  destruct (FS.is_dir (FS.stat (w_cwd w) (w_fs w) po)) eqn:Ed; cbn [negb].
  2:{ intros [= <- <-]. now constructor. }
  destruct (existsb (String.eqb (Str.lower fmt)) ["jpeg"; "png"]) eqn:Ef;
    cbn [negb].
  2:{ intros [= <- <-]. now constructor. }
  fold (aviso q (Str.lower fmt)).
  destruct (aviso_ok q (Str.lower fmt) w) as (w1 & Ea).
  unfold bind at 1. rewrite Ea.
  unfold bind at 1. unfold OS.path_abspath at 1.
  unfold bind at 1. unfold OS.path_abspath at 1.
  intros H. eapply run_started; eauto. clear Ea Ed Ef. revert H.
  unfold bind at 1.
  destruct (OS.makedirs _ w1) as [[[]|e] w2] eqn:Em.
  2:{ intros [= <- <-]. now constructor. }
  unfold bind at 1.
  destruct (_listar_ficheiros_heic _ rec w2) as [[fich|e] w3] eqn:El.
  2:{ intros [= <- <-]. eapply run_no_listing; eauto. }
  destruct fich as [|f0 rest].
  - simpl. unfold bind, print, emit, ret. intros [= <- <-].
    eapply run_empty; eauto.
  - set (fich := f0 :: rest) in *.
    assert (Hne : fich <> []) by discriminate.
    replace (Nat.eqb (List.length fich) 0) with false by reflexivity.
    destruct (anuncio_ok (List.length fich) po pd (Str.lower fmt) q ss pr ot mm
                         rec ow th w3) as (w4 & Ean).
    intros H.
    assert (H' : bind (with_executor (sched (2 * List.length fich + 1))
                        (corpo sched q ss pr ot mm ow (Str.lower fmt)
                               (Posixpath.abspath (w_cwd w1) pd) fich))
                      (fun t => bind (resumo t) (fun _ => ret t)) w4 = (r, w')).
    { rewrite <- H. unfold anuncio, bind, OS.cpu_count, print, emit in Ean.
      inversion Ean; subst w4. reflexivity. }
    clear H. apply bind_inv in H'.
    destruct H' as [(t & w5 & Hw & Hr)|(e & Hw & ->)].
    + destruct (resumo_ok t w5) as (w6 & Er).
      unfold bind in Hr. rewrite Er in Hr. inversion Hr; subst.
      eapply run_done; eauto.
    + eapply run_aborted; eauto.
Qed.

(** ** Tallies *)

Lemma tallied_before ok w w1 r w' :
  wstep ok w w1 -> tallied w1 r w' -> tallied w r w'.
Proof.
  intros (_ & (e1 & H1 & F1) & _) (evs & Hl & Hp & Hr).
  exists (e1 ++ evs)%list. rewrite Hl, H1, app_assoc.
  rewrite submitted_app, completed_app.
  rewrite (submitted_plain _ F1), (completed_plain _ F1). auto.
Qed.

Lemma tallied_after ok w w1 r w' :
  tallied w r w1 -> wstep ok w1 w' -> tallied w r w'.
Proof.
  intros (evs & Hl & Hp & Hr) (_ & (e1 & H1 & F1) & _).
  exists (evs ++ e1)%list. rewrite H1, Hl, app_assoc.
  rewrite submitted_app, completed_app.
  rewrite (submitted_plain _ F1), (completed_plain _ F1), !app_nil_r. auto.
Qed.

Lemma tallied_plain ok w r w' :
  wstep ok w w' ->
  match r with Ok t => t = (0, 0) | Raise _ => True end ->
  tallied w r w'.
Proof.
  intros (_ & (e1 & H1 & F1) & _) Hr. exists e1.
  rewrite (submitted_plain _ F1), (completed_plain _ F1).
  repeat split; auto. destruct r as [[c e]|]; [|exact I]. now inversion Hr.
Qed.

Lemma wstep_any_makedirs p : pres (wstep ok_any) (OS.makedirs p).
Proof. apply wstep_makedirs; [exact ok_any_stable | reflexivity]. Qed.

Lemma wstep_aviso ok q f : pres (wstep ok) (aviso q f).
Proof.
  unfold aviso. destruct (_ && _).
  - now apply wstep_emit.
  - apply pres_ret, wstep_refl.
Qed.

Lemma wstep_anuncio ok n po pd f q ss pr ot mm rec ow th :
  pres (wstep ok) (anuncio n po pd f q ss pr ot mm rec ow th).
Proof.
  intros w r w'. unfold anuncio, bind, OS.cpu_count, print, emit. intros [= _ <-].
  repeat split; simpl; auto using grow_refl.
  eexists [_; _]. split; [now rewrite <- app_assoc|]. repeat constructor.
Qed.

Lemma wstep_resumo ok t : pres (wstep ok) (resumo t).
Proof.
  intros w r w'. unfold resumo, bind, print, emit. intros [= _ <-].
  repeat split; simpl; auto using grow_refl.
  eexists [_; _; _]. split; [now rewrite <- !app_assoc|]. repeat constructor.
Qed.

Lemma run_batch_tallied sched po pd q ss pr ot mm rec ow f th w r w' :
  run_batch sched po pd q ss pr ot mm rec ow f th w r w' -> tallied w r w'.
Proof.
  intros [e w2 Hm|w2 e w3 Hm Hl|w2 w3 w4 Hm Hl Hp
          |w2 fich w3 w4 e w5 Hm Hl Hne Ha Hw
          |w2 fich w3 w4 t w5 w6 Hm Hl Hne Ha Hw Hr].
  - eapply tallied_plain; [eapply wstep_any_makedirs, Hm|exact I].
  - eapply tallied_plain; [|exact I].
    eapply wstep_trans; [exact ok_any_stable|eapply wstep_any_makedirs, Hm|].
    eapply wstep_listar, Hl. exact ok_any_stable.
  - eapply tallied_plain; [|reflexivity].
    eapply wstep_trans; [exact ok_any_stable|eapply wstep_any_makedirs, Hm|].
    eapply wstep_trans; [exact ok_any_stable|eapply wstep_listar, Hl; exact ok_any_stable|].
    eapply (wstep_print ok_any), Hp.
  - eapply tallied_before; [eapply wstep_any_makedirs, Hm|].
    eapply tallied_before; [eapply wstep_listar, Hl; exact ok_any_stable|].
    eapply tallied_before; [eapply (wstep_anuncio ok_any), Ha|].
    eapply with_corpo, Hw.
  - eapply tallied_before; [eapply wstep_any_makedirs, Hm|].
    eapply tallied_before; [eapply wstep_listar, Hl; exact ok_any_stable|].
    eapply tallied_before; [eapply (wstep_anuncio ok_any), Ha|].
    eapply tallied_after; [|eapply (wstep_resumo ok_any), Hr].
    eapply with_corpo, Hw.
Qed.

Lemma run_tallied sched po pd q ss pr ot mm rec ow fmt th w r w' :
  run sched po pd q ss pr ot mm rec ow fmt th w r w' -> tallied w r w'.
Proof.
  intros [Hd|Hd Hf|w1 r1 w1' Hd Hf Ha Hb].
  - eapply tallied_plain; [apply (wstep_refl ok_any)|exact I].
  - eapply tallied_plain; [apply (wstep_refl ok_any)|exact I].
  - eapply tallied_before; [eapply (wstep_aviso ok_any), Ha|].
    eapply run_batch_tallied, Hb.
Qed.

Lemma filter_split_length {A} (f : A -> bool) l :
  List.length (filter f l) + List.length (filter (fun x => negb (f x)) l)
  = List.length l.
Proof.
  induction l as [|a l IH]; simpl; [reflexivity|].
  destruct (f a); simpl; lia.
Qed.

(** C8. For every batch run and every scheduling of the pool: the tasks
    completed are the tasks submitted, each exactly once (none is retried or
    left unfinished when the run returns); and when the run returns
    tallies, [convertidos] counts the completions that succeeded, [erros]
    those that failed, so that their sum is the number of submitted
    tasks. *)
Theorem C8_tallies_cover_submitted_tasks
        sched pasta_origem pasta_destino qualidade subsampling progressivo
        otimizar manter_metadata recursivo overwrite formato threads w :
  let (r, w') := converter_heic sched pasta_origem pasta_destino qualidade
                                subsampling progressivo otimizar
                                manter_metadata recursivo overwrite formato
                                threads w in
  let evs := news w w' in
  w_log w' = (w_log w ++ evs)%list
  /\ Permutation (submitted evs) (map fst (completed evs))
  /\ match r with
     | Ok (convertidos, erros) =>
         convertidos = List.length (filter succeeded (completed evs))
         /\ erros = List.length (filter failed (completed evs))
         /\ convertidos + erros = List.length (submitted evs)
     | Raise _ => True
     end.
Proof.
  destruct (converter_heic _ _ _ _ _ _ _ _ _ _ _ _ w) as [r w'] eqn:E.
  apply converter_heic_run, run_tallied in E.
  destruct E as (evs & Hl & Hp & Hr). cbv zeta.
  rewrite (news_app _ _ _ Hl). repeat split; auto.
  destruct r as [[c e]|]; [|exact I]. destruct Hr as [-> ->].
  repeat split. unfold failed.
  rewrite (filter_split_length succeeded).
  rewrite (Permutation_length Hp). now rewrite length_map.
Qed.

(** ** Exceptions *)

Lemma raises_ret {S A} P (a : A) : raises P (@ret S A a).
Proof. intros s e s'. discriminate. Qed.

Lemma raises_bind {S A B} P (m : M S A) (k : A -> M S B) :
  raises P m -> (forall a, raises P (k a)) -> raises P (bind m k).
Proof.
  intros Hm Hk s e s' H.
  destruct (bind_inv _ _ _ _ _ H) as [(a & s1 & H1 & H2)|(e' & H1 & [= ->])].
  - eapply Hk, H2.
  - eapply Hm, H1.
Qed.

Lemma raises_never {S A} P (m : M S A) :
  (forall s, exists a s', m s = (Ok a, s')) -> raises P m.
Proof. intros H s e s' E. destruct (H s) as (a & s1 & E1). congruence. Qed.

Lemma raises_lift {A} P (m : M world A) : raises P m -> raises P (lift m).
Proof.
  intros Hm x e x'. unfold lift. destruct (m (x_world x)) as [r w] eqn:E.
  intros [= -> _]. eapply Hm, E.
Qed.

Lemma mkdirs_raises p ns : forall n e, FS.mkdirs p n ns = Raise e -> os_error e.
Proof.
  induction ns as [|x r IH]; intros n e; destruct n as [c|es]; simpl;
    try (intros [= <-]; exact I); try discriminate.
  destruct (FS.mkdirs p _ r) eqn:E; [discriminate|].
  intros [= <-]. eapply IH, E.
Qed.

Lemma makedirs_raises p : raises os_error (OS.makedirs p).
Proof.
  intros w e w'. unfold OS.makedirs.
  destruct (FS.mkdirs p _ _) eqn:E; [discriminate|].
  intros [= <- _]. eapply mkdirs_raises, E.
Qed.

Lemma listar_raises p rec : raises os_error (_listar_ficheiros_heic p rec).
Proof.
  intros w e w'. unfold _listar_ficheiros_heic, bind, OS.path_abspath.
  destruct rec.
  - unfold OS.walk. destruct (FS.stat _ _ _); discriminate.
  - unfold OS.listdir. destruct (FS.stat _ _ _) as [[c|es]|];
      try discriminate; intros [= <- _]; exact I.
Qed.

Lemma destino_raises f dest rel : raises os_error (destino_para f dest rel).
Proof.
  unfold destino_para. destruct (Posixpath.splitext rel).
  apply raises_bind; [apply makedirs_raises|intros _; apply raises_ret].
Qed.

Lemma workers_raises P picks : raises P (workers picks).
Proof.
  apply raises_never. intros x. destruct (workers_ok picks x) as (x' & E). eauto.
Qed.

Lemma submeter_raises sched q ss pr ot mm ow f dest ficheiros : forall i,
  raises os_error (submeter sched q ss pr ot mm ow f dest i ficheiros).
Proof.
  induction ficheiros as [|[a rel] rest IH]; intros i; simpl.
  - apply raises_ret.
  - apply raises_bind; [apply workers_raises|intros _].
    apply raises_bind; [apply raises_lift, destino_raises|intros saida].
    apply raises_bind; [apply workers_raises|intros _].
    apply raises_bind; [apply raises_lift; intros w e w'; discriminate|intros ex].
    apply raises_bind; [|intros _; apply IH].
    destruct (negb ow && ex); [apply raises_ret|].
    intros x e x'. unfold submit. discriminate.
Qed.

Lemma corpo_raises sched q ss pr ot mm ow f dest ficheiros :
  raises os_error (corpo sched q ss pr ot mm ow f dest ficheiros).
Proof.
  unfold corpo. apply raises_bind; [apply submeter_raises|intros _].
  intros x e x' H. apply as_completed_result in H. destruct H as [_ H]. discriminate.
Qed.

Lemma with_executor_raises {A} P final (body : M exec A) :
  raises P body -> raises P (with_executor final body).
Proof.
  intros Hb w e w'. unfold with_executor.
  destruct (body _) as [r x] eqn:E. destruct (wait_all final x) as [u x1].
  intros [= -> _]. eapply Hb, E.
Qed.

Lemma run_batch_raises sched po pd q ss pr ot mm rec ow f th w e w' :
  run_batch sched po pd q ss pr ot mm rec ow f th w (Raise e) w' -> os_error e.
Proof.
  intros H. inversion H; subst.
  - eapply makedirs_raises; eassumption.
  - eapply listar_raises; eassumption.
  - eapply with_executor_raises; [apply corpo_raises|eassumption].
Qed.

(** ** Configuration and precondition failures *)

(** C3. If the source root does not exist or is not a directory, the run
    raises [FileNotFoundError] at once: the world is left as it was, so
    nothing was enumerated, decoded or written. *)
Theorem C3_source_not_a_directory
        sched pasta_origem pasta_destino qualidade subsampling progressivo
        otimizar manter_metadata recursivo overwrite formato threads w :
  FS.is_dir (FS.stat (w_cwd w) (w_fs w) pasta_origem) = false ->
  converter_heic sched pasta_origem pasta_destino qualidade subsampling
                 progressivo otimizar manter_metadata recursivo overwrite
                 formato threads w
  = (Raise (FileNotFoundError pasta_origem), w).
Proof.
  intros H. unfold converter_heic, bind, OS.path_isdir. rewrite H. reflexivity.
Qed.

Lemma C3_source_not_a_directory_witness :
  converter_heic sched_tardio "/s/n.txt" "/out" 95 0 true true true true false
                 "jpeg" None (mundo fs_exemplo)
  = (Raise (FileNotFoundError "/s/n.txt"), mundo fs_exemplo)
  /\ converter_heic sched_tardio "/nada" "/out" 95 0 true true true true false
                    "jpeg" None (mundo fs_exemplo)
     = (Raise (FileNotFoundError "/nada"), mundo fs_exemplo).
Proof.
  split; apply C3_source_not_a_directory; reflexivity.
Defined.

(** C1, as the code has it.  A format that is neither [jpeg] nor [png]
    (in any letter case) is fatal before any file is touched: the run raises
    and leaves the world as it was.  The quality is never validated: with a
    recognised format, no quality value makes the run raise [ValueError]. *)
Theorem C1_bad_format_is_fatal_quality_is_unchecked
        sched pasta_origem pasta_destino qualidade subsampling progressivo
        otimizar manter_metadata recursivo overwrite formato threads w :
  let (r, w') := converter_heic sched pasta_origem pasta_destino qualidade
                                subsampling progressivo otimizar
                                manter_metadata recursivo overwrite formato
                                threads w in
  if existsb (String.eqb (Str.lower formato)) ["jpeg"; "png"]
  then forall msg, r <> Raise (ValueError msg)
  else w' = w /\ exists e, r = Raise e.
Proof.
  destruct (converter_heic _ _ _ _ _ _ _ _ _ _ _ _ w) as [r w'] eqn:E.
  apply converter_heic_run in E.
  destruct E as [Hd|Hd Hf|w1 r1 w1' Hd Hf Ha Hb].
  - destruct (existsb _ _); [discriminate|eauto].
  - rewrite Hf. eauto.
  - rewrite Hf. intros msg ->. apply run_batch_raises in Hb. exact Hb.
Qed.

(** C1 as stated fails: a quality of 0 with [jpeg] is not rejected; the
    batch creates the destination, enumerates the source, decodes and
    writes. *)
Lemma C1_quality_out_of_range_is_accepted :
  let (r, w') := converter_heic sched_tardio "/s" "/out" 0 0 true true true
                                false false "jpeg" None
                                (mundo (Dir [("s", Dir [("a.heic", File (foto 1))])])) in
  r = Ok (1, 0)
  /\ In (EvMakedirs "/out") (w_log w')
  /\ In (EvListdir "/s") (w_log w')
  /\ In (EvOpen "/s/a.heic") (w_log w')
  /\ FS.stat "/" (w_fs w') "/out/a.jpg" <> None.
Proof.
  vm_compute. repeat split; auto 10; discriminate.
Qed.

(** ** The submission loop *)

Lemma destino_value f dest rel w s w' :
  destino_para f dest rel w = (Ok s, w') -> s = saida_de f dest rel.
Proof.
  unfold destino_para, saida_de. destruct (Posixpath.splitext rel) as [b e].
  intros H. apply bind_inv in H.
  destruct H as [(u & w1 & _ & [= <- _])|(e' & _ & ?)]; [reflexivity|discriminate].
Qed.

Lemma Forall_cut {A} (P : A -> Prop) k : forall l,
  Forall P l -> Forall P (firstn k l ++ skipn (S k) l)%list.
Proof.
  induction k as [|k IH]; intros l H; destruct H as [|a l Ha Hl]; simpl; auto.
Qed.

Section Loop.

Variable ok : string -> node -> bool.
Hypothesis ok_stable :
  forall x n n', ok x n = true -> grow ok n n' -> ok x n' = true.
Variable P : task -> Prop.
Hypothesis P_writes : forall t, P t -> writes_ok ok t.
Variable w0 : world.

Lemma xinv_start : xinv ok P w0 {| x_world := w0; x_pending := []; x_finished := [] |}.
Proof.
  repeat split; simpl; auto using grow_refl.
  exists []. rewrite app_nil_r. split; [reflexivity|constructor].
Qed.

(** A step of the world inside the block. *)
Lemma xinv_world x w' pend fin :
  xinv ok P w0 x -> wstep ok (x_world x) w' -> Forall P pend ->
  xinv ok P w0 {| x_world := w'; x_pending := pend; x_finished := fin |}.
Proof.
  intros ((E1 & E2) & G & (evs & Hl & Hs) & Hp) ((E1' & E2') & (e1 & H1 & F1) & G') Hpend.
  split; [split; simpl; congruence|].
  split; [eapply grow_trans; eassumption|].
  split; [|exact Hpend].
  exists (evs ++ e1)%list. simpl. rewrite H1, Hl, app_assoc. split; [reflexivity|].
  now rewrite submitted_app, (submitted_plain _ F1), app_nil_r.
Qed.

Lemma xinv_lift {A} (m : M world A) x r x' :
  xinv ok P w0 x ->
  (forall r1 w1, m (x_world x) = (r1, w1) -> wstep ok (x_world x) w1) ->
  lift m x = (r, x') -> xinv ok P w0 x'.
Proof.
  intros Hx Hm. unfold lift. destruct (m (x_world x)) as [r1 w1] eqn:E.
  intros [= _ <-]. eapply xinv_world; eauto. apply Hx.
Qed.

Lemma xinv_submit t x r x' :
  xinv ok P w0 x -> P t -> submit t x = (r, x') -> xinv ok P w0 x'.
Proof.
  intros ((E1 & E2) & G & (evs & Hl & Hs) & Hp) Ht. unfold submit. simpl.
  intros [= _ <-].
  split; [split; assumption|]. split; [exact G|]. simpl. split.
  - exists (evs ++ [EvSubmit t])%list. rewrite Hl, app_assoc. split; [reflexivity|].
    rewrite submitted_app. apply Forall_app. split; [exact Hs|]. now repeat constructor.
  - apply Forall_app. split; [exact Hp|]. now repeat constructor.
Qed.

Lemma xinv_complete k : keeps (xinv ok P w0) (complete k).
Proof.
  intros x r x' Hx. unfold complete.
  destruct (nth_error (x_pending x) k) as [t|] eqn:En; [|now intros [= _ <-]].
  destruct (run_task t (x_world x)) as [r1 w1] eqn:E. simpl. intros [= _ <-].
  assert (Hp : Forall P (x_pending x)) by apply Hx.
  assert (Ht : P t).
  { rewrite Forall_forall in Hp. eapply Hp, nth_error_In, En. }
  assert (S1 : wstep ok (x_world x) w1).
  { eapply wstep_salvar; [exact ok_stable| |exact E]. apply (P_writes _ Ht). }
  destruct Hx as ((E1 & E2) & G & (evs & Hl & Hs) & _).
  destruct S1 as ((E1' & E2') & (e1 & H1 & F1) & G').
  split; [split; simpl; congruence|].
  split; [eapply grow_trans; eassumption|]. simpl. split.
  - exists (evs ++ e1 ++ [EvDone t r1])%list. rewrite H1, Hl, <- !app_assoc.
    split; [reflexivity|].
    rewrite !submitted_app, (submitted_plain _ F1). simpl. now rewrite app_nil_r.
  - now apply Forall_cut.
Qed.

Lemma xinv_workers picks : keeps (xinv ok P w0) (workers picks).
Proof.
  induction picks as [|k r IH]; simpl.
  - apply keeps_ret.
  - apply keeps_bind; auto using xinv_complete.
Qed.

Lemma xinv_wait_all picks : keeps (xinv ok P w0) (wait_all picks).
Proof.
  unfold wait_all. apply keeps_bind; [apply xinv_workers|].
  intros _ x r x' Hx. generalize (List.length (x_pending x)). intros n.
  revert x r x' Hx. fold (keeps (xinv ok P w0) (run_all n)).
  induction n as [|n IH]; simpl.
  - apply keeps_ret.
  - apply keeps_bind; auto using xinv_complete.
Qed.

Lemma xinv_as_completed sched n : keeps (xinv ok P w0) (as_completed sched n).
Proof.
  unfold as_completed. apply keeps_bind; [apply xinv_wait_all|].
  intros _ x r x' Hx H. eapply xinv_lift; [exact Hx| |exact H].
  intros r1 w1. apply wstep_contar. exact ok_stable.
Qed.

Variables (sched : scheduler) (q ss : Z) (pr ot mm ow : bool) (f dest : string).

(** The files of the loop: for each, [destino_para] is a step of the
    world, and the task built for it satisfies [P] when the check of
    line 145 lets it through. *)
Variable R : string -> Prop.
Hypothesis destino_step :
  forall rel x r w', R rel -> xinv ok P w0 x ->
    destino_para f dest rel (x_world x) = (r, w') -> wstep ok (x_world x) w'.
Hypothesis P_task :
  forall a rel x, R rel -> xinv ok P w0 x ->
    negb ow && (match FS.stat (w_cwd (x_world x)) (w_fs (x_world x))
                              (saida_de f dest rel) with
                | Some _ => true
                | None => false
                end) = false ->
    P (mkTask a (saida_de f dest rel) f q ss pr ot mm).

Lemma xinv_submeter ficheiros : forall i,
  Forall (fun fr => R (snd fr)) ficheiros ->
  keeps (xinv ok P w0) (submeter sched q ss pr ot mm ow f dest i ficheiros).
Proof.
  induction ficheiros as [|[a rel] rest IH]; intros i HR; simpl.
  - apply keeps_ret.
  - inversion HR as [|? ? Hrel Hrest]; subst. simpl in Hrel.
    apply keeps_bind; [apply xinv_workers|intros _].
    intros x r x' Hx H. apply bind_inv in H.
    destruct H as [(saida & x1 & H1 & H2)|(e & H1 & _)].
    2:{ eapply xinv_lift; [exact Hx| |exact H1]. intros; eapply destino_step; eauto. }
    assert (Hx1 : xinv ok P w0 x1).
    { eapply xinv_lift; [exact Hx| |exact H1]. intros; eapply destino_step; eauto. }
    assert (Hs : saida = saida_de f dest rel).
    { unfold lift in H1. destruct (destino_para _ _ _ _) as [r1 w1] eqn:E.
      inversion H1; subst. eapply destino_value, E. }
    subst saida. clear H1 Hx x. revert H2.
    match goal with
    | |- ?m ?s = _ -> _ => apply (fun K : keeps (xinv ok P w0) m => K s r x')
    end; [|exact Hx1].
    apply keeps_bind; [apply xinv_workers|intros _].
    clear x1 Hx1 r x'. intros x1 r x' Hx1. unfold bind at 1.
    destruct x1 as [w1 p1 f1]. unfold lift at 1, OS.path_exists at 1.
    cbn [x_world x_pending x_finished].
    assert (Ht := fun a => P_task a rel _ Hrel Hx1). cbn [x_world] in Ht.
    destruct (negb ow && _) eqn:Ec.
    + unfold bind at 1, ret at 1. eapply IH; eassumption.
    + intros H. apply bind_inv in H.
      destruct H as [(u & x2 & H1 & H2)|(e & H1 & _)].
      * eapply IH; [exact Hrest| |exact H2].
        eapply xinv_submit; [exact Hx1| |exact H1]. apply Ht. reflexivity.
      * unfold submit in H1. discriminate.
Qed.

Lemma xinv_corpo final ficheiros r w' :
  Forall (fun fr => R (snd fr)) ficheiros ->
  with_executor final (corpo sched q ss pr ot mm ow f dest ficheiros) w0 = (r, w') ->
  same_env w0 w'
  /\ grow ok (w_fs w0) (w_fs w')
  /\ exists evs, w_log w' = (w_log w0 ++ evs)%list /\ Forall P (submitted evs).
Proof.
  intros HR. unfold with_executor.
  destruct (corpo _ _ _ _ _ _ _ _ _ _ _) as [rx x] eqn:Eb.
  destruct (wait_all final x) as [u x'] eqn:Ew. intros [= _ <-].
  assert (Hx : xinv ok P w0 x).
  { revert Eb. unfold corpo.
    eapply keeps_bind; [now apply xinv_submeter| |apply xinv_start].
    intros _. apply xinv_as_completed. }
  assert (Hx' : xinv ok P w0 x') by (eapply xinv_wait_all; eassumption).
  destruct Hx' as (E & G & L & _). auto.
Qed.

End Loop.

(** ** What is submitted *)

Lemma subs_trans P a b c : subs P a b -> subs P b c -> subs P a c.
Proof.
  intros (e1 & H1 & F1) (e2 & H2 & F2). exists (e1 ++ e2)%list.
  rewrite H2, H1, app_assoc. split; [reflexivity|].
  rewrite submitted_app. now apply Forall_app.
Qed.

Lemma wstep_subs ok P w w' : wstep ok w w' -> subs P w w'.
Proof.
  intros (_ & (evs & H & F) & _). exists evs. split; [exact H|].
  rewrite (submitted_plain _ F). constructor.
Qed.

Lemma subs_news P w w' : subs P w w' -> Forall P (submitted (news w w')).
Proof. intros (evs & H & F). now rewrite (news_app _ _ _ H). Qed.

(** The tasks of a batch are those of its [with] block. *)
Lemma run_batch_subs P sched po pd q ss pr ot mm rec ow f th w1 r w' :
  run_batch sched po pd q ss pr ot mm rec ow f th w1 r w' ->
  (forall w2 fich w3 w4 r5 w5,
      OS.makedirs (Posixpath.abspath (w_cwd w1) pd) w1 = (Ok tt, w2) ->
      _listar_ficheiros_heic (Posixpath.abspath (w_cwd w1) po) rec w2
      = (Ok fich, w3) ->
      wstep ok_any w1 w4 ->
      with_executor (sched (2 * List.length fich + 1))
                    (corpo sched q ss pr ot mm ow f
                           (Posixpath.abspath (w_cwd w1) pd) fich) w4
      = (r5, w5) ->
      subs P w4 w5) ->
  subs P w1 w'.
Proof.
  intros H Hw.
  assert (T := wstep_trans ok_any ok_any_stable).
  destruct H as [e w2 Hm|w2 e w3 Hm Hl|w2 w3 w4 Hm Hl Hp
          |w2 fich w3 w4 e w5 Hm Hl Hne Ha Hx
          |w2 fich w3 w4 t w5 w6 Hm Hl Hne Ha Hx Hr].
  - eapply wstep_subs, wstep_any_makedirs, Hm.
  - eapply (wstep_subs ok_any), T; [eapply wstep_any_makedirs, Hm|].
    eapply wstep_listar, Hl. exact ok_any_stable.
  - eapply (wstep_subs ok_any), T; [eapply wstep_any_makedirs, Hm|].
    eapply T; [eapply wstep_listar, Hl; exact ok_any_stable|].
    eapply (wstep_print ok_any), Hp.
  - assert (S4 : wstep ok_any w1 w4).
    { eapply T; [eapply wstep_any_makedirs, Hm|].
      eapply T; [eapply wstep_listar, Hl; exact ok_any_stable|].
      eapply (wstep_anuncio ok_any), Ha. }
    eapply subs_trans; [eapply wstep_subs, S4|]. eapply Hw; eauto.
  - assert (S4 : wstep ok_any w1 w4).
    { eapply T; [eapply wstep_any_makedirs, Hm|].
      eapply T; [eapply wstep_listar, Hl; exact ok_any_stable|].
      eapply (wstep_anuncio ok_any), Ha. }
    eapply subs_trans; [eapply wstep_subs, S4|].
    eapply subs_trans; [eapply Hw; eauto|].
    eapply wstep_subs, (wstep_resumo ok_any), Hr.
Qed.

Lemma run_subs P sched po pd q ss pr ot mm rec ow fmt th w r w' :
  run sched po pd q ss pr ot mm rec ow fmt th w r w' ->
  (forall w1 w2 fich w3 w4 r5 w5,
      wstep ok_any w w1 ->
      OS.makedirs (Posixpath.abspath (w_cwd w1) pd) w1 = (Ok tt, w2) ->
      _listar_ficheiros_heic (Posixpath.abspath (w_cwd w1) po) rec w2
      = (Ok fich, w3) ->
      wstep ok_any w w4 ->
      with_executor (sched (2 * List.length fich + 1))
                    (corpo sched q ss pr ot mm ow (Str.lower fmt)
                           (Posixpath.abspath (w_cwd w1) pd) fich) w4
      = (r5, w5) ->
      subs P w4 w5) ->
  subs P w w'.
Proof.
  intros [Hd|Hd Hf|w1 r1 w1' Hd Hf Ha Hb] Hw.
  - apply (wstep_subs ok_any), wstep_refl.
  - apply (wstep_subs ok_any), wstep_refl.
  - assert (S1 := wstep_aviso ok_any _ _ _ _ _ Ha).
    eapply subs_trans; [eapply wstep_subs, S1|].
    eapply run_batch_subs; [exact Hb|].
    intros w2 fich w3 w4 r5 w5 Hm Hl S4 Hx.
    eapply Hw; eauto. eapply wstep_trans; eauto using ok_any_stable.
Qed.

(** ** The format *)



Example formato_em_maiusculas :
  fst (converter_heic sched_tardio "/s" "/out" 95 0 true true true true false
                      "JPEG" None (mundo fs_exemplo)) = Ok (2, 1)
  /\ fst (converter_heic sched_tardio "/s" "/out" 95 0 true true true true false
                         "Png" None (mundo fs_exemplo)) = Ok (2, 1)
  /\ saida_de (Str.lower "JPEG") "/out" "sub/b.HEIF" = "/out/sub/b.jpg"
  /\ saida_de (Str.lower "Png") "/out" "sub/b.HEIF" = "/out/sub/b.png".
Proof. vm_compute. auto. Qed.

(** ** Format isolation *)

Lemma news_self w : news w w = [].
Proof. apply news_app. now rewrite app_nil_r. Qed.

Lemma encode_isolated im params c :
  PIL.encode im params = Ok c ->
  match c with
  | Png out => p_format params = "PNG" /\ im_exif out = p_exif params
               /\ im_mode out = im_mode im
  | Jpeg f => p_format params = "JPEG" /\ im_mode (jf_image f) = im_mode im
  | _ => False
  end.
Proof.
  unfold PIL.encode.
  destruct (String.eqb (p_format params) "JPEG") eqn:Ej.
  - apply String.eqb_eq in Ej. destruct (PIL.jpeg_writes _); [|discriminate].
    intros [= <-]. auto.
  - destruct (String.eqb (p_format params) "PNG") eqn:Ep; [|discriminate].
    apply String.eqb_eq in Ep. destruct (PIL.png_writes _); [|discriminate].
    intros [= <-]. auto.
Qed.

Lemma save_news im p params w r w' :
  Image.save im p params w = (r, w') ->
  news w w' = [] \/ exists c, PIL.encode im params = Ok c /\ news w w' = [EvSave p c].
Proof.
  unfold Image.save. destruct (PIL.encode im params) as [c|e] eqn:Ee.
  2:{ intros [= _ <-]. left. apply news_self. }
  unfold OS.write_file. destruct (Posixpath.split_raw p) as [head name].
  destruct (OS.bad_name name); [intros [= _ <-]; left; apply news_self|].
  destruct (FS.resolve _ _ _) as [ns|]; [|intros [= _ <-]; left; apply news_self].
  destruct (FS.lookup _ ns) as [[c0|es]|];
    try (intros [= _ <-]; left; apply news_self).
  destruct (FS.assoc name es) as [[c0|?]|];
    try (intros [= _ <-]; left; apply news_self);
    unfold emit; simpl; intros [= _ <-]; right; exists c; split; auto;
    now apply news_app.
Qed.

(** C6. Whatever the input and the options, a file [_salvar_imagem]
    writes for [png] is a PNG that embeds no EXIF blob, also when metadata is
    kept; a file it writes for [jpeg] is a JPEG of an image in mode RGB,
    which has no alpha channel. *)
Theorem C6_format_isolation
        caminho_entrada caminho_saida formato qualidade subsampling
        progressivo otimizar manter_metadata w :
  let (r, w') := _salvar_imagem caminho_entrada caminho_saida formato qualidade
                                subsampling progressivo otimizar
                                manter_metadata w in
  Forall (fun ev =>
            match ev with
            | EvSave p c =>
                p = caminho_saida
                /\ (if String.eqb formato "png"
                    then exists im, c = Png im /\ im_exif im = None
                    else if String.eqb formato "jpeg"
                         then exists f, c = Jpeg f
                                        /\ im_mode (jf_image f) = ModeRGB
                                        /\ has_alpha (im_mode (jf_image f)) = false
                         else False)
            | _ => True
            end) (news w w').
Proof.
  destruct (_salvar_imagem _ _ _ _ _ _ _ _ w) as [r w'] eqn:E.
  unfold _salvar_imagem in E. apply bind_inv in E.
  destruct E as [(im & w1 & Ho & Hs)|(e & Ho & _)].
  - assert (Hn : news w w1 = [EvOpen caminho_entrada] /\ exists l, w_log w1 = (w_log w ++ l)%list).
    { unfold Image.open in Ho.
      destruct (FS.stat _ _ _) as [[c|?]|]; try discriminate.
      destruct (PIL.decode c); [|discriminate].
      unfold bind, emit, ret in Ho. inversion Ho; subst. simpl.
      split; [now apply news_app|eauto]. }
    destruct Hn as [Hn (l & Hl)]. rewrite (news_app _ _ _ Hl) in Hn. subst l.
    cbv zeta in Hs.
    assert (K : forall im' params,
               Image.save im' caminho_saida params w1 = (r, w') ->
               (forall c, PIL.encode im' params = Ok c ->
                          if String.eqb formato "png"
                          then exists im, c = Png im /\ im_exif im = None
                          else if String.eqb formato "jpeg"
                               then exists f, c = Jpeg f
                                              /\ im_mode (jf_image f) = ModeRGB
                                              /\ has_alpha (im_mode (jf_image f)) = false
                               else False) ->
               Forall (fun ev =>
                 match ev with
                 | EvSave p c =>
                     p = caminho_saida
                     /\ (if String.eqb formato "png"
                         then exists im, c = Png im /\ im_exif im = None
                         else if String.eqb formato "jpeg"
                              then exists f, c = Jpeg f
                                             /\ im_mode (jf_image f) = ModeRGB
                                             /\ has_alpha (im_mode (jf_image f)) = false
                              else False)
                 | _ => True
                 end) (news w w')).
    { intros im' params Hsv Hc.
      assert (Hl' : exists l, w_log w' = (w_log w1 ++ l)%list /\ news w1 w' = l).
      { destruct (wstep_save ok_any ok_any_stable im' caminho_saida params
                             (fun _ => eq_refl) _ _ _ Hsv)
          as (_ & (l & Hl' & _) & _).
        exists l. split; [exact Hl'|now apply news_app]. }
      destruct Hl' as (l & Hl' & Hnl).
      rewrite (news_app w w' ([EvOpen caminho_entrada] ++ l)%list)
        by (rewrite Hl', Hl; now rewrite <- app_assoc).
      constructor; [exact I|].
      destruct (save_news _ _ _ _ _ _ Hsv) as [Hn|(c & Hec & Hn)];
        rewrite Hn in Hnl; subst l; [constructor|].
      constructor; [|constructor]. split; [reflexivity|]. now apply Hc. }
    destruct (String.eqb formato "jpeg") eqn:Ej.
    + apply String.eqb_eq in Ej. subst formato. eapply K; [exact Hs|].
      intros c Hc. apply encode_isolated in Hc. simpl.
      destruct c as [|f|out|]; try tauto.
      * destruct Hc as [_ Hm]. exists f. simpl in Hm. rewrite Hm. auto.
      * destruct Hc as [Hf _]. exfalso. revert Hf.
        repeat (destruct (truthy _)); discriminate.
    + destruct (String.eqb formato "png") eqn:Ep.
      * eapply K; [exact Hs|]. intros c Hc. apply encode_isolated in Hc.
        destruct c as [|f|out|]; try tauto.
        { destruct Hc as [Hf _]. exfalso. revert Hf.
          destruct (truthy _); discriminate. }
        destruct Hc as (_ & He & _). exists out. split; [reflexivity|].
        rewrite He. destruct (truthy _); reflexivity.
      * unfold raise in Hs. inversion Hs; subst.
        rewrite (news_app w w' [EvOpen caminho_entrada]) by exact Hl.
        repeat constructor.
  - assert (w' = w).
    { unfold Image.open in Ho.
      destruct (FS.stat _ _ _) as [[c|?]|]; try (now inversion Ho).
      destruct (PIL.decode c); [|now inversion Ho].
      unfold bind, emit, ret in Ho. discriminate. }
    subst. rewrite news_self. constructor.
Qed.

(** ** The enumerator on a directory named like a picture *)

(** C2 at its failing input: without recursion the enumerator yields the
    directory [/s/album.heic], which is not a file; with recursion it does
    not. *)
Lemma C2_nonrecursive_yields_directory :
  fst (_listar_ficheiros_heic "/s" false (mundo fs_exemplo))
  = Ok [("/s/a.heic", "a.heic"); ("/s/album.heic", "album.heic")]
  /\ FS.stat "/" fs_exemplo "/s/album.heic" = Some (Dir [])
  /\ fst (_listar_ficheiros_heic "/s" true (mundo fs_exemplo))
     = Ok [("/s/a.heic", "a.heic"); ("/s/sub/b.HEIF", "sub/b.HEIF");
           ("/s/sub/bad.heic", "sub/bad.heic")].
Proof. vm_compute. auto. Qed.

(** ** Strings and paths *)

Lemma append_nil_r s : s ++ "" = s.
Proof. induction s; simpl; congruence. Qed.

Lemma append_assoc (a b c : string) : (a ++ b) ++ c = a ++ (b ++ c).
Proof. induction a; simpl; congruence. Qed.

Lemma has_app c a b : Str.has c (a ++ b) = Str.has c a || Str.has c b.
Proof.
  induction a as [|x a IH]; simpl; [reflexivity|].
  now rewrite IH, orb_assoc.
Qed.

Lemma split_not_nil c s : Str.split c s <> [].
Proof.
  destruct s as [|a s]; simpl; [discriminate|].
  destruct (Ascii.eqb a c); [discriminate|].
  destruct (Str.split c s); discriminate.
Qed.

Lemma split_app_sep c a b :
  Str.split c (a ++ String c b) = (Str.split c a ++ Str.split c b)%list.
Proof.
  induction a as [|x a IH]; simpl.
  - now rewrite Ascii.eqb_refl.
  - destruct (Ascii.eqb x c); [now rewrite IH|].
    rewrite IH. destruct (Str.split c a) eqn:E; [|reflexivity].
    now apply split_not_nil in E.
Qed.

Lemma split_nosep c s : Str.has c s = false -> Str.split c s = [s].
Proof.
  induction s as [|x s IH]; simpl; [reflexivity|].
  intros H. apply orb_false_elim in H. destruct H as [H1 H2].
  rewrite H1, (IH H2). reflexivity.
Qed.

Lemma split_parts c s : Forall (fun x => Str.has c x = false) (Str.split c s).
Proof.
  induction s as [|x s IH]; simpl; [repeat constructor|].
  destruct (Ascii.eqb x c) eqn:E; [now constructor|].
  destruct (Str.split c s) as [|y ys]; [repeat constructor; simpl; now rewrite E|].
  inversion IH; subst. constructor; [simpl; now rewrite E|assumption].
Qed.

Lemma rcut_none c s : Str.has c s = false -> Str.rcut c s = None.
Proof.
  induction s as [|x s IH]; simpl; [reflexivity|].
  intros H. apply orb_false_elim in H. destruct H as [H1 H2].
  now rewrite (IH H2), H1.
Qed.

Lemma rcut_app_l c a b p q :
  Str.rcut c b = Some (p, q) -> Str.rcut c (a ++ b) = Some (a ++ p, q).
Proof. intros H. induction a as [|x a IH]; simpl; [exact H|]. now rewrite IH. Qed.

Lemma rcut_last c a b :
  Str.has c b = false -> Str.rcut c (a ++ String c b) = Some (a, String c b).
Proof.
  intros H. rewrite (rcut_app_l c a (String c b) "" (String c b)).
  - now rewrite append_nil_r.
  - simpl. now rewrite (rcut_none _ _ H), Ascii.eqb_refl.
Qed.

Lemma rcut_spec c s p q :
  Str.rcut c s = Some (p, q) ->
  s = p ++ q /\ exists q', q = String c q' /\ Str.has c q' = false.
Proof.
  revert p q. induction s as [|x s IH]; simpl; [discriminate|].
  intros p q. destruct (Str.rcut c s) as [[p1 q1]|] eqn:E.
  - intros [= <- <-]. destruct (IH _ _ eq_refl) as (-> & q' & -> & Hq).
    split; [reflexivity|eauto].
  - destruct (Ascii.eqb x c) eqn:Ex; [|discriminate].
    apply Ascii.eqb_eq in Ex. subst x. intros [= <- <-].
    split; [reflexivity|]. exists s. split; [reflexivity|].
    clear IH. induction s as [|y s IH]; simpl in *; [reflexivity|].
    destruct (Str.rcut c s) as [[? ?]|]; [discriminate|].
    destruct (Ascii.eqb y c); [discriminate|]. simpl. now apply IH.
Qed.

Lemma rcut_some c s : Str.has c s = true -> exists p q, Str.rcut c s = Some (p, q).
Proof.
  induction s as [|x s IH]; simpl; [discriminate|].
  destruct (Str.rcut c s) as [[p q]|]; [eauto|].
  destruct (Ascii.eqb x c); [eauto|]. simpl. intros H.
  destruct (IH H) as (p & q & ?). discriminate.
Qed.

(** [split_raw] cuts after the last slash. *)
Lemma split_raw_spec p :
  p = fst (Posixpath.split_raw p) ++ snd (Posixpath.split_raw p)
  /\ Str.has "/" (snd (Posixpath.split_raw p)) = false.
Proof.
  unfold Posixpath.split_raw, Posixpath.sep.
  destruct (Str.rcut "/" p) as [[pre suf]|] eqn:E.
  - apply rcut_spec in E. destruct E as (-> & q' & -> & Hq). simpl.
    split; [|exact Hq]. now rewrite append_assoc.
  - simpl. split; [reflexivity|].
    destruct (Str.has "/" p) eqn:H; [|reflexivity].
    destruct (rcut_some _ _ H) as (a & b & H'). congruence.
Qed.

Lemma split_raw_app a b :
  Str.has "/" b = false ->
  Posixpath.split_raw (a ++ b)
  = (fst (Posixpath.split_raw a), snd (Posixpath.split_raw a) ++ b).
Proof.
  intros Hb. unfold Posixpath.split_raw, Posixpath.sep.
  destruct (Str.rcut "/" a) as [[pre suf]|] eqn:E.
  - destruct (rcut_spec _ _ _ _ E) as (-> & q' & -> & Hq).
    rewrite append_assoc. simpl.
    rewrite (rcut_last "/" pre (q' ++ b)); [reflexivity|].
    now rewrite has_app, Hq, Hb.
  - assert (Ha : Str.has "/" a = false).
    { destruct (Str.has "/" a) eqn:H; [|reflexivity].
      destruct (rcut_some _ _ H) as (x & y & H'). congruence. }
    rewrite rcut_none; [reflexivity|].
    now rewrite has_app, Ha, Hb.
Qed.

Lemma split_raw_dir a b :
  Str.has "/" b = false ->
  Posixpath.split_raw (a ++ "/" ++ b) = (a ++ "/", b).
Proof.
  intros Hb. unfold Posixpath.split_raw, Posixpath.sep. simpl.
  now rewrite (rcut_last "/" a b Hb).
Qed.

Lemma split_raw_name b : Str.has "/" b = false -> Posixpath.split_raw b = ("", b).
Proof. intros Hb. unfold Posixpath.split_raw. now rewrite rcut_none. Qed.

Lemma clean_spec x :
  clean x = true ->
  Str.has "/" x = false /\ x <> "" /\ x <> "." /\ x <> "..".
Proof.
  unfold clean, OS.bad_name. intros H. apply andb_prop in H. destruct H as [H1 H2].
  apply negb_true_iff in H1, H2.
  apply orb_false_elim in H2. destruct H2 as [H2 H4].
  apply orb_false_elim in H2. destruct H2 as [H2 H3].
  apply String.eqb_neq in H2, H3, H4. auto.
Qed.

Lemma clean_nonempty x : clean x = true -> Posixpath.nonempty x = true.
Proof. intros H. apply clean_spec in H. destruct x; [tauto|reflexivity]. Qed.

Lemma clean_not_abs x : clean x = true -> Str.startswith_sep x = false.
Proof.
  intros H. apply clean_spec in H. destruct H as [H _].
  destruct x as [|a x]; [reflexivity|]. simpl in *.
  apply orb_false_elim in H. destruct H as [H _].
  destruct a as [[] [] [] [] [] [] [] []]; try reflexivity. discriminate.
Qed.

Lemma names_nil : FS.names "" = [].
Proof. reflexivity. Qed.

Lemma names_app_sep a b : FS.names (a ++ "/" ++ b) = (FS.names a ++ FS.names b)%list.
Proof.
  unfold FS.names, Posixpath.sep. simpl. now rewrite split_app_sep, filter_app.
Qed.

Lemma names_sep b : FS.names (String "/" b) = FS.names b.
Proof. apply (names_app_sep "" b). Qed.

Lemma names_clean x : clean x = true -> FS.names x = [x].
Proof.
  intros H. unfold FS.names, Posixpath.sep.
  rewrite split_nosep by apply (clean_spec _ H). simpl.
  now rewrite (clean_nonempty _ H).
Qed.

Lemma endswith_sep_inv a : Str.endswith_sep a = true -> exists a', a = a' ++ "/".
Proof.
  induction a as [|x a IH]; simpl; [discriminate|].
  destruct a as [|y a].
  - intros H. apply Ascii.eqb_eq in H. subst. now exists "".
  - intros H. destruct (IH H) as (a' & ->). now exists (String x a').
Qed.

Lemma endswith_sep_app a b :
  b <> "" -> Str.endswith_sep (a ++ b) = Str.endswith_sep b.
Proof.
  intros Hb. induction a as [|x a IH]; [reflexivity|].
  simpl. destruct (a ++ b) eqn:E; [|exact IH].
  destruct a; simpl in E; [contradiction|discriminate].
Qed.

Lemma endswith_sep_nosep b : Str.has "/" b = false -> Str.endswith_sep b = false.
Proof.
  induction b as [|x b IH]; simpl; [reflexivity|].
  intros H. apply orb_false_elim in H. destruct H as [H1 H2].
  destruct b; [exact H1|]. now apply IH.
Qed.

Lemma names_join a b :
  Str.startswith_sep b = false ->
  FS.names (Posixpath.join a b) = (FS.names a ++ FS.names b)%list.
Proof.
  intros Hb. unfold Posixpath.join. rewrite Hb.
  destruct a as [|x a]; [reflexivity|]. cbn [Str.is_empty orb].
  destruct (Str.endswith_sep (String x a)) eqn:E.
  - destruct (endswith_sep_inv _ E) as (a' & ->).
    rewrite append_assoc. change ("/" ++ b) with ("/" ++ b).
    rewrite (names_app_sep a' b).
    rewrite <- (append_nil_r (a' ++ "/")), append_assoc.
    rewrite (names_app_sep a' ""). simpl. now rewrite app_nil_r.
  - apply names_app_sep.
Qed.

(** *** [normpath] *)

Lemma norm_step_clean i acc x :
  clean x = true -> Posixpath.norm_step i acc x = (acc ++ [x])%list.
Proof.
  intros H. apply clean_spec in H. destruct H as (_ & H1 & H2 & H3).
  unfold Posixpath.norm_step.
  apply String.eqb_neq in H1, H2, H3. now rewrite H1, H2, H3.
Qed.

Lemma fold_norm_clean i l : forall acc,
  Forall (fun x => clean x = true) l ->
  fold_left (Posixpath.norm_step i) l acc = (acc ++ l)%list.
Proof.
  induction l as [|x l IH]; intros acc H; simpl; [now rewrite app_nil_r|].
  inversion H; subst. rewrite norm_step_clean by assumption.
  rewrite IH by assumption. now rewrite <- app_assoc.
Qed.

Lemma fold_norm_filter i l : forall acc,
  fold_left (Posixpath.norm_step i) l acc
  = fold_left (Posixpath.norm_step i) (filter Posixpath.nonempty l) acc.
Proof.
  induction l as [|x l IH]; intros acc; simpl; [reflexivity|].
  destruct x as [|a x]; simpl; apply IH.
Qed.

Lemma Forall_removelast {A} (P : A -> Prop) l : Forall P l -> Forall P (removelast l).
Proof.
  induction 1 as [|x l Hx Hl IH]; simpl; [constructor|].
  destruct l; [constructor|]. now constructor.
Qed.

Lemma norm_step_keeps_clean i acc x :
  i <> 0 -> Str.has "/" x = false ->
  Forall (fun y => clean y = true) acc ->
  Forall (fun y => clean y = true) (Posixpath.norm_step i acc x).
Proof.
  intros Hi Hx Hacc. unfold Posixpath.norm_step.
  destruct (String.eqb x "") eqn:E1; [exact Hacc|].
  destruct (String.eqb x ".") eqn:E2; [exact Hacc|]. cbn [orb].
  destruct (String.eqb x "..") eqn:E3; cbn [negb orb].
  - replace (Nat.eqb i 0) with false by (symmetry; now apply Nat.eqb_neq).
    cbn [andb orb].
    assert (Hl : match rev acc with
                 | last :: _ => String.eqb last ".."
                 | [] => false
                 end = false).
    { destruct (rev acc) as [|l r] eqn:Er; [reflexivity|].
      assert (Hin : In l acc) by (apply in_rev; rewrite Er; now left).
      rewrite Forall_forall in Hacc. apply Hacc in Hin.
      apply clean_spec in Hin. now apply String.eqb_neq. }
    rewrite Hl. now apply Forall_removelast.
  - apply Forall_app. split; [exact Hacc|]. constructor; [|constructor].
    unfold clean, OS.bad_name. now rewrite Hx, E1, E2, E3.
Qed.

Lemma fold_norm_keeps_clean i l : forall acc,
  i <> 0 -> Forall (fun x => Str.has "/" x = false) l ->
  Forall (fun y => clean y = true) acc ->
  Forall (fun y => clean y = true) (fold_left (Posixpath.norm_step i) l acc).
Proof.
  induction l as [|x l IH]; intros acc Hi Hl Hacc; simpl; [exact Hacc|].
  inversion Hl; subst. apply IH; auto. now apply norm_step_keeps_clean.
Qed.

Lemma names_join_with l :
  Forall (fun y => clean y = true) l -> FS.names (Str.join_with "/" l) = l.
Proof.
  induction 1 as [|x l Hx Hl IH]; [reflexivity|].
  destruct l as [|y l].
  - simpl. now apply names_clean.
  - change (Str.join_with "/" (x :: y :: l)) with (x ++ "/" ++ Str.join_with "/" (y :: l)).
    rewrite names_app_sep, IH, names_clean by assumption. reflexivity.
Qed.

Lemma initial_slashes_abs p :
  Posixpath.isabs p = true ->
  Posixpath.initial_slashes p = 1 \/ Posixpath.initial_slashes p = 2.
Proof.
  destruct p as [|a p]; [discriminate|]. unfold Posixpath.isabs. simpl.
  destruct a as [[] [] [] [] [] [] [] []]; try discriminate. intros _.
  destruct p as [|b p]; [now left|].
  destruct b as [[] [] [] [] [] [] [] []]; try (now left).
  destruct p as [|c p]; [now right|].
  destruct c as [[] [] [] [] [] [] [] []]; try (now right). now left.
Qed.

(** On an absolute path [normpath] gives an absolute path whose components
    are the proper names its loop collects. *)
Lemma normpath_abs p :
  Posixpath.isabs p = true ->
  let comps := fold_left (Posixpath.norm_step (Posixpath.initial_slashes p))
                         (Str.split "/" p) [] in
  Forall (fun y => clean y = true) comps
  /\ Posixpath.isabs (Posixpath.normpath p) = true
  /\ FS.names (Posixpath.normpath p) = comps
  /\ (Posixpath.normpath p = "/" ++ Str.join_with "/" comps
      \/ Posixpath.normpath p = "//" ++ Str.join_with "/" comps).
Proof.
  intros Hp comps.
  assert (Hc : Forall (fun y => clean y = true) comps).
  { apply fold_norm_keeps_clean; [|apply split_parts|constructor].
    destruct (initial_slashes_abs _ Hp) as [-> | ->]; discriminate. }
  split; [exact Hc|].
  unfold Posixpath.normpath. destruct p as [|a p]; [discriminate|].
  cbn [Str.is_empty]. unfold Posixpath.sep. fold comps.
  destruct (initial_slashes_abs _ Hp) as [-> | ->]; cbn [Str.is_empty append].
  - repeat split; [now rewrite names_sep, names_join_with|now left].
  - repeat split; [now rewrite !names_sep, names_join_with|now right].
Qed.

Lemma isabs_join cwd x :
  Posixpath.isabs cwd = true -> Posixpath.isabs (Posixpath.join cwd x) = true.
Proof.
  unfold Posixpath.join, Posixpath.isabs. intros Hc.
  destruct (Str.startswith_sep x) eqn:Ex; [exact Ex|].
  destruct cwd as [|a c]; [discriminate|].
  destruct (_ || _); simpl in *; exact Hc.
Qed.

Lemma normal_abspath cwd x :
  Posixpath.isabs cwd = true -> normal (Posixpath.abspath cwd x).
Proof.
  intros Hc. unfold Posixpath.abspath.
  destruct (Posixpath.isabs x) eqn:Ex.
  - destruct (normpath_abs x Ex) as (H1 & H2 & H3 & _). split; [exact H2|].
    now rewrite H3.
  - destruct (normpath_abs _ (isabs_join cwd x Hc)) as (H1 & H2 & H3 & _).
    split; [exact H2|]. now rewrite H3.
Qed.

Lemma names_abspath_normal cwd q :
  normal q -> FS.names (Posixpath.abspath cwd q) = FS.names q.
Proof.
  intros [Ha Hn]. unfold Posixpath.abspath. rewrite Ha.
  destruct (normpath_abs q Ha) as (_ & _ & -> & _).
  rewrite fold_norm_filter. fold (FS.names q). now rewrite fold_norm_clean.
Qed.

Lemma normal_join q n :
  normal q -> clean n = true ->
  normal (Posixpath.join q n)
  /\ FS.names (Posixpath.join q n) = (FS.names q ++ [n])%list.
Proof.
  intros [Ha Hn] Hc.
  assert (E : FS.names (Posixpath.join q n) = (FS.names q ++ [n])%list).
  { rewrite names_join by now apply clean_not_abs. now rewrite (names_clean n). }
  split; [|exact E]. split; [now apply isabs_join|].
  rewrite E. apply Forall_app. split; [exact Hn|]. now repeat constructor.
Qed.

Lemma normal_join_all ds : forall q,
  normal q -> Forall (fun x => clean x = true) ds ->
  normal (Posixpath.join_all q ds)
  /\ FS.names (Posixpath.join_all q ds) = (FS.names q ++ ds)%list.
Proof.
  induction ds as [|d ds IH]; intros q Hq Hd; simpl.
  - now rewrite app_nil_r.
  - inversion Hd as [|? ? Hc Hr]; subst.
    destruct (normal_join q d Hq Hc) as [N1 N2].
    destruct (IH _ N1 Hr) as [N3 N4]. split; [exact N3|].
    unfold Posixpath.join_all in *. simpl. rewrite N4, N2. now rewrite <- app_assoc.
Qed.

Lemma common_app a b : Posixpath.common a (a ++ b) = List.length a.
Proof.
  induction a as [|x a IH]; simpl; [now destruct b|].
  now rewrite String.eqb_refl, IH.
Qed.

(** A relative path made of proper names. *)
Lemma join_proper a y :
  a <> "" -> Str.endswith_sep a = false -> Str.startswith_sep y = false ->
  Posixpath.join a y = a ++ "/" ++ y.
Proof.
  intros Ha He Hy. unfold Posixpath.join. rewrite Hy, He.
  destruct a; [contradiction|reflexivity].
Qed.

Lemma join_with_proper l :
  l <> [] -> Forall (fun x => clean x = true) l ->
  Str.join_with "/" l <> "" /\ Str.endswith_sep (Str.join_with "/" l) = false.
Proof.
  intros Hl H. induction H as [|x l Hx Hr IH]; [contradiction|].
  destruct (clean_spec _ Hx) as (Hs & Hne & _).
  destruct l as [|y l].
  - simpl. split; [exact Hne|now apply endswith_sep_nosep].
  - change (Str.join_with "/" (x :: y :: l)) with (x ++ "/" ++ Str.join_with "/" (y :: l)).
    destruct IH as [I1 I2]; [discriminate|]. split.
    + destruct x; [contradiction|discriminate].
    + rewrite endswith_sep_app by discriminate.
      change ("/" ++ Str.join_with "/" (y :: l)) with ("/" ++ Str.join_with "/" (y :: l)).
      rewrite (endswith_sep_app "/") by exact I1. exact I2.
Qed.

Lemma join_with_snoc l x :
  l <> [] -> Str.join_with "/" (l ++ [x]) = Str.join_with "/" l ++ "/" ++ x.
Proof.
  induction l as [|y l IH]; [contradiction|]. intros _.
  destruct l as [|z l]; [reflexivity|].
  change (Str.join_with "/" ((y :: z :: l) ++ [x]))
    with (y ++ "/" ++ Str.join_with "/" ((z :: l) ++ [x])).
  rewrite IH by discriminate.
  change (Str.join_with "/" (y :: z :: l)) with (y ++ "/" ++ Str.join_with "/" (z :: l)).
  now rewrite !append_assoc.
Qed.

Lemma join_all_clean r : forall x,
  Forall (fun y => clean y = true) (x :: r) ->
  Posixpath.join_all x r = Str.join_with "/" (x :: r).
Proof.
  unfold Posixpath.join_all.
  assert (G : forall l,
             l <> [] -> Forall (fun y => clean y = true) (l ++ r) ->
             fold_left Posixpath.join r (Str.join_with "/" l)
             = Str.join_with "/" (l ++ r)).
  { induction r as [|y r IH]; intros l Hl H; simpl; [now rewrite app_nil_r|].
    assert (Hl' : Forall (fun y => clean y = true) l)
      by (apply Forall_app in H; tauto).
    assert (Hy : clean y = true).
    { apply Forall_app in H. destruct H as [_ H]. now inversion H. }
    destruct (join_with_proper l Hl Hl') as [P1 P2].
    rewrite join_proper; auto using clean_not_abs.
    rewrite <- join_with_snoc by exact Hl.
    replace (l ++ y :: r)%list with ((l ++ [y]) ++ r)%list
      by (now rewrite <- app_assoc).
    apply IH; [now destruct l|]. now rewrite <- app_assoc. }
  intros x H. apply (G [x]); [discriminate|exact H].
Qed.

(** [relpath] on a path built by joining proper names onto the start. *)
Lemma relpath_under cwd start ds f :
  normal start -> Forall (fun x => clean x = true) ds -> clean f = true ->
  Posixpath.relpath cwd (Posixpath.join (Posixpath.join_all start ds) f) start
  = Str.join_with "/" (ds ++ [f]).
Proof.
  intros Hs Hd Hf.
  destruct (normal_join_all ds start Hs Hd) as [N1 E1].
  destruct (normal_join _ f N1 Hf) as [N2 E2].
  unfold Posixpath.relpath.
  change (filter Posixpath.nonempty
            (Str.split Posixpath.sep (Posixpath.abspath cwd start)))
    with (FS.names (Posixpath.abspath cwd start)).
  change (filter Posixpath.nonempty
            (Str.split Posixpath.sep
               (Posixpath.abspath cwd
                  (Posixpath.join (Posixpath.join_all start ds) f))))
    with (FS.names (Posixpath.abspath cwd
                      (Posixpath.join (Posixpath.join_all start ds) f))).
  rewrite !names_abspath_normal by assumption.
  rewrite E2, E1, <- app_assoc, common_app, Nat.sub_diag. cbn [repeat app].
  rewrite skipn_app, skipn_all, Nat.sub_diag. cbn [skipn app].
  assert (Hc : Forall (fun x => clean x = true) (ds ++ [f])).
  { apply Forall_app. split; [exact Hd|now repeat constructor]. }
  destruct (ds ++ [f])%list as [|x r] eqn:E; [now destruct ds|].
  now apply join_all_clean.
Qed.

(** *** [splitext] under a directory *)


Lemma splitext_app p :
  p = fst (Posixpath.splitext p) ++ snd (Posixpath.splitext p).
Proof.
  unfold Posixpath.splitext.
  destruct (split_raw_spec p) as [H _].
  destruct (Posixpath.split_raw p) as [head name]. simpl in H.
  destruct (Str.rcut Posixpath.extsep name) as [[stem ext]|] eqn:E; simpl.
  - destruct (Str.all_are Posixpath.extsep stem); simpl; [now rewrite append_nil_r|].
    apply rcut_spec in E. destruct E as [-> _]. now rewrite append_assoc.
  - now rewrite append_nil_r.
Qed.

Lemma splitext_nosep f :
  Str.has "/" f = false -> Str.has "/" (fst (Posixpath.splitext f)) = false.
Proof.
  intros Hf. rewrite (splitext_app f), has_app in Hf.
  now apply orb_false_elim in Hf.
Qed.


(** ** The enumerator *)

Lemma wf_entries es :
  wf_node (Dir es) = true ->
  Forall (fun e => clean (fst e) = true /\ wf_node (snd e) = true) es.
Proof.
  simpl. induction es as [|[x m] es IH]; [constructor|].
  intros H. apply andb_prop in H. destruct H as [H H3].
  apply andb_prop in H. destruct H as [H1 H2]. constructor; auto.
Qed.

Lemma wf_filenames es :
  wf_node (Dir es) = true -> Forall (fun x => clean x = true) (FS.filenames es).
Proof.
  intros H. apply wf_entries in H. unfold FS.filenames.
  induction H as [|[x m] es [Hx _] _ IH]; simpl; [constructor|].
  destruct m; simpl; [constructor|]; assumption.
Qed.

Lemma wf_names es :
  wf_node (Dir es) = true -> Forall (fun x => clean x = true) (map fst es).
Proof.
  intros H. apply wf_entries in H.
  induction H as [|[x m] es [Hx _] _ IH]; simpl; constructor; assumption.
Qed.

Lemma wf_assoc es x m :
  wf_node (Dir es) = true -> FS.assoc x es = Some m -> wf_node m = true.
Proof.
  intros H. apply wf_entries in H.
  induction H as [|[y k] es [_ Hk] _ IH]; simpl; [discriminate|].
  destruct (String.eqb x y); [now intros [= <-]|exact IH].
Qed.

Lemma wf_lookup ns : forall n m,
  wf_node n = true -> FS.lookup n ns = Some m -> wf_node m = true.
Proof.
  induction ns as [|x r IH]; intros n m Hn; simpl; [now intros [= <-]|].
  destruct n as [c|es]; [discriminate|].
  destruct (FS.assoc x es) as [k|] eqn:E; [|discriminate].
  apply IH. eapply wf_assoc; eassumption.
Qed.

Lemma wf_stat cwd fs p m :
  wf_node fs = true -> FS.stat cwd fs p = Some m -> wf_node m = true.
Proof.
  unfold FS.stat. destruct (FS.resolve cwd fs p); [|discriminate].
  intros H. now apply wf_lookup.
Qed.

(** Every triple of [os.walk] names a directory reached from the top by
    proper names, and lists proper names. *)
Lemma walk_in n : forall top raiz dirs files,
  wf_node n = true ->
  In (raiz, dirs, files) (FS.walk top n) ->
  exists ds, Forall (fun x => clean x = true) ds
             /\ raiz = Posixpath.join_all top ds
             /\ Forall (fun x => clean x = true) files.
Proof.
  induction n as [c|es IH] using node_ind; intros top raiz dirs files Hwf;
    [intros []|].
  cbn [FS.walk]. intros [H|H].
  - inversion H; subst. exists []. repeat split; [constructor|].
    now apply wf_filenames.
  - apply wf_entries in Hwf. revert H.
    induction es as [|[d m] es IHes]; [intros []|].
    inversion IH as [|? ? IHm IHr]; subst. inversion Hwf as [|? ? [Hd Hm] Hr]; subst.
    simpl in *. destruct m as [c|sub]; [now apply IHes|].
    intros H. apply in_app_or in H. destruct H as [H|H]; [|now apply IHes].
    destruct (IHm _ _ _ _ Hm H) as (ds & Hds & -> & Hf).
    exists (d :: ds). repeat split; [now constructor|assumption].
Qed.

Lemma join_with_dir ds f :
  Str.join_with "/" (ds ++ [f]) = dir_prefix ds ++ f.
Proof.
  destruct ds as [|d ds]; [reflexivity|].
  rewrite join_with_snoc by discriminate. unfold dir_prefix.
  now rewrite append_assoc.
Qed.


(** What the enumerator yields in a well-formed world: the relative path
    is a chain of directory names followed by the name of the entry, and the
    extension of that name is recognised. *)
Lemma listar_in w po rec fich w1 a rel :
  wf_world w ->
  _listar_ficheiros_heic po rec w = (Ok fich, w1) ->
  In (a, rel) fich ->
  exists ds f,
    rel = dir_prefix ds ++ f
    /\ clean f = true /\ ext_in_exts f = true
    /\ (rec = false -> ds = []).
Proof.
  intros [Hcwd Hwf]. unfold _listar_ficheiros_heic, bind, OS.path_abspath.
  set (orig := Posixpath.abspath (w_cwd w) po).
  assert (Hn : normal orig) by now apply normal_abspath.
  destruct rec.
  - unfold OS.walk. destruct (FS.stat _ _ orig) as [n|] eqn:Es.
    2:{ intros [= <- _] []. }
    unfold bind, emit, ret. simpl. intros [= <- _]. intros H.
    apply in_flat_map in H. destruct H as ([[raiz dirs] files] & Hin & Hp).
    apply in_map_iff in Hp. destruct Hp as (f & [= <- <-] & Hf).
    apply filter_In in Hf. destruct Hf as [Hf He].
    destruct (walk_in n orig raiz dirs files) as (ds & Hds & -> & Hc);
      [eapply wf_stat; eassumption|exact Hin|].
    assert (Hcf : clean f = true) by (rewrite Forall_forall in Hc; auto).
    exists ds, f. rewrite relpath_under by assumption.
    rewrite join_with_dir. repeat split; auto. discriminate.
  - unfold OS.listdir. destruct (FS.stat _ _ orig) as [[c|es]|] eqn:Es;
      try discriminate.
    unfold bind, emit, ret. simpl. intros [= <- _]. intros H.
    apply in_map_iff in H. destruct H as (f & [= <- <-] & Hf).
    apply filter_In in Hf. destruct Hf as [Hf He].
    exists [], f. repeat split; auto.
    assert (Hc : Forall (fun x => clean x = true) (map fst es)).
    { apply wf_names. eapply wf_stat; eassumption. }
    rewrite Forall_forall in Hc. auto.
Qed.




(** ** Nothing to convert *)

Lemma mkdirs_is_dir p ns : forall n n',
  FS.mkdirs p n ns = Ok n' -> FS.is_dir (FS.lookup n' ns) = true.
Proof.
  induction ns as [|x r IH]; intros n n'; destruct n as [c|es]; simpl;
    try discriminate.
  - now intros [= <-].
  - destruct (FS.mkdirs p _ r) as [c'|e] eqn:E; [|discriminate].
    intros [= <-]. simpl. rewrite assoc_set_eq. eapply IH, E.
Qed.

Lemma listar_pure p rec w w' :
  w_cwd w = w_cwd w' -> w_fs w = w_fs w' ->
  fst (_listar_ficheiros_heic p rec w) = fst (_listar_ficheiros_heic p rec w').
Proof.
  intros Hc Hf. unfold _listar_ficheiros_heic, bind, OS.path_abspath.
  rewrite <- Hc. destruct rec.
  - unfold OS.walk. rewrite <- Hc, <- Hf.
    destruct (FS.stat _ _ _); [|reflexivity].
    unfold bind, emit, ret. simpl. now rewrite <- Hc.
  - unfold OS.listdir. rewrite <- Hc, <- Hf.
    destruct (FS.stat _ _ _) as [[c|es]|]; reflexivity.
Qed.

Lemma listar_fs p rec w r w' :
  _listar_ficheiros_heic p rec w = (r, w') ->
  w_fs w' = w_fs w /\ w_cwd w' = w_cwd w
  /\ exists evs, w_log w' = (w_log w ++ evs)%list
                 /\ Forall (fun ev => ~ touches ev) evs.
Proof.
  unfold _listar_ficheiros_heic, bind, OS.path_abspath. destruct rec.
  - unfold OS.walk. destruct (FS.stat _ _ _).
    + unfold bind, emit, ret. simpl. intros [= _ <-]. simpl.
      repeat split. eexists [_]. split; [reflexivity|]. repeat constructor. auto.
    + intros [= _ <-]. repeat split. exists []. now rewrite app_nil_r.
  - unfold OS.listdir. destruct (FS.stat _ _ _) as [[c|es]|].
    + intros [= _ <-]. repeat split. exists []. now rewrite app_nil_r.
    + unfold bind, emit, ret. simpl. intros [= _ <-]. simpl.
      repeat split. eexists [_]. split; [reflexivity|]. repeat constructor. auto.
    + intros [= _ <-]. repeat split. exists []. now rewrite app_nil_r.
Qed.

(** When, once the destination root is created, the enumerator yields
    nothing, the batch returns [(0, 0)]: the destination root exists as a
    directory, the file system is what it was right after that creation,
    and no picture was opened, written or submitted. *)
Lemma run_nothing_enumerated
        sched pasta_origem pasta_destino qualidade subsampling progressivo
        otimizar manter_metadata recursivo overwrite formato threads w fs2 :
  let destino := Posixpath.abspath (w_cwd w) pasta_destino in
  FS.is_dir (FS.stat (w_cwd w) (w_fs w) pasta_origem) = true ->
  existsb (String.eqb (Str.lower formato)) ["jpeg"; "png"] = true ->
  FS.mkdirs destino (w_fs w) (FS.names (Posixpath.abspath (w_cwd w) destino))
  = Ok fs2 ->
  fst (_listar_ficheiros_heic (Posixpath.abspath (w_cwd w) pasta_origem)
                              recursivo (with_fs w fs2)) = Ok [] ->
  exists w',
    converter_heic sched pasta_origem pasta_destino qualidade subsampling
                   progressivo otimizar manter_metadata recursivo overwrite
                   formato threads w = (Ok (0, 0), w')
    /\ w_fs w' = fs2
    /\ FS.is_dir (FS.lookup fs2 (FS.names (Posixpath.abspath (w_cwd w) destino)))
       = true
    /\ Forall (fun ev => ~ touches ev) (news w w').
Proof.
  intros destino Hd Hf Hm Hl.
  unfold converter_heic. unfold bind at 1. unfold OS.path_isdir at 1.
  rewrite Hd. cbn [negb]. rewrite Hf. cbn [negb].
  fold (aviso qualidade (Str.lower formato)).
  destruct (aviso_ok qualidade (Str.lower formato) w) as (w1 & Ea).
  unfold bind at 1. rewrite Ea.
  assert (H1 : w_cwd w1 = w_cwd w /\ w_fs w1 = w_fs w
               /\ exists evs, w_log w1 = (w_log w ++ evs)%list
                              /\ Forall (fun ev => ~ touches ev) evs).
  { unfold aviso in Ea. destruct (_ && _).
    - unfold print, emit in Ea. inversion Ea; subst. simpl. repeat split.
      eexists [_]. split; [reflexivity|]. repeat constructor. auto.
    - inversion Ea; subst. repeat split. exists []. now rewrite app_nil_r. }
  destruct H1 as (Hc1 & Hf1 & e1 & Hl1 & F1).
  unfold bind at 1. unfold OS.path_abspath at 1.
  unfold bind at 1. unfold OS.path_abspath at 1.
  unfold bind at 1. unfold OS.makedirs at 1.
  rewrite Hc1, Hf1. fold destino. rewrite Hm. unfold emit at 1.
  set (w2 := {| w_cwd := _; w_cpu_count := _; w_fs := _; w_log := _ |}).
  unfold bind at 1.
  destruct (_listar_ficheiros_heic _ recursivo w2) as [r3 w3] eqn:El.
  assert (Hr3 : r3 = Ok []).
  { rewrite <- Hl.
    change r3 with (fst (r3, w3)). rewrite <- El. apply listar_pure; simpl; auto. }
  subst r3. destruct (listar_fs _ _ _ _ _ El) as (Hf3 & Hc3 & e3 & Hl3 & F3).
  cbn [List.length Nat.eqb]. unfold bind, print, emit, ret.
  eexists. split; [reflexivity|]. simpl. split; [exact Hf3|].
  split; [eapply mkdirs_is_dir, Hm|].
  rewrite (news_app _ _ (e1 ++ [EvMakedirs destino] ++ e3
                           ++ [EvPrint (MsgNenhumFicheiro pasta_origem)])%list).
  - repeat (apply Forall_app; split); auto; repeat constructor; auto.
  - simpl. rewrite Hl3. subst w2. simpl. rewrite Hl1.
    now rewrite <- !app_assoc.
Qed.

(** ** More on directories and paths *)

Lemma mkdirs_noop p ns : forall n,
  FS.is_dir (FS.lookup n ns) = true -> FS.mkdirs p n ns = Ok n.
Proof.
  induction ns as [|x r IH]; intros n; destruct n as [c|es]; simpl;
    try discriminate; [reflexivity|].
  destruct (FS.assoc x es) as [c|] eqn:E; [|discriminate].
  intros H. rewrite (IH _ H). now rewrite (set_same _ _ _ E).
Qed.

Lemma lookup_app a : forall n b,
  FS.lookup n (a ++ b)
  = match FS.lookup n a with
    | Some m => FS.lookup m b
    | None => None
    end.
Proof.
  induction a as [|x a IH]; intros n b; simpl; [reflexivity|].
  destruct n as [c|es]; [reflexivity|].
  destruct (FS.assoc x es); [apply IH|reflexivity].
Qed.

Lemma lookup_update f ns : forall n es,
  FS.lookup n ns = Some (Dir es) ->
  FS.lookup (FS.update n ns f) ns = Some (Dir (f es)).
Proof.
  induction ns as [|x r IH]; intros n es; destruct n as [c|es0]; simpl;
    try discriminate.
  - now intros [= ->].
  - destruct (FS.assoc x es0) as [c|] eqn:E; [|discriminate].
    intros H. simpl. rewrite assoc_set_eq. now apply IH.
Qed.

Lemma canon_app root a : forall st b,
  FS.canon root st (a ++ b)
  = match FS.canon root st a with
    | Some s => FS.canon root s b
    | None => None
    end.
Proof.
  induction a as [|c a IH]; intros st b; simpl; [reflexivity|].
  destruct (FS.is_dir (FS.lookup root st)); [|reflexivity].
  destruct (_ || _); [apply IH|].
  destruct (String.eqb c ".."); [apply IH|].
  destruct (FS.lookup root (st ++ [c])); [apply IH|reflexivity].
Qed.

Lemma startswith_sep_app a b :
  a <> "" -> Str.startswith_sep (a ++ b) = Str.startswith_sep a.
Proof. destruct a; [contradiction|reflexivity]. Qed.

Lemma nosep_not_abs x : Str.has "/" x = false -> Str.startswith_sep x = false.
Proof.
  destruct x as [|a x]; [reflexivity|]. simpl. intros H.
  apply orb_false_elim in H. destruct H as [H _].
  destruct a as [[] [] [] [] [] [] [] []]; try reflexivity. discriminate.
Qed.

(** After a successful write the path names the file written. *)
Lemma write_file_stat p c w w' :
  OS.write_file p c w = (Ok tt, w') ->
  FS.stat (w_cwd w') (w_fs w') p = Some (File c).
Proof.
  unfold OS.write_file.
  destruct (split_raw_spec p) as [Hp Hname].
  destruct (Posixpath.split_raw p) as [head name] eqn:Esr. simpl in Hp, Hname.
  destruct (OS.bad_name name) eqn:Eb; [discriminate|].
  destruct (FS.resolve _ _ _) as [ns|] eqn:Er; [|discriminate].
  destruct (FS.lookup (w_fs w) ns) as [[c0|es]|] eqn:El; try discriminate.
  assert (Hfin : forall fs', fs' = FS.update (w_fs w) ns (FS.set name (File c)) ->
                 match FS.assoc name es with Some (Dir _) => False | _ => True end ->
                 FS.stat (w_cwd w) fs' p = Some (File c)).
  { intros fs' -> Ha.
    set (fs' := FS.update (w_fs w) ns (FS.set name (File c))).
    assert (G : grow ok_any (w_fs w) fs').
    { eapply update_grow; [exact El|]. now apply set_file_grow. }
    assert (L1 : FS.lookup fs' ns = Some (Dir (FS.set name (File c) es)))
      by now apply lookup_update.
    assert (L2 : FS.lookup fs' (ns ++ [name]) = Some (File c)).
    { rewrite lookup_app, L1. simpl. now rewrite assoc_set_eq. }
    unfold OS.bad_name in Eb.
    apply orb_false_elim in Eb. destruct Eb as [Eb E3].
    assert (Hstep : FS.canon fs' ns [name] = Some (ns ++ [name])%list).
    { simpl. rewrite L1. simpl. rewrite Eb, E3, L2. reflexivity. }
    assert (Hne : Str.is_empty p = false).
    { rewrite Hp. destruct head; simpl; [|reflexivity].
      destruct name; [discriminate|reflexivity]. }
    unfold FS.stat, FS.resolve. rewrite Hne.
    unfold Posixpath.split_raw, Posixpath.sep in Esr.
    destruct (Str.rcut "/" p) as [[pre suf]|] eqn:Ec.
    - destruct (rcut_spec _ _ _ _ Ec) as (Hpp & q' & -> & Hq).
      inversion Esr; subst head name. clear Esr.
      assert (Hh : Str.is_empty (pre ++ "/") = false) by now destruct pre.
      rewrite Hh in Er. unfold FS.resolve in Er. rewrite Hh in Er.
      unfold Posixpath.sep in Er.
      rewrite (split_app_sep "/" pre "") in Er. cbn [Str.split] in Er.
      rewrite canon_app in Er.
      assert (Hab : Posixpath.isabs p = Posixpath.isabs (pre ++ "/")).
      { rewrite Hpp. unfold Posixpath.isabs. destruct pre; reflexivity. }
      rewrite Hab.
      destruct (FS.canon (w_fs w) _ (Str.split "/" pre)) as [s1|] eqn:E1;
        [|discriminate].
      assert (Hs1 : s1 = ns).
      { simpl in Er. destruct (FS.is_dir _); [|discriminate]. now inversion Er. }
      subst s1.
      rewrite Hpp. simpl. rewrite split_app_sep, canon_app.
      rewrite (grow_canon _ _ _ G _ _ _ E1).
      rewrite (split_nosep _ _ Hq), Hstep. exact L2.
    - inversion Esr; subst head name. clear Esr.
      unfold FS.resolve in Er. simpl in Er.
      assert (Hab : Posixpath.isabs p = false) by now apply nosep_not_abs.
      rewrite Hab. unfold Posixpath.sep. rewrite (split_nosep _ _ Hname).
      assert (Hs1 : ns = FS.names (w_cwd w)).
      { destruct (FS.is_dir _); [|discriminate]. now inversion Er. }
      subst ns. rewrite Hstep. exact L2. }
  destruct (FS.assoc name es) as [[c1|?]|] eqn:Ea; try discriminate;
    unfold emit, with_fs; simpl; intros [= <-]; simpl; now apply Hfin.
Qed.

Lemma salvar_exists entrada saida f q ss pr ot mm w w' :
  _salvar_imagem entrada saida f q ss pr ot mm w = (Ok tt, w') ->
  FS.stat (w_cwd w') (w_fs w') saida <> None.
Proof.
  unfold _salvar_imagem. intros H. apply bind_inv in H.
  destruct H as [(im & w1 & Ho & Hs)|(e & _ & ?)]; [|discriminate].
  cbv zeta in Hs.
  assert (K : forall im' params, Image.save im' saida params w1 = (Ok tt, w') ->
                                 FS.stat (w_cwd w') (w_fs w') saida <> None).
  { intros im' params. unfold Image.save.
    destruct (PIL.encode im' params) as [c|e]; [|discriminate].
    intros Hw. rewrite (write_file_stat _ _ _ _ Hw). discriminate. }
  destruct (String.eqb f "jpeg"); [eapply K, Hs|].
  destruct (String.eqb f "png"); [eapply K, Hs|discriminate].
Qed.

Lemma rstrip_app_sep s : Str.rstrip "/" (s ++ "/") = Str.rstrip "/" s.
Proof.
  induction s as [|x s IH]; [reflexivity|].
  simpl. now rewrite IH.
Qed.

Lemma rstrip_id s : Str.endswith_sep s = false -> Str.rstrip "/" s = s.
Proof.
  induction s as [|x s IH]; [reflexivity|]. simpl.
  destruct s as [|y s].
  - intros ->. reflexivity.
  - intros H. now rewrite (IH H).
Qed.

Lemma all_are_app c a b : Str.all_are c (a ++ b) = Str.all_are c a && Str.all_are c b.
Proof.
  induction a as [|x a IH]; [reflexivity|]. simpl. now rewrite IH, andb_assoc.
Qed.

Lemma clean_not_slashes x : clean x = true -> Str.all_are "/" x = false.
Proof.
  intros H. destruct (clean_spec _ H) as (Hs & Hne & _).
  destruct x as [|a x]; [contradiction|]. simpl in *.
  apply orb_false_elim in Hs. destruct Hs as [-> _]. reflexivity.
Qed.

Lemma join_with_not_slashes l :
  l <> [] -> Forall (fun y => clean y = true) l ->
  Str.all_are "/" (Str.join_with "/" l) = false.
Proof.
  intros Hl H. destruct H as [|x l Hx Hr]; [contradiction|].
  destruct l as [|y l]; [now apply clean_not_slashes|].
  change (Str.join_with "/" (x :: y :: l)) with (x ++ "/" ++ Str.join_with "/" (y :: l)).
  now rewrite all_are_app, clean_not_slashes.
Qed.

Lemma tidy_abspath cwd x : Posixpath.isabs cwd = true -> tidy (Posixpath.abspath cwd x).
Proof.
  intros Hc. unfold Posixpath.abspath.
  destruct (Posixpath.isabs x) eqn:Ex.
  - destruct (normpath_abs x Ex) as (H1 & _ & _ & H4). eexists; eauto.
  - destruct (normpath_abs _ (isabs_join cwd x Hc)) as (H1 & _ & _ & H4).
    eexists; eauto.
Qed.

(** The directory of an entry joined onto a tidy path is that path. *)
Lemma dirname_join_name p y :
  tidy p -> Str.has "/" y = false ->
  Posixpath.dirname (Posixpath.join p y) = p.
Proof.
  intros (comps & Hc & Hp) Hy. unfold Posixpath.dirname.
  assert (Hya := nosep_not_abs _ Hy).
  destruct comps as [|c0 comps].
  - assert (E : Posixpath.join p y = p ++ y).
    { unfold Posixpath.join. rewrite Hya. destruct Hp as [-> | ->]; reflexivity. }
    rewrite E, split_raw_app by exact Hy.
    destruct Hp as [-> | ->]; reflexivity.
  - set (J := Str.join_with "/" (c0 :: comps)) in *.
    destruct (join_with_proper (c0 :: comps)) as [J1 J2]; [discriminate|exact Hc|].
    fold J in J1, J2.
    assert (He : Str.endswith_sep p = false).
    { destruct Hp as [-> | ->].
      - now rewrite (endswith_sep_app "/" J J1).
      - now rewrite (endswith_sep_app "//" J J1). }
    assert (Hne : p <> "") by (destruct Hp as [-> | ->]; discriminate).
    rewrite join_proper; auto.
    rewrite split_raw_dir by exact Hy. simpl. unfold Posixpath.strip_head.
    assert (Hs : Str.all_are Posixpath.sep (p ++ "/") = false).
    { rewrite all_are_app.
      assert (HJ : Str.all_are "/" J = false)
        by (apply join_with_not_slashes; [discriminate|exact Hc]).
      unfold Posixpath.sep.
      destruct Hp as [-> | ->]; rewrite all_are_app, HJ; now rewrite andb_false_r. }
    rewrite Hs. replace (Str.is_empty (p ++ "/")) with false by (now destruct p).
    simpl. unfold Posixpath.sep. rewrite rstrip_app_sep. now apply rstrip_id.
Qed.

(** The name of an output file never has a recognised input extension. *)
Lemma ext_out_not_in n e :
  Str.has "/" n = false -> (e = ".jpg" \/ e = ".png") ->
  ext_in_exts (n ++ e) = false.
Proof.
  intros Hn He. unfold ext_in_exts, Posixpath.splitext.
  assert (Hs : Str.has "/" (n ++ e) = false).
  { rewrite has_app, Hn. destruct He as [-> | ->]; reflexivity. }
  rewrite (split_raw_name _ Hs).
  assert (Hc : Str.rcut Posixpath.extsep (n ++ e) = Some (n, e)).
  { destruct He as [-> | ->]; apply (rcut_last "." n); reflexivity. }
  rewrite Hc. destruct (Str.all_are Posixpath.extsep n); [reflexivity|].
  destruct He as [-> | ->]; reflexivity.
Qed.

Lemma join_ends a s e : exists z, Posixpath.join a (s ++ e) = z ++ e.
Proof.
  unfold Posixpath.join.
  destruct (Str.startswith_sep (s ++ e)); [now exists s|].
  destruct (_ || _).
  - exists (a ++ s). now rewrite append_assoc.
  - exists (a ++ "/" ++ s). now rewrite !append_assoc.
Qed.

Lemma saida_name_fresh dirs f dest rel c :
  fresh dirs (snd (Posixpath.split_raw (saida_de f dest rel))) (File c) = true.
Proof.
  unfold saida_de.
  set (e := if String.eqb f "jpeg" then ".jpg" else ".png").
  assert (He : e = ".jpg" \/ e = ".png") by (unfold e; destruct (String.eqb f "jpeg"); auto).
  destruct (join_ends dest (fst (Posixpath.splitext rel)) e) as (z & ->).
  rewrite split_raw_app by (destruct He as [-> | ->]; reflexivity).
  simpl. rewrite ext_out_not_in; [reflexivity| |exact He].
  apply split_raw_spec.
Qed.

(** ** The enumerator does not see what a run adds *)

Lemma walk_dir top es :
  FS.walk top (Dir es) = (top, FS.dirnames es, FS.filenames es) :: walk_entries top es.
Proof.
  cbn [FS.walk]. f_equal.
  induction es as [|[d [c|sub]] es IH]; cbn [walk_entries]; [reflexivity|exact IH|].
  now rewrite IH.
Qed.

Lemma fresh_entries dirs x es :
  fresh dirs x (Dir es) = true ->
  Forall (fun e => fresh dirs (fst e) (snd e) = true) es.
Proof.
  simpl. intros H. apply andb_prop in H. destruct H as [_ H].
  induction es as [|[y m] es IH]; [constructor|].
  apply andb_prop in H. destruct H as [H1 H2]. constructor; auto.
Qed.

Lemma filenames_cons x m es :
  FS.filenames ((x, m) :: es)
  = match m with
    | File _ => x :: FS.filenames es
    | Dir _ => FS.filenames es
    end.
Proof. unfold FS.filenames. simpl. now destruct m. Qed.

Lemma fresh_filenames dirs new :
  Forall (fun e => fresh dirs (fst e) (snd e) = true) new ->
  filter ext_in_exts (FS.filenames new) = [].
Proof.
  induction 1 as [|[x m] new Hx _ IH]; [reflexivity|].
  rewrite filenames_cons. destruct m as [c|es]; [|exact IH].
  simpl in *. apply negb_true_iff in Hx. now rewrite Hx.
Qed.

Lemma fresh_flat_names new :
  Forall (fun e => fresh false (fst e) (snd e) = true) new ->
  filter ext_in_exts (map fst new) = [].
Proof.
  induction 1 as [|[x m] new Hx _ IH]; [reflexivity|].
  simpl in *. destruct m as [c|es]; [|discriminate].
  simpl in Hx. apply negb_true_iff in Hx. now rewrite Hx.
Qed.

Lemma grow_flat_names es es' :
  grow_entries (fresh false) es es' ->
  filter ext_in_exts (map fst es') = filter ext_in_exts (map fst es).
Proof.
  induction 1 as [new Hn|x n n' es es' Hg He IH].
  - now apply fresh_flat_names.
  - simpl. now rewrite IH.
Qed.

Section Enum.

Variables cwd orig : string.

Lemma pares_nil raiz dirs files :
  filter ext_in_exts files = [] -> pares cwd orig (raiz, dirs, files) = [].
Proof. unfold pares. now intros ->. Qed.

Lemma fresh_enum m : forall x top,
  fresh true x m = true -> flat_map (pares cwd orig) (FS.walk top m) = [].
Proof.
  induction m as [c|es IH] using node_ind; intros x top Hf; [reflexivity|].
  rewrite walk_dir. cbn [flat_map].
  apply fresh_entries in Hf.
  rewrite pares_nil by (eapply fresh_filenames; eassumption). simpl.
  revert top. induction es as [|[d m] es IHes]; intros top; [reflexivity|].
  inversion IH as [|? ? IHm IHr]; subst. inversion Hf as [|? ? Hd Hr]; subst.
  simpl in *. destruct m as [c|sub]; [now apply IHes|].
  rewrite flat_map_app, (IHm d _ Hd). simpl. now apply IHes.
Qed.

Lemma fresh_enum_entries new : forall top,
  Forall (fun e => fresh true (fst e) (snd e) = true) new ->
  flat_map (pares cwd orig) (walk_entries top new) = [].
Proof.
  intros top H. induction H as [|[d m] new Hd _ IH]; [reflexivity|].
  simpl in *. destruct m as [c|sub]; [exact IH|].
  now rewrite flat_map_app, (fresh_enum _ d _ Hd), IH.
Qed.

Lemma grow_enum n n' :
  grow (fresh true) n n' ->
  forall top, flat_map (pares cwd orig) (FS.walk top n')
              = flat_map (pares cwd orig) (FS.walk top n).
Proof.
  revert n n'.
  apply (grow_mut (fresh true)
           (fun n n' => forall top,
                flat_map (pares cwd orig) (FS.walk top n')
                = flat_map (pares cwd orig) (FS.walk top n))
           (fun es es' =>
              filter ext_in_exts (FS.filenames es')
              = filter ext_in_exts (FS.filenames es)
              /\ forall top,
                  flat_map (pares cwd orig) (walk_entries top es')
                  = flat_map (pares cwd orig) (walk_entries top es))).
  - reflexivity.
  - intros es es' _ [H1 H2] top. rewrite !walk_dir. cbn [flat_map].
    rewrite H2. f_equal. unfold pares. now rewrite H1.
  - intros new Hn. split.
    + now rewrite (fresh_filenames _ _ Hn).
    + intros top. now rewrite fresh_enum_entries.
  - intros x n n' es es' Hg IHn _ [H1 H2]. split.
    + rewrite !filenames_cons. destruct Hg; [cbn [filter]; now rewrite H1|exact H1].
    + intros top. cbn [walk_entries]. destruct Hg; [apply H2|].
      now rewrite !flat_map_app, IHn, H2.
Qed.

End Enum.

Lemma listar_flat_map cwd orig t :
  (let '(raiz, _, ficheiros) := t in
   map (fun f =>
          let caminho_abs := Posixpath.join raiz f in
          let caminho_rel := Posixpath.relpath cwd caminho_abs orig in
          (caminho_abs, caminho_rel))
       (filter ext_in_exts ficheiros))
  = pares cwd orig t.
Proof. reflexivity. Qed.

(** A run that found files finds the same ones after the file system grew
    by entries the enumerator ignores. *)
Lemma listar_grow p rec w w' fich :
  w_cwd w' = w_cwd w ->
  grow (fresh rec) (w_fs w) (w_fs w') ->
  fst (_listar_ficheiros_heic p rec w) = Ok fich ->
  fich <> [] ->
  fst (_listar_ficheiros_heic p rec w') = Ok fich.
Proof.
  intros Hc G. unfold _listar_ficheiros_heic, bind, OS.path_abspath.
  rewrite Hc. set (orig := Posixpath.abspath (w_cwd w) p).
  destruct rec.
  - unfold OS.walk. rewrite Hc.
    destruct (FS.stat (w_cwd w) (w_fs w) orig) as [n|] eqn:Es.
    2:{ simpl. intros [= <-] H. now contradiction H. }
    destruct (grow_stat _ _ _ _ _ _ G Es) as (n' & -> & Gn).
    unfold bind, emit, ret. simpl. rewrite Hc. intros [= <-] _.
    f_equal. apply (grow_enum (w_cwd w) orig _ _ Gn).
  - unfold OS.listdir. rewrite Hc.
    destruct (FS.stat (w_cwd w) (w_fs w) orig) as [[c|es]|] eqn:Es;
      try discriminate.
    destruct (grow_stat _ _ _ _ _ _ G Es) as (n' & -> & Gn).
    inversion Gn as [|? es' Ge]; subst.
    unfold bind, emit, ret. simpl. intros [= <-] _.
    now rewrite (grow_flat_names _ _ Ge).
Qed.

(** ** A run whose tasks all succeed leaves every output in place *)

Lemma grow_dir_ok ok cwd fs fs' p :
  grow ok fs fs' -> dir_ok cwd fs p -> dir_ok cwd fs' p.
Proof.
  unfold dir_ok. intros G H.
  destruct (FS.lookup fs _) as [m|] eqn:E; [|discriminate].
  now rewrite (grow_is_dir _ _ _ _ _ G E).
Qed.

Lemma grow_exists ok cwd fs fs' p :
  grow ok fs fs' -> FS.stat cwd fs p <> None -> FS.stat cwd fs' p <> None.
Proof.
  intros G H. destruct (FS.stat cwd fs p) as [m|] eqn:E; [|contradiction].
  destruct (grow_stat _ _ _ _ _ _ G E) as (m' & -> & _). discriminate.
Qed.

Lemma cover_world cwd douts eouts x w' :
  cover cwd douts eouts x -> wstep ok_any (x_world x) w' ->
  cover cwd douts eouts
        {| x_world := w'; x_pending := x_pending x; x_finished := x_finished x |}.
Proof.
  intros (Hc & Hd & He) ((E1 & _) & _ & G). split; [simpl; congruence|]. split.
  - intros s Hs. eapply grow_dir_ok; [exact G|]. now apply Hd.
  - destruct He as [He|He]; [now left|right]. simpl. intros s Hs.
    destruct (He s Hs) as [H|H]; [left|now right].
    eapply grow_exists; eassumption.
Qed.

Lemma cover_lift {A} cwd douts eouts (m : M world A) :
  pres (wstep ok_any) m -> keeps (cover cwd douts eouts) (lift m).
Proof.
  intros Hm x r x' Hx. unfold lift.
  destruct (m (x_world x)) as [r1 w1] eqn:E. intros [= _ <-].
  eapply cover_world; [exact Hx|]. eapply Hm, E.
Qed.

Lemma cover_complete cwd douts eouts k : keeps (cover cwd douts eouts) (complete k).
Proof.
  intros x r x' Hx. unfold complete.
  destruct (nth_error (x_pending x) k) as [t|] eqn:En; [|now intros [= _ <-]].
  destruct (run_task t (x_world x)) as [r1 w1] eqn:E. simpl. intros [= _ <-].
  assert (S1 := run_task_wstep _ _ _ _ E).
  destruct (cover_world _ _ _ _ _ Hx S1) as (Hc & Hd & He). simpl in *.
  split; [exact Hc|]. split; [exact Hd|]. simpl.
  destruct He as [(t0 & e0 & H0)|He].
  { left. exists t0, e0. apply in_or_app. now left. }
  destruct r1 as [[]|e1].
  2:{ left. exists t, e1. apply in_or_app. right. now left. }
  right. intros s Hs. destruct (He s Hs) as [H|H]; [now left|].
  rewrite (nth_error_cut _ _ _ En), map_app in H. apply in_app_or in H.
  rewrite map_app. destruct H as [H|[H|H]].
  - right. apply in_or_app. now left.
  - left. subst s. rewrite <- Hc. eapply salvar_exists. exact E.
  - right. apply in_or_app. now right.
Qed.

Lemma cover_workers cwd douts eouts picks : keeps (cover cwd douts eouts) (workers picks).
Proof.
  induction picks as [|k r IH]; simpl.
  - apply keeps_ret.
  - apply keeps_bind; auto using cover_complete.
Qed.

Lemma cover_wait_all cwd douts eouts picks :
  keeps (cover cwd douts eouts) (wait_all picks).
Proof.
  unfold wait_all. apply keeps_bind; [apply cover_workers|].
  intros _ x r x' Hx. generalize (List.length (x_pending x)). intros n.
  revert x r x' Hx. fold (keeps (cover cwd douts eouts) (run_all n)).
  induction n as [|n IH]; simpl.
  - apply keeps_ret.
  - apply keeps_bind; auto using cover_complete.
Qed.

Lemma makedirs_dir_ok p w w' :
  OS.makedirs (Posixpath.dirname p) w = (Ok tt, w') ->
  dir_ok (w_cwd w) (w_fs w') p /\ w_cwd w' = w_cwd w.
Proof.
  unfold OS.makedirs, dir_ok.
  destruct (FS.mkdirs _ _ _) as [fs'|e] eqn:E; [|discriminate].
  unfold emit, with_fs. simpl. intros [= <-]. simpl. split; [|reflexivity].
  eapply mkdirs_is_dir, E.
Qed.

Lemma destino_dir_ok f dest rel w s w' :
  destino_para f dest rel w = (Ok s, w') -> dir_ok (w_cwd w) (w_fs w') s.
Proof.
  intros H. assert (Hs := destino_value _ _ _ _ _ _ H). subst s.
  unfold destino_para in H. unfold saida_de.
  destruct (Posixpath.splitext rel) as [b e]. simpl.
  apply bind_inv in H. destruct H as [([] & w1 & Hm & Hr)|(e' & _ & ?)];
    [|discriminate].
  inversion Hr; subst. now apply makedirs_dir_ok in Hm.
Qed.

Lemma cover_more cwd douts eouts douts' eouts' x :
  cover cwd douts eouts x ->
  (forall s, In s douts' -> In s douts) ->
  (forall s, In s eouts' -> In s eouts) ->
  cover cwd douts' eouts' x.
Proof.
  intros (Hc & Hd & He) H1 H2. split; [exact Hc|]. split; [auto|].
  destruct He as [He|He]; [now left|right; auto].
Qed.

(** The submission loop of a run with [overwrite] false. *)
Lemma cover_submeter cwd sched q ss pr ot mm f dest l : forall i outs x x',
  cover cwd outs outs x ->
  submeter sched q ss pr ot mm false f dest i l x = (Ok tt, x') ->
  cover cwd (outs ++ map (fun fr => saida_de f dest (snd fr)) l)
        (outs ++ map (fun fr => saida_de f dest (snd fr)) l) x'.
Proof.
  induction l as [|[a rel] rest IH]; intros i outs x x' Hx; simpl.
  - intros [= <-]. now rewrite app_nil_r.
  - intros H. apply bind_inv in H.
    destruct H as [([] & x1 & H1 & H)|(e & _ & ?)]; [|discriminate].
    assert (C1 : cover cwd outs outs x1) by (eapply cover_workers; eassumption).
    clear H1 Hx x. apply bind_inv in H.
    destruct H as [(saida & x2 & H2 & H)|(e & _ & ?)]; [|discriminate].
    assert (C2 : cover cwd outs outs x2).
    { eapply cover_lift; [apply wstep_any_destino|exact C1|exact H2]. }
    assert (D2 : dir_ok cwd (w_fs (x_world x2)) saida /\ saida = saida_de f dest rel).
    { unfold lift in H2. destruct (destino_para _ _ _ _) as [r1 w1] eqn:E.
      inversion H2; subst. simpl. destruct C1 as (Hc1 & _). rewrite <- Hc1.
      split; [eapply destino_dir_ok, E|eapply destino_value, E]. }
    destruct D2 as [D2 ->]. clear H2 C1 x1.
    assert (C2' : cover cwd (outs ++ [saida_de f dest rel]) outs x2).
    { destruct C2 as (Hc & Hd & He). split; [exact Hc|]. split; [|exact He].
      intros s Hs. apply in_app_or in Hs. destruct Hs as [Hs|[<-|[]]]; auto. }
    clear C2 D2. apply bind_inv in H.
    destruct H as [([] & x3 & H3 & H)|(e & _ & ?)]; [|discriminate].
    assert (C3 : cover cwd (outs ++ [saida_de f dest rel]) outs x3)
      by (eapply cover_workers; eassumption).
    clear H3 C2' x2. unfold bind at 1 in H. destruct x3 as [w3 p3 f3].
    unfold lift at 1, OS.path_exists at 1 in H.
    cbn [x_world x_pending x_finished negb andb] in H.
    set (s := saida_de f dest rel) in *.
    assert (C4 : forall x4,
               (if match FS.stat (w_cwd w3) (w_fs w3) s with
                   | Some _ => true
                   | None => false
                   end
                then ret tt
                else submit (mkTask a s f q ss pr ot mm))
                 {| x_world := w3; x_pending := p3; x_finished := f3 |}
               = (Ok tt, x4) ->
               cover cwd (outs ++ [s]) (outs ++ [s]) x4).
    { intros x4. destruct C3 as (Hc & Hd & He). simpl in Hc.
      destruct (FS.stat (w_cwd w3) (w_fs w3) s) as [m|] eqn:Es.
      - intros [= <-]. split; [exact Hc|]. split; [exact Hd|].
        destruct He as [He|He]; [now left|right]. intros s' Hs'.
        apply in_app_or in Hs'. destruct Hs' as [Hs'|[<-|[]]]; [auto|].
        left. simpl. rewrite <- Hc, Es. discriminate.
      - unfold submit, emit. simpl. intros [= <-].
        split; [exact Hc|]. split; [exact Hd|]. simpl.
        destruct He as [He|He]; [now left|right]. intros s' Hs'.
        rewrite map_app. apply in_app_or in Hs'.
        destruct Hs' as [Hs'|[<-|[]]].
        + destruct (He s' Hs') as [H'|H']; [now left|right].
          apply in_or_app. now left.
        + right. apply in_or_app. right. now left. }
    apply bind_inv in H.
    destruct H as [([] & x4 & H4 & H)|(e & _ & ?)]; [|discriminate].
    apply C4 in H4. apply (IH _ _ _ _ H4) in H.
    now rewrite <- !app_assoc in H.
Qed.

Lemma no_failures l :
  List.length (filter failed l) = 0 -> forall t e, ~ In (t, @Raise unit e) l.
Proof.
  intros H t e Hin.
  assert (Hf : In (t, @Raise unit e) (filter failed l)) by (apply filter_In; auto).
  destruct (filter failed l); [exact Hf|discriminate].
Qed.

(** The [with] block of a run with [overwrite] false that reports no
    error: afterwards every enumerated file has its output, in an existing
    directory. *)
Lemma block_leaves_outputs final sched q ss pr ot mm f dest fich w4 c w5 :
  with_executor final (corpo sched q ss pr ot mm false f dest fich) w4
  = (Ok (c, 0), w5) ->
  w_cwd w5 = w_cwd w4
  /\ forall fr, In fr fich ->
                FS.stat (w_cwd w4) (w_fs w5) (saida_de f dest (snd fr)) <> None
                /\ dir_ok (w_cwd w4) (w_fs w5) (saida_de f dest (snd fr)).
Proof.
  unfold with_executor.
  set (x0 := {| x_world := w4; x_pending := []; x_finished := [] |}).
  destruct (corpo _ _ _ _ _ _ _ _ _ _ x0) as [rx x] eqn:Eb.
  destruct (wait_all final x) as [u x'] eqn:Ew. intros [= -> <-].
  unfold corpo in Eb. apply bind_inv in Eb.
  destruct Eb as [([] & x1 & Hs & Ha)|(e & _ & ?)]; [|discriminate].
  assert (C0 : cover (w_cwd w4) [] [] x0).
  { split; [reflexivity|]. split; [intros s []|right; intros s []]. }
  apply (cover_submeter _ _ _ _ _ _ _ _ _ _ _ _ _ _ C0) in Hs. simpl in Hs.
  destruct (as_completed_result _ _ _ _ _ Ha) as [Hp Hr].
  assert (C2 : cover (w_cwd w4) (map (fun fr => saida_de f dest (snd fr)) fich)
                     (map (fun fr => saida_de f dest (snd fr)) fich) x).
  { revert Ha. unfold as_completed.
    eapply keeps_bind; [apply cover_wait_all| |exact Hs].
    intros _ y ry y' Hy. apply cover_lift; [|exact Hy].
    apply wstep_contar. exact ok_any_stable. }
  rewrite (wait_all_idle _ _ Hp) in Ew. inversion Ew; subst x'.
  destruct C2 as (Hc & Hd & He). split; [exact Hc|].
  intros fr Hfr.
  assert (Hin : In (saida_de f dest (snd fr))
                   (map (fun fr => saida_de f dest (snd fr)) fich))
    by (apply in_map_iff; eauto).
  split; [|now apply Hd].
  destruct He as [(t & e & Hf)|He].
  - exfalso. inversion Hr as [[Hc' He']]. symmetry in He'.
    eapply no_failures; eassumption.
  - destruct (He _ Hin) as [H|H]; [exact H|]. rewrite Hp in H. destruct H.
Qed.

(** ** What a run adds is invisible to the enumerator *)

Lemma makedirs_existing p w r w' :
  FS.is_dir (FS.lookup (w_fs w) (FS.names (Posixpath.abspath (w_cwd w) p))) = true ->
  OS.makedirs p w = (r, w') ->
  r = Ok tt /\ w_fs w' = w_fs w /\ w_cwd w' = w_cwd w
  /\ w_cpu_count w' = w_cpu_count w
  /\ w_log w' = (w_log w ++ [EvMakedirs p])%list.
Proof.
  intros H. unfold OS.makedirs. rewrite (mkdirs_noop _ _ _ H).
  unfold emit, with_fs. simpl. intros [= <- <-]. simpl. auto.
Qed.

Lemma wstep_makedirs_existing ok p w r w' :
  FS.is_dir (FS.lookup (w_fs w) (FS.names (Posixpath.abspath (w_cwd w) p))) = true ->
  OS.makedirs p w = (r, w') -> wstep ok w w'.
Proof.
  intros H E. destruct (makedirs_existing _ _ _ _ H E) as (_ & Hf & Hc & Hu & Hl).
  split; [now split|]. split.
  - exists [EvMakedirs p]. split; [exact Hl|]. now repeat constructor.
  - rewrite Hf. apply grow_refl.
Qed.

(** The [with] block of a run only adds entries the enumerator ignores:
    output files and, in recursive mode, directories for them. *)
Lemma block_grows_fresh final sched q ss pr ot mm ow f cwd pd rec fich w4 r w5 :
  Posixpath.isabs cwd = true ->
  w_cwd w4 = cwd ->
  FS.is_dir (FS.lookup (w_fs w4)
               (FS.names (Posixpath.abspath cwd (Posixpath.abspath cwd pd)))) = true ->
  Forall (fun fr => exists ds n,
              snd fr = dir_prefix ds ++ n /\ clean n = true
              /\ ext_in_exts n = true /\ (rec = false -> ds = [])) fich ->
  with_executor final
                (corpo sched q ss pr ot mm ow f (Posixpath.abspath cwd pd) fich) w4
  = (r, w5) ->
  same_env w4 w5 /\ grow (fresh rec) (w_fs w4) (w_fs w5).
Proof.
  intros Hcwd Hc4 Hdir HR Hx.
  set (dest := Posixpath.abspath cwd pd) in *.
  set (R := fun rel => exists ds n,
                rel = dir_prefix ds ++ n /\ clean n = true
                /\ ext_in_exts n = true /\ (rec = false -> ds = [])).
  destruct (xinv_corpo (fresh rec) (fresh_stable rec) (writes_ok (fresh rec))
              (fun _ H => H) w4 sched q ss pr ot mm ow f dest R) with (final := final)
              (ficheiros := fich) (r := r) (w' := w5) as (He & G & _); auto.
  - intros rel x rr ww (ds & n & -> & Hn & Hext & Hds) ((Ex & _) & Gx & _) Hd.
    destruct rec.
    + eapply wstep_destino; [exact (fresh_stable true)| |exact Hd].
      intros y m. apply fresh_only_dirs.
    + rewrite (Hds eq_refl) in Hd. simpl in Hd.
      unfold destino_para in Hd.
      destruct (Posixpath.splitext n) as [b e] eqn:Esp.
      assert (Hb : Str.has "/" b = false).
      { replace b with (fst (Posixpath.splitext n)) by now rewrite Esp.
        apply splitext_nosep, (clean_spec _ Hn). }
      rewrite dirname_join_name in Hd.
      * apply bind_inv in Hd.
        assert (K : forall r1 w1, OS.makedirs dest (x_world x) = (r1, w1) ->
                                  wstep (fresh false) (x_world x) w1).
        { intros r1 w1. apply wstep_makedirs_existing.
          rewrite Ex, Hc4.
          destruct (FS.lookup (w_fs w4) _) as [m|] eqn:El; [|discriminate].
          now rewrite (grow_is_dir _ _ _ _ _ Gx El). }
        destruct Hd as [(u & w1 & Hm & Hr)|(e' & Hm & _)].
        -- inversion Hr; subst. eapply K, Hm.
        -- eapply K, Hm.
      * now apply tidy_abspath.
      * rewrite has_app, Hb. now destruct (String.eqb f "jpeg").
  - intros a rel x _ _ _ c. apply saida_name_fresh.
Qed.

(** ** A second run over outputs that are all in place *)

Lemma workers_idle picks x : x_pending x = [] -> workers picks x = (Ok tt, x).
Proof.
  intros Hp. induction picks as [|k r IH]; simpl; [reflexivity|].
  unfold bind, complete. rewrite Hp.
  replace (nth_error [] k) with (@None task) by now destruct k.
  exact IH.
Qed.

Lemma skip_all sched q ss pr ot mm f dest l : forall i w,
  (forall fr, In fr l ->
              FS.stat (w_cwd w) (w_fs w) (saida_de f dest (snd fr)) <> None
              /\ dir_ok (w_cwd w) (w_fs w) (saida_de f dest (snd fr))) ->
  exists w',
    submeter sched q ss pr ot mm false f dest i l
             {| x_world := w; x_pending := []; x_finished := [] |}
    = (Ok tt, {| x_world := w'; x_pending := []; x_finished := [] |})
    /\ w_fs w' = w_fs w /\ w_cwd w' = w_cwd w
    /\ exists evs, w_log w' = (w_log w ++ evs)%list
                   /\ Forall (fun ev => ~ touches ev) evs.
Proof.
  induction l as [|[a rel] rest IH]; intros i w H.
  - exists w. simpl. repeat split. exists []. now rewrite app_nil_r.
  - destruct (H (a, rel) (or_introl eq_refl)) as [He Hd]. simpl in He, Hd.
    cbn [submeter]. unfold bind at 1. rewrite workers_idle by reflexivity.
    unfold bind at 1. unfold lift at 1. cbn [x_world x_pending x_finished].
    assert (Hdp : exists w1,
               destino_para f dest rel w = (Ok (saida_de f dest rel), w1)
               /\ w_fs w1 = w_fs w /\ w_cwd w1 = w_cwd w
               /\ w_log w1 = (w_log w ++ [EvMakedirs (Posixpath.dirname (saida_de f dest rel))])%list).
    { unfold destino_para, saida_de in *.
      destruct (Posixpath.splitext rel) as [b e]. simpl in *.
      unfold bind.
      destruct (OS.makedirs _ w) as [r1 w1] eqn:Em.
      destruct (makedirs_existing _ _ _ _ Hd Em) as (-> & Hf & Hc & _ & Hl).
      exists w1. auto. }
    destruct Hdp as (w1 & -> & Hf1 & Hc1 & Hl1).
    unfold bind at 1. rewrite workers_idle by reflexivity.
    unfold bind at 1. unfold lift at 1, OS.path_exists at 1.
    cbn [x_world x_pending x_finished negb andb].
    rewrite Hf1, Hc1.
    destruct (FS.stat (w_cwd w) (w_fs w) (saida_de f dest rel)) as [m|];
      [|contradiction].
    unfold bind at 1, ret at 1.
    destruct (IH (S i) w1) as (w' & E & Hf & Hc & evs & Hl & Hev).
    { intros fr Hfr. rewrite Hf1, Hc1. apply H. now right. }
    exists w'. split; [exact E|]. split; [congruence|]. split; [congruence|].
    exists ([EvMakedirs (Posixpath.dirname (saida_de f dest rel))] ++ evs)%list.
    split; [now rewrite Hl, Hl1, <- app_assoc|].
    constructor; [simpl; auto|exact Hev].
Qed.

Lemma block_skips_all final sched q ss pr ot mm f dest fich w :
  (forall fr, In fr fich ->
              FS.stat (w_cwd w) (w_fs w) (saida_de f dest (snd fr)) <> None
              /\ dir_ok (w_cwd w) (w_fs w) (saida_de f dest (snd fr))) ->
  exists w',
    with_executor final (corpo sched q ss pr ot mm false f dest fich) w
    = (Ok (0, 0), w')
    /\ w_fs w' = w_fs w /\ w_cwd w' = w_cwd w
    /\ exists evs, w_log w' = (w_log w ++ evs)%list
                   /\ Forall (fun ev => ~ touches ev) evs.
Proof.
  intros H. destruct (skip_all sched q ss pr ot mm f dest fich 0 w H)
    as (w' & E & Hf & Hc & Hl).
  exists w'. unfold with_executor, corpo. unfold bind at 1. rewrite E.
  unfold as_completed, bind. rewrite wait_all_idle by reflexivity.
  unfold lift. cbn [x_world x_pending x_finished contar]. unfold ret.
  rewrite wait_all_idle by reflexivity. auto.
Qed.

(** ** Running the batch twice *)

Lemma quiet_refl w : quiet_step w w.
Proof. repeat split. exists []. now rewrite app_nil_r. Qed.

Lemma quiet_trans a b c : quiet_step a b -> quiet_step b c -> quiet_step a c.
Proof.
  intros (F1 & C1 & e1 & L1 & T1) (F2 & C2 & e2 & L2 & T2).
  split; [congruence|]. split; [congruence|].
  exists (e1 ++ e2)%list. rewrite L2, L1, app_assoc. split; [reflexivity|].
  now apply Forall_app.
Qed.

Lemma quiet_aviso q f w w1 : aviso q f w = (Ok tt, w1) -> quiet_step w w1.
Proof.
  unfold aviso. destruct (_ && _).
  - unfold print, emit. intros [= <-]. repeat split. simpl.
    eexists [_]. split; [reflexivity|]. repeat constructor. auto.
  - intros [= <-]. apply quiet_refl.
Qed.

Lemma quiet_print m w w1 : print m w = (Ok tt, w1) -> quiet_step w w1.
Proof.
  unfold print, emit. intros [= <-]. repeat split. simpl.
  eexists [_]. split; [reflexivity|]. repeat constructor. auto.
Qed.

Lemma quiet_anuncio n po pd f q ss pr ot mm rec ow th w w1 :
  anuncio n po pd f q ss pr ot mm rec ow th w = (Ok tt, w1) -> quiet_step w w1.
Proof.
  unfold anuncio, bind, OS.cpu_count, print, emit. intros [= <-].
  repeat split. simpl. eexists [_; _]. split; [now rewrite <- app_assoc|].
  repeat constructor; auto.
Qed.

Lemma quiet_resumo t w w1 : resumo t w = (Ok tt, w1) -> quiet_step w w1.
Proof.
  unfold resumo, bind, print, emit. intros [= <-].
  repeat split. simpl. eexists [_; _; _]. split; [now rewrite <- !app_assoc|].
  repeat constructor; auto.
Qed.

Lemma quiet_listar p rec w r w1 :
  _listar_ficheiros_heic p rec w = (r, w1) -> quiet_step w w1.
Proof. intros H. destruct (listar_fs _ _ _ _ _ H) as (F & C & L). now split. Qed.

Lemma grow_any ok n n' : grow ok n n' -> grow ok_any n n'.
Proof.
  revert n n'.
  apply (grow_mut ok (fun n n' => grow ok_any n n')
           (fun es es' => grow_entries ok_any es es')).
  - constructor.
  - intros. now constructor.
  - intros new _. constructor. rewrite Forall_forall. reflexivity.
  - intros. now constructor.
Qed.

Lemma set_wf x c es :
  clean x = true -> wf_node c = true -> wf_node (Dir es) = true ->
  wf_node (Dir (FS.set x c es)) = true.
Proof.
  intros Hx Hc. simpl. induction es as [|[y m] es IH]; simpl.
  - intros _. now rewrite Hx, Hc.
  - intros H. apply andb_prop in H. destruct H as [H H3].
    apply andb_prop in H. destruct H as [H1 H2].
    destruct (String.eqb x y); simpl.
    + now rewrite H1, Hc, H3.
    + now rewrite H1, H2, IH.
Qed.

Lemma mkdirs_wf p ns : forall n n',
  Forall (fun x => clean x = true) ns -> wf_node n = true ->
  FS.mkdirs p n ns = Ok n' -> wf_node n' = true.
Proof.
  induction ns as [|x r IH]; intros n n' Hns Hn; destruct n as [c|es];
    cbn [FS.mkdirs]; try discriminate.
  - now intros [= <-].
  - inversion Hns as [|? ? Hx Hr]; subst.
    destruct (FS.mkdirs p _ r) as [c'|e] eqn:E; [|discriminate].
    intros [= <-]. apply set_wf; auto.
    eapply IH; [exact Hr| |exact E].
    destruct (FS.assoc x es) as [c|] eqn:Ea; [|reflexivity].
    eapply wf_assoc; eassumption.
Qed.

Lemma makedirs_wf cwd pd w w' :
  Posixpath.isabs cwd = true -> w_cwd w = cwd -> wf_node (w_fs w) = true ->
  OS.makedirs (Posixpath.abspath cwd pd) w = (Ok tt, w') ->
  wf_node (w_fs w') = true
  /\ w_cwd w' = cwd
  /\ FS.is_dir (FS.lookup (w_fs w')
                  (FS.names (Posixpath.abspath cwd (Posixpath.abspath cwd pd))))
     = true.
Proof.
  intros Hc Hw Hwf. unfold OS.makedirs. rewrite Hw.
  destruct (FS.mkdirs _ _ _) as [fs'|e] eqn:E; [|discriminate].
  unfold emit, with_fs. simpl. intros [= <-]. simpl.
  split; [|split; [exact Hw|eapply mkdirs_is_dir, E]].
  eapply mkdirs_wf; [|exact Hwf|exact E].
  rewrite names_abspath_normal by now apply normal_abspath.
  now apply normal_abspath.
Qed.

Lemma run_batch_fun sched po pd q ss pr ot mm rec ow f th w r1 w1 r2 w2 :
  run_batch sched po pd q ss pr ot mm rec ow f th w r1 w1 ->
  run_batch sched po pd q ss pr ot mm rec ow f th w r2 w2 ->
  r1 = r2 /\ w1 = w2.
Proof.
  intros H1 H2.
  destruct H1; destruct H2;
    repeat match goal with
           | H : ?a = _, H' : ?a = _ |- _ =>
               rewrite H in H'; inversion H'; subst; clear H'
           end;
    try tauto; try congruence; auto.
Qed.

(** The cases of [run] are runs of [converter_heic]. *)
Lemma run_converter_heic sched po pd q ss pr ot mm rec ow fmt th w r w' :
  run sched po pd q ss pr ot mm rec ow fmt th w r w' ->
  converter_heic sched po pd q ss pr ot mm rec ow fmt th w = (r, w').
Proof.
  intros H.
  destruct (converter_heic sched po pd q ss pr ot mm rec ow fmt th w)
    as [r0 w0] eqn:E.
  apply converter_heic_run in E.
  destruct H as [Hd|Hd Hf|w1 r1 w1' Hd Hf Ha Hb];
    destruct E as [Hd'|Hd' Hf'|w2 r2 w2' Hd' Hf' Ha' Hb']; try congruence.
  rewrite Ha in Ha'. inversion Ha'; subst w2.
  destruct (run_batch_fun _ _ _ _ _ _ _ _ _ _ _ _ _ _ _ _ _ Hb Hb'). congruence.
Qed.

Lemma print_ok m w : exists w1, print m w = (Ok tt, w1).
Proof. unfold print, emit. eauto. Qed.

Lemma quiet_makedirs_existing p w r w' :
  FS.is_dir (FS.lookup (w_fs w) (FS.names (Posixpath.abspath (w_cwd w) p))) = true ->
  OS.makedirs p w = (r, w') -> r = Ok tt /\ quiet_step w w'.
Proof.
  intros H E. destruct (makedirs_existing _ _ _ _ H E) as (-> & Hf & Hc & _ & Hl).
  split; [reflexivity|]. split; [exact Hf|]. split; [exact Hc|].
  exists [EvMakedirs p]. split; [exact Hl|]. repeat constructor. auto.
Qed.

Lemma is_dir_stat_grow ok cwd fs fs' p :
  grow ok fs fs' -> FS.is_dir (FS.stat cwd fs p) = true ->
  FS.is_dir (FS.stat cwd fs' p) = true.
Proof.
  intros G H. destruct (FS.stat cwd fs p) as [m|] eqn:E; [|discriminate].
  destruct (grow_stat _ _ _ _ _ _ G E) as (m' & -> & Gm).
  destruct Gm; [discriminate|reflexivity].
Qed.

Lemma is_dir_lookup_grow ok fs fs' ns :
  grow ok fs fs' -> FS.is_dir (FS.lookup fs ns) = true ->
  FS.is_dir (FS.lookup fs' ns) = true.
Proof.
  intros G H. destruct (FS.lookup fs ns) as [m|] eqn:E; [|discriminate].
  now rewrite (grow_is_dir _ _ _ _ _ G E).
Qed.

(** The second of two runs, from what the first one left. *)
Lemma second_run sched po pd q ss pr ot mm rec fmt th w1 cwd fich :
  w_cwd w1 = cwd ->
  FS.is_dir (FS.stat cwd (w_fs w1) po) = true ->
  existsb (String.eqb (Str.lower fmt)) ["jpeg"; "png"] = true ->
  FS.is_dir (FS.lookup (w_fs w1)
               (FS.names (Posixpath.abspath cwd (Posixpath.abspath cwd pd)))) = true ->
  (forall w', w_cwd w' = cwd -> w_fs w' = w_fs w1 ->
              fst (_listar_ficheiros_heic (Posixpath.abspath cwd po) rec w')
              = Ok fich) ->
  (forall fr, In fr fich ->
              FS.stat cwd (w_fs w1)
                      (saida_de (Str.lower fmt) (Posixpath.abspath cwd pd) (snd fr))
              <> None
              /\ dir_ok cwd (w_fs w1)
                        (saida_de (Str.lower fmt) (Posixpath.abspath cwd pd) (snd fr))) ->
  exists w2,
    converter_heic sched po pd q ss pr ot mm rec false fmt th w1 = (Ok (0, 0), w2)
    /\ quiet_step w1 w2.
Proof.
  intros Hc Hd Hf Hdest Hlist Houts.
  destruct (aviso_ok q (Str.lower fmt) w1) as (wa & Ea).
  destruct (quiet_aviso _ _ _ _ Ea) as (Fa & Ca & La).
  assert (Qa : quiet_step w1 wa) by now split.
  rewrite Hc in Ca.
  destruct (OS.makedirs (Posixpath.abspath cwd pd) wa) as [rm wb] eqn:Em.
  destruct (quiet_makedirs_existing _ _ _ _
              ltac:(rewrite Fa, Ca; exact Hdest) Em) as (-> & Qb).
  destruct Qb as (Fb & Cb & Lb). assert (Qb : quiet_step wa wb) by now split.
  destruct (_listar_ficheiros_heic (Posixpath.abspath cwd po) rec wb)
    as [rl wc] eqn:El.
  assert (Hrl : rl = Ok fich).
  { change rl with (fst (rl, wc)). rewrite <- El. apply Hlist; congruence. }
  subst rl. assert (Qc := quiet_listar _ _ _ _ _ El).
  assert (Q3 : quiet_step w1 wc).
  { eapply quiet_trans; [exact Qa|]. eapply quiet_trans; eassumption. }
  destruct fich as [|f0 rest] eqn:Efich.
  - destruct (print_ok (MsgNenhumFicheiro po) wc) as (w2 & Ep).
    exists w2. split.
    + apply run_converter_heic.
      apply (run_started _ _ _ _ _ _ _ _ _ _ _ _ _ wa);
        [now rewrite Hc|exact Hf|exact Ea|].
      apply (run_empty _ _ _ _ _ _ _ _ _ _ _ _ _ wb wc); rewrite ?Ca; assumption.
    + eapply quiet_trans; [exact Q3|]. eapply quiet_print, Ep.
  - rewrite <- Efich in *. assert (Hne : fich <> []) by (rewrite Efich; discriminate).
    clear Efich.
    destruct (anuncio_ok (List.length fich) po pd (Str.lower fmt) q ss pr ot mm
                         rec false th wc) as (w4 & Ean).
    assert (Q4 : quiet_step w1 w4).
    { eapply quiet_trans; [exact Q3|]. eapply quiet_anuncio, Ean. }
    destruct Q4 as (F4 & C4 & L4). assert (Q4 : quiet_step w1 w4) by now split.
    destruct (block_skips_all (sched (2 * List.length fich + 1)) sched q ss pr ot mm
                (Str.lower fmt) (Posixpath.abspath cwd pd) fich w4)
      as (w5 & Ex & F5 & C5 & L5).
    { intros fr Hfr. rewrite F4, C4, Hc. now apply Houts. }
    assert (Q5 : quiet_step w4 w5) by now split.
    destruct (resumo_ok (0, 0) w5) as (w2 & Er).
    exists w2. split.
    + apply run_converter_heic.
      apply (run_started _ _ _ _ _ _ _ _ _ _ _ _ _ wa);
        [now rewrite Hc|exact Hf|exact Ea|].
      apply (run_done _ _ _ _ _ _ _ _ _ _ _ _ _ wb fich wc w4 (0, 0) w5);
        rewrite ?Ca; assumption.
    + eapply quiet_trans; [exact Q4|]. eapply quiet_trans; [exact Q5|].
      eapply quiet_resumo, Er.
Qed.

(** C5. In a well-formed world, with [overwrite] false: when a first run
    returns with no error (so every enumerated file was converted
    successfully, or already had its output), a second run with the same
    arguments, under any scheduling, returns [(0, 0)]; it converts nothing:
    it leaves the file system as it found it and opens, writes and submits
    nothing. *)
Theorem C5_second_run_converts_nothing
        sched1 sched2 pasta_origem pasta_destino qualidade subsampling
        progressivo otimizar manter_metadata recursivo formato threads
        w convertidos w1 :
  wf_world w ->
  converter_heic sched1 pasta_origem pasta_destino qualidade subsampling
                 progressivo otimizar manter_metadata recursivo false formato
                 threads w = (Ok (convertidos, 0), w1) ->
  exists w2,
    converter_heic sched2 pasta_origem pasta_destino qualidade subsampling
                   progressivo otimizar manter_metadata recursivo false formato
                   threads w1 = (Ok (0, 0), w2)
    /\ w_fs w2 = w_fs w1
    /\ Forall (fun ev => ~ touches ev) (news w1 w2).
Proof.
  intros [Hcwd Hwf] H1. apply converter_heic_run in H1.
  inversion H1 as [ | |wa r1 w1' Hd Hf Ha Hb]; subst.
  set (cwd := w_cwd w) in *.
  destruct (quiet_aviso _ _ _ _ Ha) as (Fa & Ca & _). fold cwd in Ca.
  assert (K : exists fich,
             w_cwd w1 = cwd
             /\ grow ok_any (w_fs w) (w_fs w1)
             /\ FS.is_dir (FS.lookup (w_fs w1)
                  (FS.names (Posixpath.abspath cwd
                               (Posixpath.abspath cwd pasta_destino)))) = true
             /\ (forall w', w_cwd w' = cwd -> w_fs w' = w_fs w1 ->
                   fst (_listar_ficheiros_heic
                          (Posixpath.abspath cwd pasta_origem) recursivo w')
                   = Ok fich)
             /\ (forall fr, In fr fich ->
                   FS.stat cwd (w_fs w1)
                     (saida_de (Str.lower formato)
                               (Posixpath.abspath cwd pasta_destino) (snd fr))
                   <> None
                   /\ dir_ok cwd (w_fs w1)
                        (saida_de (Str.lower formato)
                                  (Posixpath.abspath cwd pasta_destino) (snd fr)))).
  { inversion Hb as [ | |wb wc w4 Hm Hl Hp
                     | |wb fich wc w4 t w5 w6 Hm Hl Hne Han Hx Hr]; subst;
      rewrite Ca in *.
    - (* nothing was found *)
      destruct (makedirs_wf cwd pasta_destino wa wb Hcwd Ca
                  ltac:(now rewrite Fa) Hm) as (Wb & Cb & Db).
      assert (Gb : grow ok_any (w_fs w) (w_fs wb)).
      { rewrite <- Fa. apply (wstep_any_makedirs _ _ _ _ Hm). }
      destruct (quiet_listar _ _ _ _ _ Hl) as (Fc & Cc & _).
      destruct (quiet_print _ _ _ Hp) as (F1 & C1 & _).
      assert (E1 : w_fs w1 = w_fs wb) by congruence.
      exists []. rewrite E1. split; [congruence|]. split; [exact Gb|].
      split; [exact Db|]. split; [|intros fr []].
      intros w' Hc' Hf'.
      rewrite (listar_pure _ _ w' wb) by congruence. now rewrite Hl.
    - (* the pool ran *)
      destruct (makedirs_wf cwd pasta_destino wa wb Hcwd Ca
                  ltac:(now rewrite Fa) Hm) as (Wb & Cb & Db).
      assert (Gb : grow ok_any (w_fs w) (w_fs wb)).
      { rewrite <- Fa. apply (wstep_any_makedirs _ _ _ _ Hm). }
      destruct (quiet_listar _ _ _ _ _ Hl) as (Fc & Cc & _).
      destruct (quiet_anuncio _ _ _ _ _ _ _ _ _ _ _ _ _ _ Han) as (F4 & C4 & _).
      destruct (quiet_resumo _ _ _ Hr) as (F1 & C1 & _).
      assert (E4 : w_fs w4 = w_fs wb) by congruence.
      assert (Ec4 : w_cwd w4 = cwd) by congruence.
      assert (HR : Forall (fun fr => exists ds n,
                     snd fr = dir_prefix ds ++ n /\ clean n = true
                     /\ ext_in_exts n = true /\ (recursivo = false -> ds = []))
                          fich).
      { rewrite Forall_forall. intros [a rel] Hin. simpl.
        eapply listar_in; [|exact Hl|exact Hin]. split; [now rewrite Cb|exact Wb]. }
      destruct (block_grows_fresh _ _ _ _ _ _ _ _ _ cwd pasta_destino recursivo
                  fich w4 _ w5 Hcwd Ec4 ltac:(now rewrite E4) HR Hx)
        as ((Ec5 & _) & G5).
      destruct (block_leaves_outputs _ _ _ _ _ _ _ _ _ _ _ _ _ Hx) as (_ & Houts).
      rewrite Ec4 in Houts.
      exists fich. rewrite F1. split; [congruence|]. split.
      { eapply grow_trans; [exact ok_any_stable|exact Gb|].
        rewrite <- E4. eapply grow_any, G5. }
      split.
      { eapply is_dir_lookup_grow; [exact G5|]. now rewrite E4. }
      split; [|exact Houts].
      intros w' Hc' Hf'.
      apply (listar_grow _ _ wb w'); [congruence| |now rewrite Hl|exact Hne].
      rewrite Hf', <- E4. exact G5. }
  destruct K as (fich & Hc1 & G1 & Hdest & Hlist & Houts).
  destruct (second_run sched2 pasta_origem pasta_destino qualidade subsampling
              progressivo otimizar manter_metadata recursivo formato threads
              w1 cwd fich Hc1) as (w2 & E2 & F2 & _ & evs & L2 & T2); auto.
  { eapply is_dir_stat_grow; eassumption. }
  exists w2. split; [exact E2|]. split; [exact F2|].
  now rewrite (news_app _ _ _ L2).
Qed.

Lemma C5_second_run_converts_nothing_witness :
  exists w2,
    converter_heic sched_imediato "/s" "out" 90 0 true true true true false
                   "JPEG" None
                   (snd (converter_heic sched_tardio "/s" "out" 90 0 true true
                                        true true false "JPEG" None
                                        (mundo fs_duas_fotos)))
    = (Ok (0, 0), w2)
    /\ w_fs w2
       = w_fs (snd (converter_heic sched_tardio "/s" "out" 90 0 true true
                                   true true false "JPEG" None
                                   (mundo fs_duas_fotos)))
    /\ Forall (fun ev => ~ touches ev)
              (news (snd (converter_heic sched_tardio "/s" "out" 90 0 true true
                                         true true false "JPEG" None
                                         (mundo fs_duas_fotos))) w2).
Proof.
  apply (C5_second_run_converts_nothing
           sched_tardio sched_imediato "/s" "out" 90 0 true true true true
           "JPEG" None (mundo fs_duas_fotos) 2).
  - split; reflexivity.
  - vm_compute. reflexivity.
Defined.

(** * Further properties of the program *)

(** ** One conversion *)

Lemma open_inv p w im w1 :
  Image.open p w = (Ok im, w1) ->
  exists c, FS.stat (w_cwd w) (w_fs w) p = Some (File c)
            /\ PIL.decode c = Some im
            /\ w_fs w1 = w_fs w /\ w_cwd w1 = w_cwd w
            /\ w_log w1 = (w_log w ++ [EvOpen p])%list.
Proof.
  unfold Image.open.
  destruct (FS.stat _ _ _) as [[c|?]|]; try discriminate.
  destruct (PIL.decode c) as [im'|] eqn:Ed; [|discriminate].
  unfold bind, emit, ret. intros [= <- <-]. simpl. eauto 10.
Qed.

Lemma open_fails p w e w1 : Image.open p w = (Raise e, w1) -> w1 = w.
Proof.
  unfold Image.open.
  destruct (FS.stat _ _ _) as [[c|?]|]; try (now intros [= _ <-]).
  destruct (PIL.decode c); [|now intros [= _ <-]].
  unfold bind, emit, ret. discriminate.
Qed.

(** X2. [_salvar_imagem] compares the format as it is given: for any other
    string than ["jpeg"] and ["png"] (["JPEG"] is one) it raises and writes
    nothing; the exception is the [ValueError] of line 79 when the input
    could be opened, and the error of [Image.open] otherwise. *)
Theorem salvar_formato_nao_suportado entrada saida formato q ss pr ot mm w :
  String.eqb formato "jpeg" = false -> String.eqb formato "png" = false ->
  exists e w',
    _salvar_imagem entrada saida formato q ss pr ot mm w = (Raise e, w')
    /\ w_fs w' = w_fs w
    /\ match fst (Image.open entrada w) with
       | Ok _ => e = ValueError "Formato nao suportado"
                 /\ news w w' = [EvOpen entrada]
       | Raise e0 => e = e0 /\ w' = w
       end.
Proof.
  intros Hj Hp. unfold _salvar_imagem, bind.
  destruct (Image.open entrada w) as [[im|e0] w1] eqn:Eo; simpl.
  - rewrite Hj, Hp. unfold raise.
    destruct (open_inv _ _ _ _ Eo) as (c & _ & _ & Hf & _ & Hl).
    eexists _, _. split; [reflexivity|]. split; [exact Hf|].
    split; [reflexivity|]. now apply news_app.
  - apply open_fails in Eo. subst w1. exists e0, w. auto.
Qed.

Lemma salvar_formato_nao_suportado_witness :
  exists e w',
    _salvar_imagem "/s/a.heic" "/out/a.jpg" "JPEG" 95 0 true true true
                   (mundo fs_exemplo) = (Raise e, w')
    /\ w_fs w' = w_fs (mundo fs_exemplo)
    /\ match fst (Image.open "/s/a.heic" (mundo fs_exemplo)) with
       | Ok _ => e = ValueError "Formato nao suportado"
                 /\ news (mundo fs_exemplo) w' = [EvOpen "/s/a.heic"]
       | Raise e0 => e = e0 /\ w' = mundo fs_exemplo
       end.
Proof.
  apply (salvar_formato_nao_suportado "/s/a.heic" "/out/a.jpg" "JPEG" 95 0 true
           true true (mundo fs_exemplo) eq_refl eq_refl).
Defined.

Lemma save_inv im p params w w' :
  Image.save im p params w = (Ok tt, w') ->
  exists c, PIL.encode im params = Ok c
            /\ FS.stat (w_cwd w') (w_fs w') p = Some (File c)
            /\ news w w' = [EvSave p c] /\ w_cwd w' = w_cwd w.
Proof.
  intros H. assert (H' := H). unfold Image.save in H.
  destruct (PIL.encode im params) as [c|e] eqn:Ee; [|discriminate].
  exists c. split; [reflexivity|]. split; [eapply write_file_stat, H|].
  destruct (save_news _ _ _ _ _ _ H') as [Hn|(c' & Hc & Hn)].
  - exfalso. revert H Hn. unfold OS.write_file.
    destruct (Posixpath.split_raw p) as [head name].
    destruct (OS.bad_name name); [discriminate|].
    destruct (FS.resolve _ _ _) as [ns|]; [|discriminate].
    destruct (FS.lookup _ ns) as [[c0|es]|]; try discriminate.
    destruct (FS.assoc name es) as [[c0|?]|]; try discriminate;
      unfold emit; simpl; intros [= <-];
      rewrite (news_app _ _ [EvSave p c]) by reflexivity; discriminate.
  - rewrite Ee in Hc. injection Hc as <-. split; [exact Hn|].
    destruct (wstep_write_file ok_any ok_any_stable p c eq_refl _ _ _ H)
      as ((Hc & _) & _). exact Hc.
Qed.

(** X3. A successful JPEG conversion reads the input once and writes the
    output once: the file at [caminho_saida] afterwards is a JPEG encoded
    with exactly the quality, subsampling, optimisation and progressive
    options of the call, of the decoded picture after [exif_transpose] and
    the conversion to RGB, in that order. *)
Theorem salvar_jpeg_escreve entrada saida q ss pr ot mm w w' :
  _salvar_imagem entrada saida "jpeg" q ss pr ot mm w = (Ok tt, w') ->
  exists c im f,
    FS.stat (w_cwd w) (w_fs w) entrada = Some (File c)
    /\ PIL.decode c = Some im
    /\ FS.stat (w_cwd w) (w_fs w') saida = Some (File (Jpeg f))
    /\ news w w' = [EvOpen entrada; EvSave saida (Jpeg f)]
    /\ jf_quality f = Some q /\ jf_subsampling f = Some ss
    /\ jf_optimize f = Some ot /\ jf_progressive f = Some pr
    /\ im_mode (jf_image f) = ModeRGB
    /\ im_pixels (jf_image f)
       = Converted ModeRGB (im_pixels (PIL.exif_transpose im)).
Proof.
  intros H. unfold _salvar_imagem in H. apply bind_inv in H.
  destruct H as [(im & w1 & Ho & Hs)|(e & _ & [=])].
  destruct (open_inv _ _ _ _ Ho) as (c & Hst & Hd & Hf & Hc & Hl).
  cbv zeta in Hs. change (String.eqb "jpeg" "jpeg") with true in Hs. cbv iota in Hs.
  destruct (save_inv _ _ _ _ _ Hs) as (c' & He & Hst' & Hn & Hc').
  exists c, im.
  assert (K : exists f, c' = Jpeg f
                /\ jf_quality f = Some q /\ jf_subsampling f = Some ss
                /\ jf_optimize f = Some ot /\ jf_progressive f = Some pr
                /\ im_mode (jf_image f) = ModeRGB
                /\ im_pixels (jf_image f)
                   = Converted ModeRGB (im_pixels (PIL.exif_transpose im))).
  { revert He. unfold PIL.encode.
    repeat (destruct (truthy _)); simpl; intros [= <-]; eexists;
      (split; [reflexivity|]); simpl; auto 10. }
  destruct K as (f & -> & K). exists f.
  split; [exact Hst|]. split; [exact Hd|].
  split; [now rewrite <- Hc, <- Hc'|]. split; [|exact K].
  assert (Hl' : w_log w' = (w_log w1 ++ [EvSave saida (Jpeg f)])%list).
  { revert Hn. unfold news. intros Hn.
    destruct (wstep_save ok_any ok_any_stable _ _ _ (fun _ => eq_refl) _ _ _ Hs)
      as (_ & (l & Hl' & _) & _).
    rewrite Hl' in Hn |- *. rewrite skipn_app, skipn_all, Nat.sub_diag in Hn.
    simpl in Hn. now subst l. }
  apply news_app. rewrite Hl', Hl, <- app_assoc. reflexivity.
Qed.

Lemma salvar_jpeg_escreve_witness :
  exists c im f,
    FS.stat "/" fs_exemplo "/s/a.heic" = Some (File c)
    /\ PIL.decode c = Some im
    /\ FS.stat "/" (w_fs (snd (_salvar_imagem "/s/a.heic" "/s/a.jpg" "jpeg" 90 2
                                              false true true (mundo fs_exemplo))))
               "/s/a.jpg" = Some (File (Jpeg f))
    /\ news (mundo fs_exemplo)
            (snd (_salvar_imagem "/s/a.heic" "/s/a.jpg" "jpeg" 90 2
                                 false true true (mundo fs_exemplo)))
       = [EvOpen "/s/a.heic"; EvSave "/s/a.jpg" (Jpeg f)]
    /\ jf_quality f = Some 90%Z /\ jf_subsampling f = Some 2%Z
    /\ jf_optimize f = Some true /\ jf_progressive f = Some false
    /\ im_mode (jf_image f) = ModeRGB
    /\ im_pixels (jf_image f)
       = Converted ModeRGB (im_pixels (PIL.exif_transpose im)).
Proof.
  apply (salvar_jpeg_escreve "/s/a.heic" "/s/a.jpg" 90 2 false true true
           (mundo fs_exemplo)
           (snd (_salvar_imagem "/s/a.heic" "/s/a.jpg" "jpeg" 90 2
                                false true true (mundo fs_exemplo)))).
  vm_compute. reflexivity.
Defined.

(** X4. A successful PNG conversion writes, at [caminho_saida], a PNG of
    the decoded picture after [exif_transpose] only: the mode of the input
    is kept (an alpha channel is not dropped) and the pixels are not
    converted; quality, subsampling, optimisation and progressive options
    play no part. *)
Theorem salvar_png_escreve entrada saida q ss pr ot mm w w' :
  _salvar_imagem entrada saida "png" q ss pr ot mm w = (Ok tt, w') ->
  exists c im out,
    FS.stat (w_cwd w) (w_fs w) entrada = Some (File c)
    /\ PIL.decode c = Some im
    /\ FS.stat (w_cwd w) (w_fs w') saida = Some (File (Png out))
    /\ news w w' = [EvOpen entrada; EvSave saida (Png out)]
    /\ im_mode out = im_mode im
    /\ im_pixels out = im_pixels (PIL.exif_transpose im)
    /\ snd (_salvar_imagem entrada saida "png" 0 0 false false mm w) = w'.
Proof.
  intros H. assert (H0 := H). unfold _salvar_imagem in H. apply bind_inv in H.
  destruct H as [(im & w1 & Ho & Hs)|(e & _ & [=])].
  destruct (open_inv _ _ _ _ Ho) as (c & Hst & Hd & Hf & Hc & Hl).
  cbv zeta in Hs. change (String.eqb "png" "jpeg") with false in Hs.
  change (String.eqb "png" "png") with true in Hs. cbv iota in Hs.
  destruct (save_inv _ _ _ _ _ Hs) as (c' & He & Hst' & Hn & Hc').
  exists c, im.
  assert (K : exists out, c' = Png out
                /\ im_mode out = im_mode im
                /\ im_pixels out = im_pixels (PIL.exif_transpose im)).
  { revert He. unfold PIL.encode.
    assert (Hm : im_mode (PIL.exif_transpose im) = im_mode im).
    { unfold PIL.exif_transpose. now destruct (_ && _). }
    destruct (truthy _); simpl; destruct (PIL.png_writes _); try discriminate;
      intros [= <-]; eexists; (split; [reflexivity|]); simpl; auto. }
  destruct K as (out & -> & K1 & K2). exists out.
  split; [exact Hst|]. split; [exact Hd|].
  split; [now rewrite <- Hc, <- Hc'|]. split; [|].
  - assert (Hl' : w_log w' = (w_log w1 ++ [EvSave saida (Png out)])%list).
    { revert Hn. unfold news. intros Hn.
      destruct (wstep_save ok_any ok_any_stable _ _ _ (fun _ => eq_refl) _ _ _ Hs)
        as (_ & (l & Hl' & _) & _).
      rewrite Hl' in Hn |- *. rewrite skipn_app, skipn_all, Nat.sub_diag in Hn.
      simpl in Hn. now subst l. }
    apply news_app. rewrite Hl', Hl, <- app_assoc. reflexivity.
  - split; [exact K1|]. split; [exact K2|].
    change (_salvar_imagem entrada saida "png" 0 0 false false mm w)
      with (_salvar_imagem entrada saida "png" q ss pr ot mm w).
    now rewrite H0.
Qed.

Lemma salvar_png_escreve_witness :
  exists c im out,
    FS.stat "/" fs_exemplo "/s/a.heic" = Some (File c)
    /\ PIL.decode c = Some im
    /\ FS.stat "/" (w_fs (snd (_salvar_imagem "/s/a.heic" "/s/a.png" "png" 90 2
                                              false true true (mundo fs_exemplo))))
               "/s/a.png" = Some (File (Png out))
    /\ news (mundo fs_exemplo)
            (snd (_salvar_imagem "/s/a.heic" "/s/a.png" "png" 90 2
                                 false true true (mundo fs_exemplo)))
       = [EvOpen "/s/a.heic"; EvSave "/s/a.png" (Png out)]
    /\ im_mode out = im_mode im
    /\ im_pixels out = im_pixels (PIL.exif_transpose im)
    /\ snd (_salvar_imagem "/s/a.heic" "/s/a.png" "png" 0 0 false false true
                           (mundo fs_exemplo))
       = snd (_salvar_imagem "/s/a.heic" "/s/a.png" "png" 90 2
                             false true true (mundo fs_exemplo)).
Proof.
  apply (salvar_png_escreve "/s/a.heic" "/s/a.png" 90 2 false true true
           (mundo fs_exemplo)
           (snd (_salvar_imagem "/s/a.heic" "/s/a.png" "png" 90 2
                                false true true (mundo fs_exemplo)))).
  vm_compute. reflexivity.
Defined.

(** ** What a run leaves in place *)

Lemma evolves_trans a b c : evolves a b -> evolves b c -> evolves a c.
Proof.
  intros [[E1 E2] G] [[E1' E2'] G']. split; [split; congruence|].
  eapply grow_trans; eauto using ok_any_stable.
Qed.

Lemma wstep_evolves w w' : wstep ok_any w w' -> evolves w w'.
Proof. intros (E & _ & G). now split. Qed.

Lemma block_evolves final sched q ss pr ot mm ow f dest fich w r w' :
  with_executor final (corpo sched q ss pr ot mm ow f dest fich) w = (r, w') ->
  evolves w w'.
Proof.
  intros Hx.
  destruct (xinv_corpo ok_any ok_any_stable (fun _ => True) (fun _ _ _ => eq_refl) w
              sched q ss pr ot mm ow f dest (fun _ => True)) with
    (final := final) (ficheiros := fich) (r := r) (w' := w') as (E & G & _); auto.
  - intros rel x rr ww _ _. apply wstep_any_destino.
  - rewrite Forall_forall. auto.
  - now split.
Qed.

Lemma run_evolves sched po pd q ss pr ot mm rec ow fmt th w r w' :
  run sched po pd q ss pr ot mm rec ow fmt th w r w' -> evolves w w'.
Proof.
  assert (R : forall w, evolves w w) by (intros; apply wstep_evolves, wstep_refl).
  intros [Hd|Hd Hf|w1 r1 w1' Hd Hf Ha Hb]; auto.
  eapply evolves_trans; [eapply wstep_evolves, (wstep_aviso ok_any), Ha|].
  destruct Hb as [e w2 Hm|w2 e w3 Hm Hl|w2 w3 w4 Hm Hl Hp
                  |w2 fich w3 w4 e w5 Hm Hl Hne Han Hw
                  |w2 fich w3 w4 t w5 w6 Hm Hl Hne Han Hw Hr].
  - eapply wstep_evolves, wstep_any_makedirs, Hm.
  - eapply evolves_trans; [eapply wstep_evolves, wstep_any_makedirs, Hm|].
    eapply wstep_evolves, wstep_listar, Hl. exact ok_any_stable.
  - eapply evolves_trans; [eapply wstep_evolves, wstep_any_makedirs, Hm|].
    eapply evolves_trans;
      [eapply wstep_evolves, wstep_listar, Hl; exact ok_any_stable|].
    eapply wstep_evolves, (wstep_print ok_any), Hp.
  - eapply evolves_trans; [eapply wstep_evolves, wstep_any_makedirs, Hm|].
    eapply evolves_trans;
      [eapply wstep_evolves, wstep_listar, Hl; exact ok_any_stable|].
    eapply evolves_trans; [eapply wstep_evolves, (wstep_anuncio ok_any), Han|].
    eapply block_evolves, Hw.
  - eapply evolves_trans; [eapply wstep_evolves, wstep_any_makedirs, Hm|].
    eapply evolves_trans;
      [eapply wstep_evolves, wstep_listar, Hl; exact ok_any_stable|].
    eapply evolves_trans; [eapply wstep_evolves, (wstep_anuncio ok_any), Han|].
    eapply evolves_trans; [eapply block_evolves, Hw|].
    eapply wstep_evolves, (wstep_resumo ok_any), Hr.
Qed.

(** X5. A run never removes or renames anything, and never turns a file
    into a directory or a directory into a file, whatever its arguments,
    the scheduling and its outcome (also when it raises): a path that
    names a regular file before the run names a regular file after it, a
    path that names a directory still names a directory; the current
    directory is the same. *)
Theorem run_keeps_what_exists
        sched pasta_origem pasta_destino qualidade subsampling progressivo
        otimizar manter_metadata recursivo overwrite formato threads w r w' p n :
  converter_heic sched pasta_origem pasta_destino qualidade subsampling
                 progressivo otimizar manter_metadata recursivo overwrite
                 formato threads w = (r, w') ->
  FS.stat (w_cwd w) (w_fs w) p = Some n ->
  w_cwd w' = w_cwd w
  /\ exists n', FS.stat (w_cwd w') (w_fs w') p = Some n'
                /\ match n, n' with
                   | File _, File _ => True
                   | Dir es, Dir es' =>
                       forall x, FS.assoc x es <> None -> FS.assoc x es' <> None
                   | _, _ => False
                   end.
Proof.
  intros H Hs. apply converter_heic_run, run_evolves in H.
  destruct H as [[Hc _] G]. split; [exact Hc|]. rewrite Hc.
  destruct (grow_stat _ _ _ _ _ _ G Hs) as (n' & Hs' & Gn).
  exists n'. split; [exact Hs'|].
  destruct Gn as [c c'|es es' Ge]; [exact I|].
  intros x Hx. destruct (FS.assoc x es) as [m|] eqn:Em; [|congruence].
  destruct (grow_assoc _ _ _ Ge _ _ Em) as (m' & -> & _). discriminate.
Qed.

Lemma run_keeps_what_exists_witness :
  w_cwd (snd (converter_heic sched_tardio "/s" "out" 90 0 true true true true
                             true "jpeg" None (mundo fs_duas_fotos))) = "/"
  /\ exists n',
      FS.stat (w_cwd (snd (converter_heic sched_tardio "/s" "out" 90 0 true true
                                          true true true "jpeg" None
                                          (mundo fs_duas_fotos))))
              (w_fs (snd (converter_heic sched_tardio "/s" "out" 90 0 true true
                                         true true true "jpeg" None
                                         (mundo fs_duas_fotos))))
              "/s/sub" = Some n'
      /\ match Dir [("b.HEIF", File (foto 2))], n' with
         | File _, File _ => True
         | Dir es, Dir es' =>
             forall x, FS.assoc x es <> None -> FS.assoc x es' <> None
         | _, _ => False
         end.
Proof.
  apply (run_keeps_what_exists
           sched_tardio "/s" "out" 90 0 true true true true true "jpeg" None
           (mundo fs_duas_fotos)
           (fst (converter_heic sched_tardio "/s" "out" 90 0 true true true true
                                true "jpeg" None (mundo fs_duas_fotos)))
           (snd (converter_heic sched_tardio "/s" "out" 90 0 true true true true
                                true "jpeg" None (mundo fs_duas_fotos)))
           "/s/sub" (Dir [("b.HEIF", File (foto 2))])).
  - vm_compute. reflexivity.
  - vm_compute. reflexivity.
Defined.

(** ** Extensions *)

Lemma splitext_ext rel e :
  Str.all_are "." (snd (Posixpath.split_raw rel)) = false ->
  Str.has "." e = false -> Str.has "/" e = false ->
  Posixpath.splitext (rel ++ String "." e) = (rel, String "." e).
Proof.
  intros Hs Hd Hsl. unfold Posixpath.splitext.
  rewrite split_raw_app by (simpl; exact Hsl).
  destruct (split_raw_spec rel) as [Hrel _].
  destruct (Posixpath.split_raw rel) as [head name]. simpl in *.
  unfold Posixpath.extsep. rewrite (rcut_last "." name e Hd), Hs.
  now rewrite <- Hrel.
Qed.

Lemma lower_has_dot s : Str.has "." (Str.lower s) = Str.has "." s.
Proof.
  induction s as [|c s IH]; simpl; [reflexivity|]. rewrite IH. f_equal.
  destruct c as [[] [] [] [] [] [] [] []]; reflexivity.
Qed.

Lemma lower_has_sep s : Str.has "/" (Str.lower s) = Str.has "/" s.
Proof.
  induction s as [|c s IH]; simpl; [reflexivity|]. rewrite IH. f_equal.
  destruct c as [[] [] [] [] [] [] [] []]; reflexivity.
Qed.

Lemma lower_dot_inv s r : Str.lower s = String "." r ->
  exists e, s = String "." e /\ Str.lower e = r.
Proof.
  destruct s as [|c s]; simpl; [discriminate|]. intros [= Hc Hr].
  exists s. split; [|exact Hr]. f_equal.
  destruct c as [[] [] [] [] [] [] [] []]; try discriminate; reflexivity.
Qed.

(** X6. Which names the enumerator recognises: a name (without slash) is
    recognised exactly when it is [stem.ext] where [ext], in lower case, is
    [heic] or [heif] and [stem] has a character that is not a dot.  The
    case of the letters does not matter; a name like [.heic], whose only
    dots are leading ones, is not recognised. *)
Theorem ext_in_exts_iff f :
  Str.has "/" f = false ->
  ext_in_exts f = true
  <-> exists stem e,
        f = stem ++ String "." e
        /\ Str.all_are "." stem = false
        /\ (Str.lower e = "heic" \/ Str.lower e = "heif").
Proof.
  intros Hf. unfold ext_in_exts, exts. split.
  - intros H. simpl in H. rewrite orb_false_r in H.
    unfold Posixpath.splitext in H. rewrite (split_raw_name _ Hf) in H.
    unfold Posixpath.extsep in H.
    destruct (Str.rcut "." f) as [[stem ext]|] eqn:Er; [|discriminate].
    destruct (Str.all_are "." stem) eqn:Ea; [discriminate|]. simpl in H.
    destruct (rcut_spec _ _ _ _ Er) as (Hfe & q & -> & Hq).
    exists stem, q. split; [exact Hfe|]. split; [exact Ea|].
    apply orb_true_iff in H.
    destruct H as [H|H]; apply String.eqb_eq in H;
      apply (lower_dot_inv (String "." q)) in H;
      destruct H as (e & [= <-] & He); auto.
  - intros (stem & e & -> & Ha & He).
    assert (Hd : Str.has "." e = false).
    { rewrite <- lower_has_dot. destruct He as [-> | ->]; reflexivity. }
    assert (Hs : Str.has "/" e = false).
    { rewrite <- lower_has_sep. destruct He as [-> | ->]; reflexivity. }
    assert (Hst : Str.has "/" stem = false).
    { rewrite has_app in Hf. now apply orb_false_iff in Hf. }
    rewrite splitext_ext; auto.
    2:{ now rewrite (split_raw_name _ Hst). }
    simpl. change (Str.lower_ascii ".") with "."%char.
    destruct He as [-> | ->]; reflexivity.
Qed.

Lemma ext_in_exts_iff_witness :
  ext_in_exts "IMG_1.tar.HeIc" = true
  <-> exists stem e,
        "IMG_1.tar.HeIc" = stem ++ String "." e
        /\ Str.all_are "." stem = false
        /\ (Str.lower e = "heic" \/ Str.lower e = "heif").
Proof. apply (ext_in_exts_iff "IMG_1.tar.HeIc" eq_refl). Defined.



(** X8. The enumerator on a path that is not a directory: with recursion
    it yields nothing and raises nothing ([os.walk] ignores the error);
    without recursion it raises the error of [os.listdir],
    [FileNotFoundError] when nothing is there and [NotADirectoryError] when
    a file is, and leaves the world as it was. *)
Theorem listar_fora_de_pasta p w :
  FS.is_dir (FS.stat (w_cwd w) (w_fs w) (Posixpath.abspath (w_cwd w) p)) = false ->
  fst (_listar_ficheiros_heic p true w) = Ok []
  /\ _listar_ficheiros_heic p false w
     = (Raise (match FS.stat (w_cwd w) (w_fs w) (Posixpath.abspath (w_cwd w) p) with
               | None => FileNotFoundError (Posixpath.abspath (w_cwd w) p)
               | Some _ => NotADirectoryError (Posixpath.abspath (w_cwd w) p)
               end), w).
Proof.
  intros H. unfold _listar_ficheiros_heic, bind, OS.path_abspath, OS.walk, OS.listdir.
  simpl. destruct (FS.stat _ _ _) as [[c|es]|]; try discriminate; simpl; auto.
Qed.

Lemma listar_fora_de_pasta_witness :
  fst (_listar_ficheiros_heic "/s/n.txt" true (mundo fs_exemplo)) = Ok []
  /\ _listar_ficheiros_heic "/s/n.txt" false (mundo fs_exemplo)
     = (Raise (match FS.stat (w_cwd (mundo fs_exemplo)) (w_fs (mundo fs_exemplo))
                             (Posixpath.abspath (w_cwd (mundo fs_exemplo)) "/s/n.txt") with
               | None => FileNotFoundError
                           (Posixpath.abspath (w_cwd (mundo fs_exemplo)) "/s/n.txt")
               | Some _ => NotADirectoryError
                             (Posixpath.abspath (w_cwd (mundo fs_exemplo)) "/s/n.txt")
               end), mundo fs_exemplo).
Proof. apply (listar_fora_de_pasta "/s/n.txt" (mundo fs_exemplo) eq_refl). Defined.

(** ** The log of a run *)

Lemma prints_app a b : prints (a ++ b) = (prints a ++ prints b)%list.
Proof.
  induction a as [|e a IH]; simpl; [reflexivity|].
  destruct e; simpl; now rewrite IH.
Qed.

Lemma saves_app a b : saves (a ++ b) = (saves a ++ saves b)%list.
Proof.
  induction a as [|e a IH]; simpl; [reflexivity|].
  destruct e; simpl; now rewrite IH.
Qed.

Lemma mute_nil : mute [].
Proof. repeat split. Qed.

Lemma mute_app a b : mute a -> mute b -> mute (a ++ b).
Proof.
  intros (A1 & A2 & A3 & A4) (B1 & B2 & B3 & B4). unfold mute.
  now rewrite prints_app, saves_app, submitted_app, completed_app,
    A1, A2, A3, A4, B1, B2, B3, B4.
Qed.

Lemma quietly_ret {A} (a : A) : quietly (ret a).
Proof. intros w r w' [= _ <-]. exists []. rewrite app_nil_r. auto using mute_nil. Qed.

Lemma quietly_read {A} (f : world -> A) : quietly (fun w => (Ok (f w), w)).
Proof. intros w r w' [= _ <-]. exists []. rewrite app_nil_r. auto using mute_nil. Qed.

Lemma quietly_bind {A B} (m : M world A) (k : A -> M world B) :
  quietly m -> (forall a, quietly (k a)) -> quietly (bind m k).
Proof.
  intros Hm Hk w r w' H. apply bind_inv in H.
  destruct H as [(a & w1 & H1 & H2)|(e & H1 & _)]; [|eauto].
  destruct (Hm _ _ _ H1) as (e1 & L1 & M1).
  destruct (Hk a _ _ _ H2) as (e2 & L2 & M2).
  exists (e1 ++ e2)%list. rewrite L2, L1, app_assoc. auto using mute_app.
Qed.

Lemma quietly_makedirs p : quietly (OS.makedirs p).
Proof.
  intros w r w'. unfold OS.makedirs.
  destruct (FS.mkdirs _ _ _) as [fs'|e].
  - unfold emit. simpl. intros [= _ <-]. simpl. exists [EvMakedirs p].
    split; [reflexivity|repeat split].
  - intros [= _ <-]. exists []. rewrite app_nil_r. auto using mute_nil.
Qed.

Lemma quietly_destino f dest rel : quietly (destino_para f dest rel).
Proof.
  unfold destino_para. destruct (Posixpath.splitext rel) as [nome_base ext].
  apply quietly_bind; [apply quietly_makedirs|intros _; apply quietly_ret].
Qed.

Lemma quietly_listar p rec : quietly (_listar_ficheiros_heic p rec).
Proof.
  unfold _listar_ficheiros_heic.
  apply quietly_bind; [apply quietly_read|intros pa].
  destruct rec.
  - apply quietly_bind; [|intros t].
    + intros w r w'. unfold OS.walk.
      destruct (FS.stat _ _ _) as [n|].
      * unfold bind, emit, ret. simpl. intros [= _ <-]. simpl.
        exists [EvWalk pa]. split; [reflexivity|repeat split].
      * intros [= _ <-]. exists []. rewrite app_nil_r. auto using mute_nil.
    + apply quietly_bind; [apply quietly_read|intros c; apply quietly_ret].
  - apply quietly_bind; [|intros t; apply quietly_ret].
    intros w r w'. unfold OS.listdir.
    destruct (FS.stat _ _ _) as [[c|es]|];
      try solve [intros [= _ <-]; exists []; rewrite app_nil_r; auto using mute_nil].
    unfold bind, emit, ret. simpl. intros [= _ <-]. simpl.
    exists [EvListdir pa]. split; [reflexivity|repeat split].
Qed.

(** The events of one conversion. *)
Lemma salvar_events entrada saida f q ss pr ot mm w r w' :
  _salvar_imagem entrada saida f q ss pr ot mm w = (r, w') ->
  exists evs, w_log w' = (w_log w ++ evs)%list
    /\ (evs = [] \/ evs = [EvOpen entrada]
        \/ exists c, evs = [EvOpen entrada; EvSave saida c]).
Proof.
  intros H. unfold _salvar_imagem in H. apply bind_inv in H.
  destruct H as [(im & w1 & Ho & Hs)|(e & Ho & _)].
  2:{ apply open_fails in Ho. subst w'. exists []. rewrite app_nil_r. auto. }
  destruct (open_inv _ _ _ _ Ho) as (c & _ & _ & _ & _ & Hl).
  cbv zeta in Hs.
  assert (K : forall im' params, Image.save im' saida params w1 = (r, w') ->
            exists evs, w_log w' = (w_log w ++ evs)%list
              /\ (evs = [] \/ evs = [EvOpen entrada]
                  \/ exists c, evs = [EvOpen entrada; EvSave saida c])).
  { intros im' params Hsv.
    destruct (wstep_save ok_any ok_any_stable im' saida params
                         (fun _ => eq_refl) _ _ _ Hsv) as (_ & (l & Hl' & _) & _).
    assert (Hn := news_app _ _ _ Hl').
    exists ([EvOpen entrada] ++ l)%list. rewrite Hl', Hl, <- app_assoc.
    split; [reflexivity|].
    destruct (save_news _ _ _ _ _ _ Hsv) as [Hn'|(c' & _ & Hn')];
      rewrite Hn' in Hn; subst l; simpl; eauto. }
  destruct (String.eqb f "jpeg"); [eapply K, Hs|].
  destruct (String.eqb f "png"); [eapply K, Hs|].
  unfold raise in Hs. inversion Hs; subst. exists [EvOpen entrada]. auto.
Qed.

Lemma linv_lift {A} l0 (m : M world A) : quietly m -> keeps (linv l0) (lift m).
Proof.
  intros Hm x r x' (evs & Hl & Hp & Hs & Hq). unfold lift.
  destruct (m (x_world x)) as [r1 w1] eqn:E. intros [= _ <-].
  destruct (Hm _ _ _ E) as (e1 & L1 & M1 & M2 & M3 & _).
  exists (evs ++ e1)%list. simpl.
  rewrite L1, Hl, app_assoc, prints_app, saves_app, submitted_app, M1, M2, M3, Hp,
    !app_nil_r. auto.
Qed.

Lemma linv_submit l0 t : keeps (linv l0) (submit t).
Proof.
  intros x r x' (evs & Hl & Hp & Hs & Hq). unfold submit. simpl. intros [= _ <-].
  exists (evs ++ [EvSubmit t])%list. simpl.
  rewrite Hl, app_assoc, prints_app, saves_app, submitted_app, Hp. simpl.
  rewrite app_nil_r, map_app.
  split; [reflexivity|]. split; [reflexivity|].
  split; [now apply incl_appl|].
  apply incl_app; [now apply incl_appl|apply incl_appr, incl_refl].
Qed.

Lemma incl_cut {A} (l : list A) k : incl (firstn k l ++ skipn (S k) l) l.
Proof.
  intros a Ha. apply in_app_or in Ha. destruct Ha as [Ha|Ha].
  - rewrite <- (firstn_skipn k l). apply in_or_app. now left.
  - rewrite <- (firstn_skipn (S k) l). apply in_or_app. now right.
Qed.

Lemma linv_complete l0 k : keeps (linv l0) (complete k).
Proof.
  intros x r x' (evs & Hl & Hp & Hs & Hq). unfold complete.
  destruct (nth_error (x_pending x) k) as [t|] eqn:En.
  2:{ intros [= _ <-]. now exists evs. }
  destruct (run_task t (x_world x)) as [r1 w1] eqn:E. simpl. intros [= _ <-].
  destruct (salvar_events _ _ _ _ _ _ _ _ _ _ _ E) as (e1 & L1 & He1).
  assert (Ht : In t (submitted evs)) by (eapply Hq, nth_error_In, En).
  exists (evs ++ e1 ++ [EvDone t r1])%list. simpl.
  rewrite L1, Hl, <- !app_assoc. split; [reflexivity|].
  rewrite !prints_app, !saves_app, !submitted_app, Hp. simpl.
  assert (K : prints e1 = [] /\ submitted e1 = []
              /\ incl (saves e1) [t_caminho_saida t]).
  { destruct He1 as [->|[->|(c & ->)]]; simpl; repeat split;
      auto using incl_nil_l, incl_refl. }
  destruct K as (K1 & K2 & K3). rewrite K1, K2, !app_nil_r.
  split; [reflexivity|]. split.
  - apply incl_app; [exact Hs|].
    intros p Hp'. apply K3 in Hp'. destruct Hp' as [<-|[]]. now apply in_map.
  - eapply incl_tran; [apply incl_cut|exact Hq].
Qed.

Lemma linv_workers l0 picks : keeps (linv l0) (workers picks).
Proof.
  induction picks as [|k r IH]; simpl.
  - apply keeps_ret.
  - apply keeps_bind; auto using linv_complete.
Qed.

Lemma linv_wait_all l0 picks : keeps (linv l0) (wait_all picks).
Proof.
  unfold wait_all. apply keeps_bind; [apply linv_workers|].
  intros _ x r x' Hx. generalize (List.length (x_pending x)). intros n.
  revert x r x' Hx. fold (keeps (linv l0) (run_all n)).
  induction n as [|n IH]; simpl.
  - apply keeps_ret.
  - apply keeps_bind; auto using linv_complete.
Qed.

Lemma linv_submeter l0 sched q ss pr ot mm ow f dest ficheiros : forall i,
  keeps (linv l0) (submeter sched q ss pr ot mm ow f dest i ficheiros).
Proof.
  induction ficheiros as [|[a rel] rest IH]; intros i; simpl.
  - apply keeps_ret.
  - apply keeps_bind; [apply linv_workers|intros _].
    apply keeps_bind; [apply linv_lift, quietly_destino|intros saida].
    apply keeps_bind; [apply linv_workers|intros _].
    apply keeps_bind; [apply linv_lift, quietly_read|intros existe].
    apply keeps_bind; [|intros _; apply IH].
    destruct (negb ow && existe); [apply keeps_ret|apply linv_submit].
Qed.

(** The counting loop prints the exceptions of the failed futures. *)
Lemma contar_prints futs : forall c e w r w',
  contar futs c e w = (r, w') ->
  exists evs, w_log w' = (w_log w ++ evs)%list
    /\ prints evs = map MsgErro (failures futs)
    /\ saves evs = [] /\ submitted evs = [] /\ completed evs = [].
Proof.
  induction futs as [|[t [u|x]] rest IH]; intros c e w r w'; simpl.
  - intros [= _ <-]. exists []. rewrite app_nil_r. auto.
  - apply IH.
  - unfold bind, print, emit. simpl. intros H.
    destruct (IH _ _ _ _ _ H) as (evs & Hl & Hp & Hs & Hb & Hc). simpl in Hl.
    exists (EvPrint (MsgErro x) :: evs). rewrite Hl, <- app_assoc. simpl.
    rewrite Hp. auto.
Qed.

Lemma xsub_refl x : xsub [] x x.
Proof. exists []. now rewrite app_nil_r. Qed.

Lemma xsub_trans l1 l2 a b c : xsub l1 a b -> xsub l2 b c -> xsub (l1 ++ l2) a c.
Proof.
  intros (e1 & L1 & S1) (e2 & L2 & S2). exists (e1 ++ e2)%list.
  rewrite L2, L1, app_assoc, submitted_app, S1, S2. auto.
Qed.

Lemma xsub_nil_l l a b c : xsub [] a b -> xsub l b c -> xsub l a c.
Proof. intros H1 H2. apply (xsub_trans [] l a b c H1 H2). Qed.

Lemma xsub_nil_r l a b c : xsub l a b -> xsub [] b c -> xsub l a c.
Proof.
  intros H1 H2. rewrite <- (app_nil_r l). apply (xsub_trans l [] a b c H1 H2).
Qed.

Lemma xsub_lift {A} (m : M world A) x r x' :
  quietly m -> lift m x = (r, x') -> xsub [] x x'.
Proof.
  intros Hm. unfold lift. destruct (m (x_world x)) as [r1 w1] eqn:E.
  intros [= _ <-]. destruct (Hm _ _ _ E) as (evs & Hl & _ & _ & Hs & _).
  exists evs. auto.
Qed.

Lemma xsub_complete k x r x' : complete k x = (r, x') -> xsub [] x x'.
Proof.
  unfold complete. destruct (nth_error (x_pending x) k) as [t|].
  2:{ intros [= _ <-]. apply xsub_refl. }
  destruct (run_task t (x_world x)) as [r1 w1] eqn:E. simpl. intros [= _ <-].
  destruct (salvar_events _ _ _ _ _ _ _ _ _ _ _ E) as (e1 & L1 & He1).
  exists (e1 ++ [EvDone t r1])%list. simpl. rewrite L1, <- app_assoc.
  split; [reflexivity|]. rewrite submitted_app.
  destruct He1 as [->|[->|(c & ->)]]; reflexivity.
Qed.

Lemma xsub_workers picks : forall x r x', workers picks x = (r, x') -> xsub [] x x'.
Proof.
  induction picks as [|k p IH]; intros x r x'; simpl.
  - intros [= _ <-]. apply xsub_refl.
  - intros H. apply bind_inv in H.
    destruct H as [(u & x1 & H1 & H2)|(e & H1 & _)].
    + eapply xsub_nil_l; [eapply xsub_complete, H1|eapply IH, H2].
    + eapply xsub_complete, H1.
Qed.

Lemma xsub_run_all n : forall x r x', run_all n x = (r, x') -> xsub [] x x'.
Proof.
  induction n as [|n IH]; intros x r x'; simpl.
  - intros [= _ <-]. apply xsub_refl.
  - intros H. apply bind_inv in H.
    destruct H as [(u & x1 & H1 & H2)|(e & H1 & _)].
    + eapply xsub_nil_l; [eapply xsub_complete, H1|eapply IH, H2].
    + eapply xsub_complete, H1.
Qed.

Lemma xsub_wait_all picks x r x' : wait_all picks x = (r, x') -> xsub [] x x'.
Proof.
  unfold wait_all. intros H. apply bind_inv in H.
  destruct H as [(u & x1 & H1 & H2)|(e & H1 & _)].
  - eapply xsub_nil_l; [eapply xsub_workers, H1|eapply xsub_run_all, H2].
  - eapply xsub_workers, H1.
Qed.

(** The submission loop submits, in the order of the enumeration, the
    tasks of the files it does not skip; with [overwrite] it skips none. *)
Lemma submeter_submits sched q ss pr ot mm ow f dest l : forall i x r x',
  submeter sched q ss pr ot mm ow f dest i l x = (r, x') ->
  exists l', xsub (map (tarefa_de f dest q ss pr ot mm) l') x x'
             /\ incl l' l /\ List.length l' <= List.length l
             /\ (ow = true -> r = Ok tt -> l' = l).
Proof.
  induction l as [|[a rel] rest IH]; intros i x r x'; simpl.
  - intros [= _ <-]. exists []. simpl. auto using xsub_refl, incl_refl.
  - intros H. apply bind_inv in H.
    destruct H as [(u & x1 & H1 & H)|(e & H1 & ->)].
    2:{ exists []. simpl. split; [eapply xsub_workers, H1|].
        split; [apply incl_nil_l|]. split; [lia|discriminate]. }
    apply xsub_workers in H1. apply bind_inv in H.
    destruct H as [(saida & x2 & H2 & H)|(e & H2 & ->)].
    2:{ exists []. simpl.
        split; [eapply xsub_nil_l; [exact H1|eapply xsub_lift, H2; apply quietly_destino]|].
        split; [apply incl_nil_l|]. split; [lia|discriminate]. }
    assert (Hs : saida = saida_de f dest rel).
    { unfold lift in H2. destruct (destino_para _ _ _ _) as [r1 w1] eqn:E.
      inversion H2; subst. eapply destino_value, E. }
    subst saida. apply xsub_lift in H2; [|apply quietly_destino].
    assert (H12 := xsub_nil_l _ _ _ _ H1 H2). clear H1 H2.
    apply bind_inv in H.
    destruct H as [(u3 & x3 & H3 & H)|(e & H3 & ->)].
    2:{ exists []. simpl.
        split; [eapply xsub_nil_l; [exact H12|eapply xsub_workers, H3]|].
        split; [apply incl_nil_l|]. split; [lia|discriminate]. }
    apply xsub_workers in H3. assert (H13 := xsub_nil_l _ _ _ _ H12 H3).
    clear H12 H3. apply bind_inv in H.
    destruct H as [(existe & x4 & H4 & H)|(e & H4 & _)].
    2:{ unfold lift, OS.path_exists in H4. discriminate. }
    assert (He : ow = true -> negb ow && existe = false) by (now intros ->).
    apply xsub_lift in H4; [|apply quietly_read].
    assert (H14 := xsub_nil_l _ _ _ _ H13 H4). clear H13 H4.
    apply bind_inv in H.
    destruct H as [(u5 & x5 & H5 & H)|(e & H5 & _)].
    2:{ destruct (negb ow && existe); unfold ret, submit in H5; discriminate. }
    destruct (IH _ _ _ _ H) as (l' & Hx & Hi & Hn & Hall).
    destruct (negb ow && existe) eqn:Eb.
    + unfold ret in H5. inversion H5; subst x5.
      exists l'. split; [eapply xsub_nil_l; eassumption|].
      split; [now apply incl_tl|]. split; [simpl; lia|].
      intros Ho. apply He in Ho. discriminate.
    + exists ((a, rel) :: l'). split.
      * change (map (tarefa_de f dest q ss pr ot mm) ((a, rel) :: l'))
          with ([tarefa_de f dest q ss pr ot mm (a, rel)]
                  ++ map (tarefa_de f dest q ss pr ot mm) l')%list.
        eapply xsub_nil_l; [exact H14|]. eapply xsub_trans; [|exact Hx].
        unfold submit in H5. simpl in H5. inversion H5; subst x5. simpl.
        exists [EvSubmit (tarefa_de f dest q ss pr ot mm (a, rel))].
        split; reflexivity.
      * split; [|split; [simpl; lia|]].
        -- intros y [<-|Hy]; [now left|right; now apply Hi].
        -- intros Ho Hr. now rewrite (Hall Ho Hr).
Qed.

(** The log of the [with] block. *)
Lemma block_log final sched q ss pr ot mm ow f dest fich w r w' :
  with_executor final (corpo sched q ss pr ot mm ow f dest fich) w = (r, w') ->
  exists evs l',
    w_log w' = (w_log w ++ evs)%list
    /\ incl (saves evs) (map t_caminho_saida (submitted evs))
    /\ submitted evs = map (tarefa_de f dest q ss pr ot mm) l'
    /\ incl l' fich /\ List.length l' <= List.length fich
    /\ match r with
       | Ok _ => (ow = true -> l' = fich)
                 /\ prints evs = map MsgErro (failures (completed evs))
       | Raise _ => prints evs = []
       end.
Proof.
  unfold with_executor.
  set (x0 := {| x_world := w; x_pending := []; x_finished := [] |}).
  destruct (corpo _ _ _ _ _ _ _ _ _ _ x0) as [rx x] eqn:Eb.
  destruct (wait_all final x) as [u x'] eqn:Ew. intros [= <- <-].
  assert (L0 : linv (w_log w) x0).
  { exists []. simpl. rewrite app_nil_r. auto using incl_nil_l. }
  assert (A0 : acct (w_log w) x0).
  { exists []. simpl. rewrite app_nil_r. repeat split. constructor. }
  unfold corpo in Eb. apply bind_inv in Eb.
  destruct Eb as [(u1 & x1 & Hs & Ha)|(e & Hs & ->)].
  - assert (L1 := linv_submeter _ _ _ _ _ _ _ _ _ _ _ _ _ _ _ L0 Hs).
    assert (A1 := acct_submeter _ _ _ _ _ _ _ _ _ _ _ _ _ _ _ A0 Hs).
    destruct (submeter_submits _ _ _ _ _ _ _ _ _ _ _ _ _ _ Hs)
      as (l' & X1 & Hi & Hn & Hall).
    unfold as_completed in Ha. apply bind_inv in Ha.
    destruct Ha as [(u2 & x2 & Hw & Hc)|(e & Hw & _)].
    2:{ destruct (wait_all_ok (sched (2 * List.length fich)) x1) as (y & Ey).
        congruence. }
    assert (L2 := linv_wait_all _ _ _ _ _ L1 Hw).
    assert (A2 := acct_wait_all _ _ _ _ _ A1 Hw).
    assert (X2 := xsub_nil_r _ _ _ _ X1 (xsub_wait_all _ _ _ _ Hw)).
    assert (P2 := wait_all_drains _ _ _ _ Hw).
    unfold lift in Hc.
    destruct (contar (x_finished x2) 0 0 (x_world x2)) as [rc wc] eqn:Ec.
    inversion Hc; subst rx x. clear Hc.
    rewrite wait_all_idle in Ew by exact P2. inversion Ew; subst x'. simpl.
    destruct (contar_prints _ _ _ _ _ _ Ec) as (e3 & L3 & Pr3 & Sv3 & Sb3 & Cp3).
    destruct L2 as (e2 & Hl2 & Pr2 & Sv2 & _).
    destruct A2 as (e2' & Hl2' & _ & Cp2).
    assert (e2' = e2) by (rewrite Hl2 in Hl2'; eapply app_inv_head; eauto).
    subst e2'.
    destruct X2 as (e2' & Hl2'' & Sb2). simpl in Hl2''.
    assert (e2' = e2) by (rewrite Hl2 in Hl2''; eapply app_inv_head; eauto).
    subst e2'.
    exists (e2 ++ e3)%list, l'. rewrite L3, Hl2, <- app_assoc.
    split; [reflexivity|].
    rewrite saves_app, submitted_app, prints_app, completed_app,
      Sv3, Sb3, Pr2, Pr3, Cp3, Cp2, !app_nil_r.
    split; [exact Sv2|]. split; [exact Sb2|]. split; [exact Hi|].
    split; [exact Hn|].
    destruct (contar_result (x_finished x2) 0 0 (x_world x2)) as (wc' & Ec' & _).
    rewrite Ec in Ec'. inversion Ec'; subst. split; [|reflexivity].
    intros Ho. apply Hall; [exact Ho|now destruct u1].
  - assert (L1 := linv_submeter _ _ _ _ _ _ _ _ _ _ _ _ _ _ _ L0 Hs).
    destruct (submeter_submits _ _ _ _ _ _ _ _ _ _ _ _ _ _ Hs)
      as (l' & X1 & Hi & Hn & _).
    assert (L2 := linv_wait_all _ _ _ _ _ L1 Ew).
    assert (X2 := xsub_nil_r _ _ _ _ X1 (xsub_wait_all _ _ _ _ Ew)).
    destruct L2 as (e2 & Hl2 & Pr2 & Sv2 & _).
    destruct X2 as (e2' & Hl2'' & Sb2). simpl in Hl2''.
    assert (e2' = e2) by (rewrite Hl2 in Hl2''; eapply app_inv_head; eauto).
    subst e2'.
    exists e2, l'. auto 10.
Qed.

Lemma aviso_log q f w r w1 :
  aviso q f w = (r, w1) ->
  r = Ok tt
  /\ w_log w1 = (w_log w ++ (if Z.ltb 95 q && String.eqb f "jpeg"
                             then [EvPrint MsgAvisoQualidade] else []))%list
  /\ w_fs w1 = w_fs w /\ same_env w w1.
Proof.
  unfold aviso. destruct (_ && _); unfold print, emit, ret; intros [= <- <-]; simpl;
    rewrite ?app_nil_r; repeat split.
Qed.

Lemma anuncio_log n po pd f q ss pr ot mm rec ow th w r w1 :
  anuncio n po pd f q ss pr ot mm rec ow th w = (r, w1) ->
  r = Ok tt
  /\ w_log w1 = (w_log w ++ [EvPrint (MsgAConverter n po pd);
                             EvPrint (MsgOpcoes f q ss pr ot mm rec ow
                                        (resolve_threads th (w_cpu_count w)))])%list.
Proof.
  unfold anuncio, bind, OS.cpu_count, print, emit. simpl. intros [= <- <-]. simpl.
  now rewrite <- app_assoc.
Qed.

Lemma resumo_log t w r w1 :
  resumo t w = (r, w1) ->
  r = Ok tt
  /\ w_log w1 = (w_log w ++ [EvPrint MsgConcluida; EvPrint (MsgConvertidos (fst t));
                             EvPrint (MsgComErro (snd t))])%list.
Proof.
  unfold resumo, bind, print, emit. simpl. intros [= <- <-]. simpl.
  now rewrite <- !app_assoc.
Qed.

Lemma makedirs_pure p w w' :
  w_cwd w = w_cwd w' -> w_fs w = w_fs w' ->
  fst (OS.makedirs p w) = fst (OS.makedirs p w')
  /\ w_fs (snd (OS.makedirs p w)) = w_fs (snd (OS.makedirs p w'))
  /\ w_cwd (snd (OS.makedirs p w)) = w_cwd (snd (OS.makedirs p w')).
Proof.
  intros Hc Hf. unfold OS.makedirs. rewrite Hc, Hf.
  destruct (FS.mkdirs _ _ _); simpl; auto.
Qed.

Lemma ficheiros_de_eq po pd rec w w1 w2 fich w3 :
  w_cwd w1 = w_cwd w -> w_fs w1 = w_fs w ->
  OS.makedirs (Posixpath.abspath (w_cwd w1) pd) w1 = (Ok tt, w2) ->
  _listar_ficheiros_heic (Posixpath.abspath (w_cwd w1) po) rec w2 = (Ok fich, w3) ->
  ficheiros_de po pd rec w = Ok fich.
Proof.
  intros Hc Hf Hm Hl. unfold ficheiros_de. rewrite <- Hc.
  destruct (makedirs_pure (Posixpath.abspath (w_cwd w1) pd) w w1) as (_ & F & C);
    [congruence|congruence|].
  rewrite Hm in F, C. simpl in F, C.
  rewrite (listar_pure _ _ _ w2) by assumption. now rewrite Hl.
Qed.

Lemma tallies_length evs c e :
  Permutation (submitted evs) (map fst (completed evs)) ->
  c = List.length (filter succeeded (completed evs)) ->
  e = List.length (filter failed (completed evs)) ->
  c + e = List.length (submitted evs).
Proof.
  intros Hp -> ->. unfold failed. rewrite (filter_split_length succeeded).
  rewrite (Permutation_length Hp). now rewrite length_map.
Qed.

(** The part of the log that follows the enumeration in a run that finds
    [fich] and returns [(c, e)]. *)
Lemma run_log sched po pd q ss pr ot mm rec ow fmt th w r w' :
  run sched po pd q ss pr ot mm rec ow fmt th w r w' ->
  exists evs l',
    w_log w' = (w_log w ++ evs)%list
    /\ incl (saves evs) (map t_caminho_saida (submitted evs))
    /\ submitted evs
       = map (tarefa_de (Str.lower fmt) (Posixpath.abspath (w_cwd w) pd)
                        q ss pr ot mm) l'
    /\ match r with
       | Ok (c, e) =>
           exists fich,
             ficheiros_de po pd rec w = Ok fich
             /\ incl l' fich /\ List.length l' <= List.length fich
             /\ (ow = true -> l' = fich)
             /\ c + e = List.length l'
             /\ prints evs
                = ((if Z.ltb 95 q && String.eqb (Str.lower fmt) "jpeg"
                    then [MsgAvisoQualidade] else [])
                     ++ match fich with
                        | [] => [MsgNenhumFicheiro po]
                        | _ =>
                            [MsgAConverter (List.length fich) po pd;
                             MsgOpcoes (Str.lower fmt) q ss pr ot mm rec ow
                                       (resolve_threads th (w_cpu_count w))]
                              ++ map MsgErro (failures (completed evs))
                              ++ [MsgConcluida; MsgConvertidos c; MsgComErro e]
                        end)%list
       | Raise _ => True
       end.
Proof.
  intros [Hd|Hd Hf|w1 r1 w1' Hd Hf Ha Hb].
  - exists [], []. rewrite app_nil_r. simpl. auto using incl_nil_l.
  - exists [], []. rewrite app_nil_r. simpl. auto using incl_nil_l.
  - destruct (aviso_log _ _ _ _ _ Ha) as (_ & La & Fa & Ca & Pa).
    set (ea := if Z.ltb 95 q && String.eqb (Str.lower fmt) "jpeg"
               then [EvPrint MsgAvisoQualidade] else []) in *.
    assert (Ma : saves ea = [] /\ submitted ea = [] /\ completed ea = []
                 /\ prints ea = if Z.ltb 95 q && String.eqb (Str.lower fmt) "jpeg"
                                then [MsgAvisoQualidade] else []).
    { unfold ea. destruct (_ && _); auto. }
    destruct Ma as (Sa & Ba & Cpa & Pra).
    destruct Hb as [e w2 Hm|w2 e w3 Hm Hl|w2 w3 w4 Hm Hl Hp
                    |w2 fich w3 w4 e w5 Hm Hl Hne Han Hw
                    |w2 fich w3 w4 t w5 w6 Hm Hl Hne Han Hw Hr].
    + destruct (quietly_makedirs _ _ _ _ Hm) as (em & Lm & _ & Sm & Bm & _).
      exists (ea ++ em)%list, []. rewrite Lm, La, <- app_assoc.
      rewrite saves_app, submitted_app, Sa, Sm, Ba, Bm. simpl.
      auto using incl_nil_l.
    + destruct (quietly_makedirs _ _ _ _ Hm) as (em & Lm & _ & Sm & Bm & _).
      destruct (quietly_listar _ _ _ _ _ Hl) as (el & Ll & _ & Sl & Bl & _).
      exists (ea ++ em ++ el)%list, []. rewrite Ll, Lm, La, <- !app_assoc.
      rewrite !saves_app, !submitted_app, Sa, Sm, Sl, Ba, Bm, Bl. simpl.
      auto using incl_nil_l.
    + destruct (quietly_makedirs _ _ _ _ Hm) as (em & Lm & Pm & Sm & Bm & _).
      destruct (quietly_listar _ _ _ _ _ Hl) as (el & Ll & Pl & Sl & Bl & _).
      exists (ea ++ em ++ el ++ [EvPrint (MsgNenhumFicheiro po)])%list, [].
      unfold print, emit in Hp. inversion Hp; subst w4. simpl.
      rewrite Ll, Lm, La, <- !app_assoc. split; [reflexivity|].
      rewrite !saves_app, !submitted_app, !prints_app, Sa, Sm, Sl, Ba, Bm, Bl,
        Pra, Pm, Pl. simpl.
      split; [apply incl_nil_l|]. split; [reflexivity|].
      exists []. split; [eapply ficheiros_de_eq; eauto|].
      auto using incl_nil_l.
    + destruct (quietly_makedirs _ _ _ _ Hm) as (em & Lm & Pm & Sm & Bm & _).
      destruct (quietly_listar _ _ _ _ _ Hl) as (el & Ll & Pl & Sl & Bl & _).
      destruct (anuncio_log _ _ _ _ _ _ _ _ _ _ _ _ _ _ _ Han) as (_ & Ln).
      destruct (block_log _ _ _ _ _ _ _ _ _ _ _ _ _ _ Hw)
        as (eb & l' & Lb & Sb & Bb & _).
      exists (ea ++ em ++ el
                 ++ [EvPrint (MsgAConverter (List.length fich) po pd);
                     EvPrint (MsgOpcoes (Str.lower fmt) q ss pr ot mm rec ow
                                (resolve_threads th (w_cpu_count w3)))]
                 ++ eb)%list, l'.
      rewrite Lb, Ln, Ll, Lm, La, <- !app_assoc. split; [reflexivity|].
      rewrite !saves_app, !submitted_app, Sa, Sm, Sl, Ba, Bm, Bl. simpl.
      rewrite <- Ca at 1. auto.
    + destruct (quietly_makedirs _ _ _ _ Hm) as (em & Lm & Pm & Sm & Bm & Cm).
      destruct (quietly_listar _ _ _ _ _ Hl) as (el & Ll & Pl & Sl & Bl & Cl).
      destruct (anuncio_log _ _ _ _ _ _ _ _ _ _ _ _ _ _ _ Han) as (_ & Ln).
      destruct (block_log _ _ _ _ _ _ _ _ _ _ _ _ _ _ Hw)
        as (eb & l' & Lb & Sb & Bb & Hi & Hn & Hall & Prb).
      destruct (with_corpo _ _ _ _ _ _ _ _ _ _ _ _ _ _ Hw) as (eb' & Lb' & Hperm & Ht).
      assert (eb' = eb) by (rewrite Lb in Lb'; eapply app_inv_head; eauto).
      subst eb'. destruct t as [c e]. destruct Ht as [Hc He].
      destruct (resumo_log _ _ _ _ Hr) as (_ & Lr). simpl in Lr.
      assert (Hcpu : w_cpu_count w3 = w_cpu_count w).
      { destruct (wstep_any_makedirs _ _ _ _ Hm) as ((_ & E2) & _).
        destruct (wstep_listar ok_any ok_any_stable _ _ _ _ _ Hl) as ((_ & E3) & _).
        congruence. }
      exists (ea ++ em ++ el
                 ++ [EvPrint (MsgAConverter (List.length fich) po pd);
                     EvPrint (MsgOpcoes (Str.lower fmt) q ss pr ot mm rec ow
                                (resolve_threads th (w_cpu_count w3)))]
                 ++ eb
                 ++ [EvPrint MsgConcluida; EvPrint (MsgConvertidos c);
                     EvPrint (MsgComErro e)])%list, l'.
      rewrite Lr, Lb, Ln, Ll, Lm, La, <- !app_assoc. split; [reflexivity|].
      rewrite !saves_app, !submitted_app, !prints_app, !completed_app,
        Sa, Sm, Sl, Ba, Bm, Bl, Pra, Pm, Pl, Cpa, Cm, Cl, Prb. simpl.
      rewrite !app_nil_r. split; [exact Sb|].
      split; [now rewrite <- Ca at 1|].
      exists fich. split; [eapply ficheiros_de_eq; eauto|].
      split; [exact Hi|]. split; [exact Hn|]. split; [exact Hall|].
      split.
      * rewrite (tallies_length eb c e Hperm Hc He), Bb. apply length_map.
      * rewrite Hcpu. destruct fich as [|f0 rest]; [now elim Hne|].
        reflexivity.
Qed.

Lemma failures_length futs :
  List.length (failures futs) = List.length (filter failed futs).
Proof.
  induction futs as [|[t [u|x]] r IH]; simpl; auto.
Qed.

Lemma news_eq w w' evs : w_log w' = (w_log w ++ evs)%list -> evs = news w w'.
Proof. intros H. symmetry. now apply news_app. Qed.

(** X9. What a run that returns prints, in order: the warning when the
    quality is above 95 and the format is jpeg; then either the notice that
    nothing was found, or the two announcements (with the number of files
    enumerated and the options, the format in lower case and the number of
    workers resolved), one [Erro] line for each failed conversion, with its
    exception, and the three lines of the summary with the tallies
    returned.  The errors tally is the number of [Erro] lines. *)
Theorem run_prints
        sched pasta_origem pasta_destino qualidade subsampling progressivo
        otimizar manter_metadata recursivo overwrite formato threads
        w convertidos erros w' :
  converter_heic sched pasta_origem pasta_destino qualidade subsampling
                 progressivo otimizar manter_metadata recursivo overwrite
                 formato threads w = (Ok (convertidos, erros), w') ->
  exists ficheiros falhas,
    ficheiros_de pasta_origem pasta_destino recursivo w = Ok ficheiros
    /\ Permutation falhas (failures (completed (news w w')))
    /\ prints (news w w')
       = ((if Z.ltb 95 qualidade && String.eqb (Str.lower formato) "jpeg"
           then [MsgAvisoQualidade] else [])
            ++ match ficheiros with
               | [] => [MsgNenhumFicheiro pasta_origem]
               | _ =>
                   [MsgAConverter (List.length ficheiros) pasta_origem pasta_destino;
                    MsgOpcoes (Str.lower formato) qualidade subsampling
                              progressivo otimizar manter_metadata recursivo
                              overwrite
                              (resolve_threads threads (w_cpu_count w))]
                     ++ map MsgErro falhas
                     ++ [MsgConcluida; MsgConvertidos convertidos;
                         MsgComErro erros]
               end)%list
    /\ erros = List.length falhas.
Proof.
  intros H. apply converter_heic_run in H.
  destruct (run_log _ _ _ _ _ _ _ _ _ _ _ _ _ _ _ H)
    as (evs & l' & Hl & _ & _ & fich & Hfich & _ & _ & _ & _ & Hp).
  destruct (run_tallied _ _ _ _ _ _ _ _ _ _ _ _ _ _ _ H)
    as (evs' & Hl' & _ & _ & He).
  assert (evs' = evs) by (rewrite Hl in Hl'; eapply app_inv_head; eauto).
  subst evs'. rewrite <- (news_eq _ _ _ Hl).
  exists fich, (failures (completed evs)).
  split; [exact Hfich|]. split; [apply Permutation_refl|]. split; [exact Hp|].
  now rewrite failures_length.
Qed.

Lemma run_prints_witness :
  exists ficheiros falhas,
    ficheiros_de "/s" "out" true (mundo fs_exemplo) = Ok ficheiros
    /\ Permutation falhas
         (failures (completed (news (mundo fs_exemplo)
                                    (snd (corrida_exemplo false)))))
    /\ prints (news (mundo fs_exemplo) (snd (corrida_exemplo false)))
       = ((if Z.ltb 95 96 && String.eqb (Str.lower "JPEG") "jpeg"
           then [MsgAvisoQualidade] else [])
            ++ match ficheiros with
               | [] => [MsgNenhumFicheiro "/s"]
               | _ =>
                   [MsgAConverter (List.length ficheiros) "/s" "out";
                    MsgOpcoes (Str.lower "JPEG") 96 0 true true true true false
                              (resolve_threads None (w_cpu_count (mundo fs_exemplo)))]
                     ++ map MsgErro falhas
                     ++ [MsgConcluida; MsgConvertidos 2; MsgComErro 1]
               end)%list
    /\ 1 = List.length falhas.
Proof.
  apply (run_prints sched_tardio "/s" "out" 96 0 true true true true false "JPEG"
           None (mundo fs_exemplo) 2 1 (snd (corrida_exemplo false))).
  vm_compute. reflexivity.
Defined.

(** X10. With [overwrite] set, a run that returns has submitted one task
    for every file enumerated, in the order of the enumeration and whatever
    the scheduling: the task reads the file, writes the output path
    [destino_para] gives for it, and carries the format in lower case and
    the options of the call unchanged.  The two tallies add up to the
    number of files enumerated. *)
Theorem overwrite_submits_every_file
        sched pasta_origem pasta_destino qualidade subsampling progressivo
        otimizar manter_metadata recursivo formato threads
        w convertidos erros w' :
  converter_heic sched pasta_origem pasta_destino qualidade subsampling
                 progressivo otimizar manter_metadata recursivo true
                 formato threads w = (Ok (convertidos, erros), w') ->
  exists ficheiros,
    ficheiros_de pasta_origem pasta_destino recursivo w = Ok ficheiros
    /\ submitted (news w w')
       = map (tarefa_de (Str.lower formato)
                        (Posixpath.abspath (w_cwd w) pasta_destino)
                        qualidade subsampling progressivo otimizar
                        manter_metadata) ficheiros
    /\ convertidos + erros = List.length ficheiros.
Proof.
  intros H. apply converter_heic_run in H.
  destruct (run_log _ _ _ _ _ _ _ _ _ _ _ _ _ _ _ H)
    as (evs & l' & Hl & _ & Hs & fich & Hfich & _ & _ & Hall & Hn & _).
  rewrite <- (news_eq _ _ _ Hl). rewrite (Hall eq_refl) in *.
  exists fich. auto.
Qed.

Lemma overwrite_submits_every_file_witness :
  exists ficheiros,
    ficheiros_de "/s" "out" true (mundo fs_exemplo) = Ok ficheiros
    /\ submitted (news (mundo fs_exemplo) (snd (corrida_exemplo true)))
       = map (tarefa_de (Str.lower "JPEG")
                        (Posixpath.abspath (w_cwd (mundo fs_exemplo)) "out")
                        96 0 true true true) ficheiros
    /\ 2 + 1 = List.length ficheiros.
Proof.
  apply (overwrite_submits_every_file sched_tardio "/s" "out" 96 0 true true
           true true "JPEG" None (mundo fs_exemplo) 2 1
           (snd (corrida_exemplo true))).
  vm_compute. reflexivity.
Defined.

(** X12. Whatever its arguments, the scheduling and its outcome, a run
    writes only to output paths of tasks it submitted, and the name of a
    file it writes never has a recognised input extension: no picture the
    enumerator can see is ever written to, also when the destination is the
    source directory and [overwrite] is set. *)
Theorem run_writes_outputs_only
        sched pasta_origem pasta_destino qualidade subsampling progressivo
        otimizar manter_metadata recursivo overwrite formato threads w :
  let w' := snd (converter_heic sched pasta_origem pasta_destino qualidade
                                subsampling progressivo otimizar
                                manter_metadata recursivo overwrite formato
                                threads w) in
  Forall (fun p =>
            In p (map t_caminho_saida (submitted (news w w')))
            /\ ext_in_exts (snd (Posixpath.split_raw p)) = false)
         (saves (news w w')).
Proof.
  destruct (converter_heic _ _ _ _ _ _ _ _ _ _ _ _ w) as [r w'] eqn:H. simpl.
  apply converter_heic_run in H.
  destruct (run_log _ _ _ _ _ _ _ _ _ _ _ _ _ _ _ H)
    as (evs & l' & Hl & Hsv & Hs & _).
  rewrite <- (news_eq _ _ _ Hl). rewrite Forall_forall. intros p Hp.
  apply Hsv in Hp. split; [exact Hp|].
  rewrite Hs, map_map in Hp. apply in_map_iff in Hp.
  destruct Hp as (fr & <- & _). unfold tarefa_de. simpl.
  assert (K := saida_name_fresh false (Str.lower formato)
                 (Posixpath.abspath (w_cwd w) pasta_destino) (snd fr) Junk).
  simpl in K. now apply negb_true_iff in K.
Qed.

Lemma run_submits_new sched po pd q ss pr ot mm rec fmt th w r w' :
  run sched po pd q ss pr ot mm rec false fmt th w r w' ->
  Forall (fun t => FS.stat (w_cwd w) (w_fs w) (t_caminho_saida t) = None)
         (submitted (news w w')).
Proof.
  intros E. apply subs_news. eapply run_subs; [exact E|].
  intros w1 w2 fich w3 w4 r5 w5 S1 Hm Hl S4 Hx.
  destruct S4 as ((Ec & _) & _ & G4).
  set (P := fun t => FS.stat (w_cwd w) (w_fs w) (t_caminho_saida t) = None).
  refine (proj2 (proj2 (xinv_corpo ok_any ok_any_stable P (fun _ _ _ => eq_refl) w4
              sched q ss pr ot mm false (Str.lower fmt)
              (Posixpath.abspath (w_cwd w1) pd) (fun _ => True) _ _ _ _ _ _ _ Hx))).
  - intros rel x rr ww _ _. apply wstep_any_destino.
  - intros a rel x _ ((Ex & _) & Gx & _) Hc. simpl in Hc. unfold P. simpl.
    destruct (FS.stat (w_cwd w) (w_fs w) _) as [m|] eqn:Es; [|reflexivity].
    exfalso.
    assert (G : grow ok_any (w_fs w) (w_fs (x_world x)))
      by (eapply grow_trans; eauto using ok_any_stable).
    destruct (grow_stat _ _ _ _ _ _ G Es) as (m' & Es' & _).
    rewrite Ex, Ec, Es' in Hc. discriminate.
  - rewrite Forall_forall. auto.
Qed.

(** X13. Without [overwrite], a run never writes to a path that named
    anything when it started, whatever the scheduling and the outcome:
    every file the run writes is one that did not exist before. *)
Theorem run_without_overwrite_writes_new_paths
        sched pasta_origem pasta_destino qualidade subsampling progressivo
        otimizar manter_metadata recursivo formato threads w :
  let w' := snd (converter_heic sched pasta_origem pasta_destino qualidade
                                subsampling progressivo otimizar
                                manter_metadata recursivo false formato
                                threads w) in
  Forall (fun p => FS.stat (w_cwd w) (w_fs w) p = None) (saves (news w w')).
Proof.
  destruct (converter_heic _ _ _ _ _ _ _ _ _ _ _ _ w) as [r w'] eqn:H. simpl.
  apply converter_heic_run in H.
  destruct (run_log _ _ _ _ _ _ _ _ _ _ _ _ _ _ _ H)
    as (evs & l' & Hl & Hsv & _).
  assert (Hn := run_submits_new _ _ _ _ _ _ _ _ _ _ _ _ _ _ H).
  rewrite <- (news_eq _ _ _ Hl) in *. rewrite Forall_forall in *.
  intros p Hp. apply Hsv, in_map_iff in Hp. destruct Hp as (t & <- & Ht).
  now apply Hn.
Qed.

(** ** The command line *)

(** ** The pictures of the source are left alone *)

Lemma assoc_set_neq x y n es :
  String.eqb y x = false -> FS.assoc y (FS.set x n es) = FS.assoc y es.
Proof.
  intros Hn. induction es as [|[z m] es IH]; simpl.
  - now rewrite Hn.
  - destruct (String.eqb x z) eqn:E; simpl.
    + apply String.eqb_eq in E. subst z. now rewrite Hn.
    + now rewrite IH.
Qed.

Lemma lookup_file_nil c ns m : FS.lookup (File c) ns = Some m -> ns = [].
Proof. destruct ns; [reflexivity|discriminate]. Qed.

Lemma frame_refl K fs : frame K fs fs.
Proof. intros ns c H _. exact H. Qed.

Lemma frame_trans K a b c : frame K a b -> frame K b c -> frame K a c.
Proof. intros H1 H2 ns x Hl Hk. apply H2; auto. Qed.

(** [os.makedirs] leaves every regular file where it is. *)
Lemma mkdirs_lookup p ns0 : forall n n' ns c,
  FS.mkdirs p n ns0 = Ok n' ->
  FS.lookup n ns = Some (File c) -> FS.lookup n' ns = Some (File c).
Proof.
  induction ns0 as [|x r IH]; intros n n' ns c; destruct n as [c0|es]; simpl;
    try discriminate.
  - now intros [= <-].
  - destruct (FS.mkdirs p _ r) as [c'|e] eqn:E; [|discriminate].
    intros [= <-]. destruct ns as [|y t]; [discriminate|]. simpl.
    destruct (String.eqb y x) eqn:Eyx.
    + apply String.eqb_eq in Eyx. subst y. rewrite assoc_set_eq.
      destruct (FS.assoc x es) as [m|]; [|discriminate].
      intros Hl. eapply IH; eassumption.
    + now rewrite assoc_set_neq.
Qed.

(** Writing a file whose name [K] does not protect. *)
Lemma update_frame K name c' ns0 : forall n es,
  K name = false ->
  FS.lookup n ns0 = Some (Dir es) ->
  (forall d, FS.assoc name es <> Some (Dir d)) ->
  frame K n (FS.update n ns0 (FS.set name (File c'))).
Proof.
  induction ns0 as [|x r IH]; intros n es Hk; destruct n as [c0|es0]; simpl;
    try discriminate.
  - intros [= ->] Hd ns c. destruct ns as [|y t]; [discriminate|]. simpl.
    destruct (String.eqb y name) eqn:Ey.
    + apply String.eqb_eq in Ey. subst y.
      destruct (FS.assoc name es) as [[c1|d]|] eqn:Ea; try discriminate.
      * intros Hl Hlast. apply lookup_file_nil in Hl. subst t. simpl in Hlast.
        congruence.
      * now elim (Hd d).
    + now rewrite assoc_set_neq.
  - destruct (FS.assoc x es0) as [d|] eqn:Ea; [|discriminate].
    intros Hl Hd ns c. destruct ns as [|y t]; [discriminate|]. simpl.
    destruct (String.eqb y x) eqn:Ey.
    + apply String.eqb_eq in Ey. subst y. rewrite Ea, assoc_set_eq.
      destruct t as [|z t].
      * simpl. intros [= ->]. destruct r; discriminate.
      * intros Ht Hlast. eapply IH; eauto.
    + now rewrite assoc_set_neq.
Qed.

Lemma contar_fs futs : forall c e w r w',
  contar futs c e w = (r, w') -> w_fs w' = w_fs w.
Proof.
  induction futs as [|[t [u|x]] rest IH]; intros c e w r w'; simpl.
  - now intros [= _ <-].
  - apply IH.
  - unfold bind, print, emit. simpl. intros H. now rewrite (IH _ _ _ _ _ H).
Qed.

Section Frame.

Variable K : string -> bool.

Lemma wframe_refl w : wframe K w w.
Proof. apply frame_refl. Qed.

Lemma wframe_trans a b c : wframe K a b -> wframe K b c -> wframe K a c.
Proof. apply frame_trans. Qed.

Lemma wframe_same_fs w w' : w_fs w' = w_fs w -> wframe K w w'.
Proof. unfold wframe. intros ->. apply frame_refl. Qed.

Lemma wframe_makedirs p : pres (wframe K) (OS.makedirs p).
Proof.
  intros w r w'. unfold OS.makedirs.
  destruct (FS.mkdirs p (w_fs w) _) as [fs'|e] eqn:E.
  - unfold emit. simpl. intros [= _ <-]. unfold wframe. simpl.
    intros ns c Hl _. eapply mkdirs_lookup; eassumption.
  - intros [= _ <-]. apply wframe_refl.
Qed.

Lemma wframe_destino f dest rel : pres (wframe K) (destino_para f dest rel).
Proof.
  unfold destino_para. destruct (Posixpath.splitext rel) as [nome_base ext].
  apply pres_bind; [apply wframe_trans|apply wframe_makedirs|].
  intros _. apply pres_ret, wframe_refl.
Qed.

Lemma wframe_write_file p c :
  K (snd (Posixpath.split_raw p)) = false -> pres (wframe K) (OS.write_file p c).
Proof.
  intros Hk w r w'. unfold OS.write_file.
  destruct (Posixpath.split_raw p) as [head name]. simpl in Hk.
  destruct (OS.bad_name name); [intros [= _ <-]; apply wframe_refl|].
  destruct (FS.resolve _ _ _) as [ns|]; [|intros [= _ <-]; apply wframe_refl].
  destruct (FS.lookup (w_fs w) ns) as [[c0|es]|] eqn:El;
    try (intros [= _ <-]; apply wframe_refl).
  destruct (FS.assoc name es) as [[c0|?]|] eqn:Ea;
    try (intros [= _ <-]; apply wframe_refl);
    unfold emit; simpl; intros [= _ <-]; unfold wframe; simpl;
    (eapply update_frame; [exact Hk|exact El|]); intros d; rewrite Ea; discriminate.
Qed.

Lemma wframe_salvar entrada saida f q ss pr ot mm :
  K (snd (Posixpath.split_raw saida)) = false ->
  pres (wframe K) (_salvar_imagem entrada saida f q ss pr ot mm).
Proof.
  intros Hk w r w' H. unfold _salvar_imagem in H. apply bind_inv in H.
  destruct H as [(im & w1 & Ho & Hs)|(e & Ho & _)].
  2:{ apply open_fails in Ho. subst w'. apply wframe_refl. }
  destruct (open_inv _ _ _ _ Ho) as (c & _ & _ & Hf & _).
  eapply wframe_trans; [apply wframe_same_fs, Hf|].
  cbv zeta in Hs.
  assert (S : forall im' params, pres (wframe K) (Image.save im' saida params)).
  { intros im' params. unfold Image.save.
    destruct (PIL.encode im' params); [now apply wframe_write_file|].
    apply pres_raise, wframe_refl. }
  destruct (String.eqb f "jpeg"); [eapply S, Hs|].
  destruct (String.eqb f "png"); [eapply S, Hs|].
  unfold raise in Hs. inversion Hs; subst. apply wframe_refl.
Qed.

Lemma finv_world fs0 x w' pend fin :
  finv K fs0 x -> wframe K (x_world x) w' ->
  Forall (fun t => K (snd (Posixpath.split_raw (t_caminho_saida t))) = false) pend ->
  finv K fs0 {| x_world := w'; x_pending := pend; x_finished := fin |}.
Proof.
  intros [F P] Hw Hp. split; [|exact Hp]. simpl. eapply frame_trans; eassumption.
Qed.

Lemma finv_lift {A} fs0 (m : M world A) :
  pres (wframe K) m -> keeps (finv K fs0) (lift m).
Proof.
  intros Hm x r x' Hx. unfold lift.
  destruct (m (x_world x)) as [r1 w1] eqn:E. intros [= _ <-].
  eapply finv_world; [exact Hx|eapply Hm, E|apply Hx].
Qed.

Lemma finv_complete fs0 k : keeps (finv K fs0) (complete k).
Proof.
  intros x r x' Hx. unfold complete.
  destruct (nth_error (x_pending x) k) as [t|] eqn:En; [|now intros [= _ <-]].
  destruct (run_task t (x_world x)) as [r1 w1] eqn:E. simpl. intros [= _ <-].
  assert (Hp := proj2 Hx).
  assert (Ht : K (snd (Posixpath.split_raw (t_caminho_saida t))) = false).
  { rewrite Forall_forall in Hp. eapply Hp, nth_error_In, En. }
  destruct Hx as [F _]. split; simpl.
  - eapply frame_trans; [exact F|]. eapply (wframe_salvar _ _ _ _ _ _ _ _ Ht), E.
  - now apply Forall_cut.
Qed.

Lemma finv_workers fs0 picks : keeps (finv K fs0) (workers picks).
Proof.
  induction picks as [|k r IH]; simpl.
  - apply keeps_ret.
  - apply keeps_bind; auto using finv_complete.
Qed.

Lemma finv_wait_all fs0 picks : keeps (finv K fs0) (wait_all picks).
Proof.
  unfold wait_all. apply keeps_bind; [apply finv_workers|].
  intros _ x r x' Hx. generalize (List.length (x_pending x)). intros n.
  revert x r x' Hx. fold (keeps (finv K fs0) (run_all n)).
  induction n as [|n IH]; simpl.
  - apply keeps_ret.
  - apply keeps_bind; auto using finv_complete.
Qed.

Lemma finv_submit fs0 t :
  K (snd (Posixpath.split_raw (t_caminho_saida t))) = false ->
  keeps (finv K fs0) (submit t).
Proof.
  intros Ht x r x' [F P]. unfold submit. simpl. intros [= _ <-].
  split; [exact F|]. simpl. apply Forall_app. split; [exact P|]. now repeat constructor.
Qed.

Hypothesis K_saida : forall f dest rel,
  K (snd (Posixpath.split_raw (saida_de f dest rel))) = false.

Lemma finv_submeter fs0 sched q ss pr ot mm ow f dest ficheiros : forall i,
  keeps (finv K fs0) (submeter sched q ss pr ot mm ow f dest i ficheiros).
Proof.
  induction ficheiros as [|[a rel] rest IH]; intros i; simpl.
  - apply keeps_ret.
  - apply keeps_bind; [apply finv_workers|intros _].
    intros x r x' Hx H. apply bind_inv in H.
    destruct H as [(saida & x1 & H1 & H2)|(e & H1 & _)].
    2:{ eapply finv_lift; [apply wframe_destino|exact Hx|exact H1]. }
    assert (Hx1 : finv K fs0 x1).
    { eapply finv_lift; [apply wframe_destino|exact Hx|exact H1]. }
    assert (Hs : saida = saida_de f dest rel).
    { unfold lift in H1. destruct (destino_para _ _ _ _) as [r1 w1] eqn:E.
      inversion H1; subst. eapply destino_value, E. }
    subst saida. clear H1 Hx x. revert H2.
    match goal with
    | |- ?m ?s = _ -> _ => apply (fun J : keeps (finv K fs0) m => J s r x')
    end; [|exact Hx1].
    apply keeps_bind; [apply finv_workers|intros _].
    apply keeps_bind; [apply finv_lift|intros existe].
    { intros w rr w' [= _ <-]. apply wframe_refl. }
    apply keeps_bind; [|intros _; apply IH].
    destruct (negb ow && existe); [apply keeps_ret|].
    apply finv_submit. simpl. apply K_saida.
Qed.

Lemma block_frame final sched q ss pr ot mm ow f dest fich w r w' :
  with_executor final (corpo sched q ss pr ot mm ow f dest fich) w = (r, w') ->
  wframe K w w'.
Proof.
  unfold with_executor.
  set (x0 := {| x_world := w; x_pending := []; x_finished := [] |}).
  destruct (corpo _ _ _ _ _ _ _ _ _ _ x0) as [rx x] eqn:Eb.
  destruct (wait_all final x) as [u x'] eqn:Ew. intros [= _ <-].
  assert (I0 : finv K (w_fs w) x0) by (split; [apply frame_refl|constructor]).
  assert (I1 : finv K (w_fs w) x).
  { revert Eb. unfold corpo. eapply keeps_bind; [apply finv_submeter| |exact I0].
    intros _. unfold as_completed. apply keeps_bind; [apply finv_wait_all|].
    intros _ y ry y' Hy. apply finv_lift; [|exact Hy].
    intros s rs s' Hs. apply wframe_same_fs. eapply contar_fs, Hs. }
  apply (finv_wait_all _ _ _ _ _ I1 Ew).
Qed.

Lemma run_frame sched po pd q ss pr ot mm rec ow fmt th w r w' :
  run sched po pd q ss pr ot mm rec ow fmt th w r w' -> wframe K w w'.
Proof.
  assert (Q : forall a b, quiet_step a b -> wframe K a b).
  { intros a b (F & _). now apply wframe_same_fs. }
  intros [Hd|Hd Hf|w1 r1 w1' Hd Hf Ha Hb]; try apply wframe_refl.
  eapply wframe_trans; [eapply Q, quiet_aviso, Ha|].
  assert (L : forall p a rr b, _listar_ficheiros_heic p rec a = (rr, b) ->
                               wframe K a b).
  { intros p a rr b H. apply wframe_same_fs.
    now destruct (listar_fs _ _ _ _ _ H). }
  destruct Hb as [e w2 Hm|w2 e w3 Hm Hl|w2 w3 w4 Hm Hl Hp
                  |w2 fich w3 w4 e w5 Hm Hl Hne Han Hw
                  |w2 fich w3 w4 t w5 w6 Hm Hl Hne Han Hw Hr].
  - eapply wframe_makedirs, Hm.
  - eapply wframe_trans; [eapply wframe_makedirs, Hm|]. eapply L, Hl.
  - eapply wframe_trans; [eapply wframe_makedirs, Hm|].
    eapply wframe_trans; [eapply L, Hl|]. eapply Q, quiet_print, Hp.
  - eapply wframe_trans; [eapply wframe_makedirs, Hm|].
    eapply wframe_trans; [eapply L, Hl|].
    eapply wframe_trans; [eapply Q, quiet_anuncio, Han|].
    eapply block_frame, Hw.
  - eapply wframe_trans; [eapply wframe_makedirs, Hm|].
    eapply wframe_trans; [eapply L, Hl|].
    eapply wframe_trans; [eapply Q, quiet_anuncio, Han|].
    eapply wframe_trans; [eapply block_frame, Hw|].
    eapply Q, quiet_resumo, Hr.
Qed.

End Frame.

Lemma split_last p : last (Str.split "/" p) "" = snd (Posixpath.split_raw p).
Proof.
  unfold Posixpath.split_raw, Posixpath.sep.
  destruct (Str.rcut "/" p) as [[pre suf]|] eqn:Er.
  - destruct (rcut_spec _ _ _ _ Er) as (Hp & q & -> & Hq). simpl. subst p.
    rewrite split_app_sep, (split_nosep _ _ Hq).
    now rewrite last_last.
  - assert (Hh : Str.has "/" p = false).
    { destruct (Str.has "/" p) eqn:E; [|reflexivity].
      destruct (rcut_some _ _ E) as (a & b & Hab). congruence. }
    now rewrite (split_nosep _ _ Hh).
Qed.

Lemma canon_last root : forall cs st ns,
  FS.canon root st cs = Some ns -> cs <> [] ->
  OS.bad_name (last cs "") = false ->
  last ns "" = last cs "".
Proof.
  induction cs as [|c r IH]; intros st ns H Hne Hb; [now elim Hne|].
  simpl in H. destruct (FS.is_dir (FS.lookup root st)); [|discriminate].
  destruct r as [|c2 r].
  - simpl in Hb |- *. unfold OS.bad_name in Hb.
    apply orb_false_iff in Hb. destruct Hb as [Hb H3].
    apply orb_false_iff in Hb. destruct Hb as [H1 H2].
    rewrite H1, H2, H3 in H. simpl in H.
    destruct (FS.lookup root (st ++ [c])%list); [|discriminate].
    simpl in H. injection H as <-. apply last_last.
  - change (last (c :: c2 :: r) "") with (last (c2 :: r) "") in *.
    destruct (String.eqb c "" || String.eqb c ".");
      [eapply IH; eauto; discriminate|].
    destruct (String.eqb c ".."); [eapply IH; eauto; discriminate|].
    destruct (FS.lookup root (st ++ [c])%list); [|discriminate].
    eapply IH; eauto; discriminate.
Qed.

Lemma ext_in_exts_proper b : ext_in_exts b = true -> OS.bad_name b = false.
Proof.
  intros H. unfold OS.bad_name.
  destruct (String.eqb b "") eqn:E1; [apply String.eqb_eq in E1; now subst b|].
  destruct (String.eqb b ".") eqn:E2; [apply String.eqb_eq in E2; now subst b|].
  destruct (String.eqb b "..") eqn:E3; [apply String.eqb_eq in E3; now subst b|].
  reflexivity.
Qed.

Lemma saida_not_recognised f dest rel :
  ext_in_exts (snd (Posixpath.split_raw (saida_de f dest rel))) = false.
Proof.
  assert (K := saida_name_fresh false f dest rel Junk).
  simpl in K. now apply negb_true_iff in K.
Qed.

(** X15. The pictures of the source are never modified: whatever the
    arguments, the scheduling and the outcome of a run (also with
    [overwrite], also when the destination is the source directory), a
    regular file whose name has a recognised extension has, after the run,
    the content it had before. *)
Theorem run_keeps_the_pictures
        sched pasta_origem pasta_destino qualidade subsampling progressivo
        otimizar manter_metadata recursivo overwrite formato threads
        w r w' p c :
  converter_heic sched pasta_origem pasta_destino qualidade subsampling
                 progressivo otimizar manter_metadata recursivo overwrite
                 formato threads w = (r, w') ->
  FS.stat (w_cwd w) (w_fs w) p = Some (File c) ->
  ext_in_exts (snd (Posixpath.split_raw p)) = true ->
  FS.stat (w_cwd w') (w_fs w') p = Some (File c).
Proof.
  intros H Hs Hk. apply converter_heic_run in H.
  destruct (run_evolves _ _ _ _ _ _ _ _ _ _ _ _ _ _ _ H) as [[Hc _] G].
  assert (F := run_frame ext_in_exts saida_not_recognised
                         _ _ _ _ _ _ _ _ _ _ _ _ _ _ _ H).
  rewrite Hc. unfold FS.stat in *.
  destruct (FS.resolve (w_cwd w) (w_fs w) p) as [ns|] eqn:Er; [|discriminate].
  rewrite (grow_resolve _ _ _ _ _ _ G Er).
  apply F; [exact Hs|].
  unfold FS.resolve in Er. destruct (Str.is_empty p); [discriminate|].
  rewrite (canon_last _ _ _ _ Er).
  - now rewrite split_last.
  - apply split_not_nil.
  - rewrite split_last. now apply ext_in_exts_proper.
Qed.

Lemma run_keeps_the_pictures_witness :
  FS.stat (w_cwd (snd (converter_heic sched_imediato "/s" "/s" 90 0 true true
                                      true true true "png" None
                                      (mundo fs_duas_fotos))))
          (w_fs (snd (converter_heic sched_imediato "/s" "/s" 90 0 true true
                                     true true true "png" None
                                     (mundo fs_duas_fotos))))
          "/s/sub/b.HEIF" = Some (File (foto 2)).
Proof.
  apply (run_keeps_the_pictures
           sched_imediato "/s" "/s" 90 0 true true true true true "png" None
           (mundo fs_duas_fotos)
           (fst (converter_heic sched_imediato "/s" "/s" 90 0 true true true
                                true true "png" None (mundo fs_duas_fotos)))
           (snd (converter_heic sched_imediato "/s" "/s" 90 0 true true true
                                true true "png" None (mundo fs_duas_fotos)))
           "/s/sub/b.HEIF" (foto 2)).
  - vm_compute. reflexivity.
  - vm_compute. reflexivity.
  - vm_compute. reflexivity.
Defined.

(** ** The recursive enumeration misses nothing *)

Lemma assoc_In x m es : FS.assoc x es = Some m -> In (x, m) es.
Proof.
  induction es as [|[y k] es IH]; simpl; [discriminate|].
  destruct (String.eqb x y) eqn:E.
  - apply String.eqb_eq in E. subst y. intros [= <-]. now left.
  - intros H. right. auto.
Qed.

Lemma wf_lookup_names ns : forall n m,
  wf_node n = true -> FS.lookup n ns = Some m ->
  Forall (fun x => clean x = true) ns.
Proof.
  induction ns as [|x r IH]; intros n m Hn; simpl; [constructor|].
  destruct n as [c|es]; [discriminate|].
  destruct (FS.assoc x es) as [k|] eqn:E; [|discriminate].
  intros Hl. assert (Hin := assoc_In _ _ _ E).
  assert (He := wf_entries _ Hn). rewrite Forall_forall in He.
  destruct (He _ Hin) as [Hx Hk]. constructor; [exact Hx|]. eapply IH; eauto.
Qed.

Lemma assoc_filenames f c es :
  FS.assoc f es = Some (File c) -> In f (FS.filenames es).
Proof.
  intros H. apply assoc_In in H. unfold FS.filenames.
  apply in_map_iff. exists (f, File c). split; [reflexivity|].
  apply filter_In. auto.
Qed.

Lemma walk_entries_incl top d sub es :
  FS.assoc d es = Some (Dir sub) ->
  incl (FS.walk (Posixpath.join top d) (Dir sub)) (walk_entries top es).
Proof.
  induction es as [|[y k] es IH]; [discriminate|].
  cbn [FS.assoc walk_entries]. destruct (String.eqb d y) eqn:E.
  - apply String.eqb_eq in E. subst y. intros [= ->].
    intros t Ht. apply in_or_app. now left.
  - intros H. destruct k as [c|sub'].
    + now apply IH.
    + intros t Ht. apply in_or_app. right. now apply IH.
Qed.

(** [os.walk] reaches every directory below its top. *)
Lemma walk_complete ds : forall n top es,
  FS.lookup n ds = Some (Dir es) ->
  In (Posixpath.join_all top ds, FS.dirnames es, FS.filenames es) (FS.walk top n).
Proof.
  induction ds as [|d r IH]; intros n top es.
  - simpl. intros [= ->]. rewrite walk_dir. now left.
  - destruct n as [c|es0]; [discriminate|]. cbn [FS.lookup].
    destruct (FS.assoc d es0) as [m|] eqn:Ea; [|discriminate].
    intros Hl. rewrite walk_dir. right.
    assert (Hm : exists sub, m = Dir sub).
    { destruct m as [c|sub]; [|eauto].
      destruct r; simpl in Hl; discriminate. }
    destruct Hm as (sub & ->).
    apply (walk_entries_incl top d sub es0 Ea).
    change (Posixpath.join_all top (d :: r))
      with (Posixpath.join_all (Posixpath.join top d) r).
    now apply IH.
Qed.

(** X16. In a well-formed world the recursive enumeration is complete:
    for every regular file below the source directory, at any depth, whose
    name has a recognised extension, it yields the pair of the path of the
    file (the absolute source path joined with the names of the directories
    on the way and the name of the file) and of the same names joined by
    slashes, relative to the source. *)
Theorem listar_recursivo_completo pasta_origem w ficheiros w' raiz ds f c :
  wf_world w ->
  _listar_ficheiros_heic pasta_origem true w = (Ok ficheiros, w') ->
  FS.stat (w_cwd w) (w_fs w) (Posixpath.abspath (w_cwd w) pasta_origem)
  = Some raiz ->
  FS.lookup raiz (ds ++ [f]) = Some (File c) ->
  ext_in_exts f = true ->
  In (Posixpath.join
        (Posixpath.join_all (Posixpath.abspath (w_cwd w) pasta_origem) ds) f,
      Str.join_with "/" (ds ++ [f]))
     ficheiros.
Proof.
  intros [Hcwd Hwf] H Hs Hl He.
  unfold _listar_ficheiros_heic, bind, OS.path_abspath in H.
  set (orig := Posixpath.abspath (w_cwd w) pasta_origem) in *.
  assert (Hn : normal orig) by now apply normal_abspath.
  unfold OS.walk in H. rewrite Hs in H.
  unfold bind, emit, ret in H. simpl in H. injection H as <- _.
  assert (Hr : wf_node raiz = true) by (eapply wf_stat; eassumption).
  assert (Hc := wf_lookup_names _ _ _ Hr Hl).
  apply Forall_app in Hc. destruct Hc as [Hds Hf].
  inversion Hf as [|? ? Hcf _]; subst.
  rewrite lookup_app in Hl.
  destruct (FS.lookup raiz ds) as [[c0|es]|] eqn:Ed; try discriminate.
  simpl in Hl. destruct (FS.assoc f es) as [m|] eqn:Ea; [|discriminate].
  injection Hl as ->.
  apply in_flat_map.
  exists (Posixpath.join_all orig ds, FS.dirnames es, FS.filenames es).
  split; [now apply walk_complete|].
  apply in_map_iff. exists f. split.
  - f_equal. now apply relpath_under.
  - apply filter_In. split; [eapply assoc_filenames, Ea|exact He].
Qed.

Lemma listar_recursivo_completo_witness :
  In (Posixpath.join
        (Posixpath.join_all (Posixpath.abspath (w_cwd (mundo fs_exemplo)) "s")
                            ["sub"]) "b.HEIF",
      Str.join_with "/" (["sub"] ++ ["b.HEIF"]))
     [("/s/a.heic", "a.heic"); ("/s/sub/b.HEIF", "sub/b.HEIF");
      ("/s/sub/bad.heic", "sub/bad.heic")].
Proof.
  apply (listar_recursivo_completo
           "s" (mundo fs_exemplo)
           [("/s/a.heic", "a.heic"); ("/s/sub/b.HEIF", "sub/b.HEIF");
            ("/s/sub/bad.heic", "sub/bad.heic")]
           (snd (_listar_ficheiros_heic "s" true (mundo fs_exemplo)))
           (Dir [("a.heic", File (foto 1));
                 ("n.txt", File Junk);
                 ("sub", Dir [("b.HEIF", File (foto 2));
                              ("bad.heic", File Junk)]);
                 ("album.heic", Dir [])])
           ["sub"] "b.HEIF" (foto 2)).
  - split; reflexivity.
  - vm_compute. reflexivity.
  - vm_compute. reflexivity.
  - vm_compute. reflexivity.
  - vm_compute. reflexivity.
Defined.

(** ** After a run without errors *)

(** The submission loop of a run with [overwrite] set: every file is
    submitted. *)
Lemma cover_submeter_ow cwd sched q ss pr ot mm f dest l : forall i outs x x',
  cover cwd outs outs x ->
  submeter sched q ss pr ot mm true f dest i l x = (Ok tt, x') ->
  cover cwd (outs ++ map (fun fr => saida_de f dest (snd fr)) l)
        (outs ++ map (fun fr => saida_de f dest (snd fr)) l) x'.
Proof.
  induction l as [|[a rel] rest IH]; intros i outs x x' Hx; simpl.
  - intros [= <-]. now rewrite app_nil_r.
  - intros H. apply bind_inv in H.
    destruct H as [([] & x1 & H1 & H)|(e & _ & ?)]; [|discriminate].
    assert (C1 : cover cwd outs outs x1) by (eapply cover_workers; eassumption).
    clear H1 Hx x. apply bind_inv in H.
    destruct H as [(saida & x2 & H2 & H)|(e & _ & ?)]; [|discriminate].
    assert (C2 : cover cwd outs outs x2).
    { eapply cover_lift; [apply wstep_any_destino|exact C1|exact H2]. }
    assert (D2 : dir_ok cwd (w_fs (x_world x2)) saida /\ saida = saida_de f dest rel).
    { unfold lift in H2. destruct (destino_para _ _ _ _) as [r1 w1] eqn:E.
      inversion H2; subst. simpl. destruct C1 as (Hc1 & _). rewrite <- Hc1.
      split; [eapply destino_dir_ok, E|eapply destino_value, E]. }
    destruct D2 as [D2 ->]. clear H2 C1 x1.
    assert (C2' : cover cwd (outs ++ [saida_de f dest rel]) outs x2).
    { destruct C2 as (Hc & Hd & He). split; [exact Hc|]. split; [|exact He].
      intros s Hs. apply in_app_or in Hs. destruct Hs as [Hs|[<-|[]]]; auto. }
    clear C2 D2. apply bind_inv in H.
    destruct H as [([] & x3 & H3 & H)|(e & _ & ?)]; [|discriminate].
    assert (C3 : cover cwd (outs ++ [saida_de f dest rel]) outs x3)
      by (eapply cover_workers; eassumption).
    clear H3 C2' x2. unfold bind at 1 in H. destruct x3 as [w3 p3 f3].
    unfold lift at 1, OS.path_exists at 1 in H.
    cbn [x_world x_pending x_finished negb andb] in H.
    set (s := saida_de f dest rel) in *.
    apply bind_inv in H.
    destruct H as [([] & x4 & H4 & H)|(e & _ & ?)]; [|discriminate].
    assert (C4 : cover cwd (outs ++ [s]) (outs ++ [s]) x4).
    { destruct C3 as (Hc & Hd & He). simpl in Hc.
      unfold submit, emit in H4. simpl in H4. injection H4 as <-.
      split; [exact Hc|]. split; [exact Hd|]. simpl.
      destruct He as [He|He]; [now left|right]. intros s' Hs'.
      rewrite map_app. apply in_app_or in Hs'.
      destruct Hs' as [Hs'|[<-|[]]].
      + destruct (He s' Hs') as [H'|H']; [now left|right].
        apply in_or_app. now left.
      + right. apply in_or_app. right. now left. }
    apply (IH _ _ _ _ C4) in H.
    now rewrite <- !app_assoc in H.
Qed.

Lemma block_leaves_outputs_ow final sched q ss pr ot mm f dest fich w4 c w5 :
  with_executor final (corpo sched q ss pr ot mm true f dest fich) w4
  = (Ok (c, 0), w5) ->
  w_cwd w5 = w_cwd w4
  /\ forall fr, In fr fich ->
                FS.stat (w_cwd w4) (w_fs w5) (saida_de f dest (snd fr)) <> None
                /\ dir_ok (w_cwd w4) (w_fs w5) (saida_de f dest (snd fr)).
Proof.
  unfold with_executor.
  set (x0 := {| x_world := w4; x_pending := []; x_finished := [] |}).
  destruct (corpo _ _ _ _ _ _ _ _ _ _ x0) as [rx x] eqn:Eb.
  destruct (wait_all final x) as [u x'] eqn:Ew. intros [= -> <-].
  unfold corpo in Eb. apply bind_inv in Eb.
  destruct Eb as [([] & x1 & Hs & Ha)|(e & _ & ?)]; [|discriminate].
  assert (C0 : cover (w_cwd w4) [] [] x0).
  { split; [reflexivity|]. split; [intros s []|right; intros s []]. }
  apply (cover_submeter_ow _ _ _ _ _ _ _ _ _ _ _ _ _ _ C0) in Hs. simpl in Hs.
  destruct (as_completed_result _ _ _ _ _ Ha) as [Hp Hr].
  assert (C2 : cover (w_cwd w4) (map (fun fr => saida_de f dest (snd fr)) fich)
                     (map (fun fr => saida_de f dest (snd fr)) fich) x).
  { revert Ha. unfold as_completed.
    eapply keeps_bind; [apply cover_wait_all| |exact Hs].
    intros _ y ry y' Hy. apply cover_lift; [|exact Hy].
    apply wstep_contar. exact ok_any_stable. }
  rewrite (wait_all_idle _ _ Hp) in Ew. inversion Ew; subst x'.
  destruct C2 as (Hc & Hd & He). split; [exact Hc|].
  intros fr Hfr.
  assert (Hin : In (saida_de f dest (snd fr))
                   (map (fun fr => saida_de f dest (snd fr)) fich))
    by (apply in_map_iff; eauto).
  split; [|now apply Hd].
  destruct He as [(t & e & Hf)|He].
  - exfalso. inversion Hr as [[Hc' He']]. symmetry in He'.
    eapply no_failures; eassumption.
  - destruct (He _ Hin) as [H|H]; [exact H|]. rewrite Hp in H. destruct H.
Qed.

(** X17. After a run that returns with an errors tally of zero, whatever
    [overwrite] and the scheduling, every file the run enumerated has
    something at its output path: the destination joined with the relative
    path of the file, its extension replaced by [.jpg] or [.png]. *)
Theorem run_without_errors_leaves_outputs
        sched pasta_origem pasta_destino qualidade subsampling progressivo
        otimizar manter_metadata recursivo overwrite formato threads
        w convertidos w' :
  converter_heic sched pasta_origem pasta_destino qualidade subsampling
                 progressivo otimizar manter_metadata recursivo overwrite
                 formato threads w = (Ok (convertidos, 0), w') ->
  exists ficheiros,
    ficheiros_de pasta_origem pasta_destino recursivo w = Ok ficheiros
    /\ forall fr, In fr ficheiros ->
         FS.stat (w_cwd w') (w_fs w')
                 (Posixpath.join
                    (Posixpath.abspath (w_cwd w) pasta_destino)
                    (fst (Posixpath.splitext (snd fr))
                       ++ (if String.eqb (Str.lower formato) "jpeg"
                           then ".jpg" else ".png")))
         <> None.
Proof.
  intros H. apply converter_heic_run in H.
  assert (Hc' : w_cwd w' = w_cwd w).
  { now destruct (run_evolves _ _ _ _ _ _ _ _ _ _ _ _ _ _ _ H) as [[Hc _] _]. }
  inversion H as [ | |w1 r1 w1' Hd Hf Ha Hb]; subst.
  destruct (aviso_log _ _ _ _ _ Ha) as (_ & _ & Fa & Ca & _).
  inversion Hb as [ | |w2 w3 w4 Hm Hl Hp
                   | |w2 fich w3 w4 t w5 w6 Hm Hl Hne Han Hx Hr]; subst.
  - exists []. split; [eapply ficheiros_de_eq; eauto|]. intros fr [].
  - exists fich. split; [eapply ficheiros_de_eq; eauto|].
    destruct (quiet_resumo _ _ _ Hr) as (F6 & _).
    destruct (quiet_anuncio _ _ _ _ _ _ _ _ _ _ _ _ _ _ Han) as (_ & C4 & _).
    destruct (listar_fs _ _ _ _ _ Hl) as (_ & C3 & _).
    destruct (wstep_any_makedirs _ _ _ _ Hm) as ((C2 & _) & _).
    assert (E4 : w_cwd w4 = w_cwd w) by congruence.
    assert (K : forall fr, In fr fich ->
                  FS.stat (w_cwd w4) (w_fs w5)
                          (saida_de (Str.lower formato)
                                    (Posixpath.abspath (w_cwd w1) pasta_destino)
                                    (snd fr)) <> None).
    { destruct overwrite.
      - intros fr Hfr.
        now destruct (proj2 (block_leaves_outputs_ow _ _ _ _ _ _ _ _ _ _ _ _ _ Hx)
                            fr Hfr).
      - intros fr Hfr.
        now destruct (proj2 (block_leaves_outputs _ _ _ _ _ _ _ _ _ _ _ _ _ Hx)
                            fr Hfr). }
    intros fr Hfr. specialize (K fr Hfr). rewrite E4, Ca in K.
    rewrite Hc', F6. exact K.
Qed.

Lemma run_without_errors_leaves_outputs_witness :
  exists ficheiros,
    ficheiros_de "/s" "out" true (mundo fs_duas_fotos) = Ok ficheiros
    /\ forall fr, In fr ficheiros ->
         FS.stat (w_cwd (snd (converter_heic sched_tardio "/s" "out" 90 0 true
                                             true true true true "PNG" None
                                             (mundo fs_duas_fotos))))
                 (w_fs (snd (converter_heic sched_tardio "/s" "out" 90 0 true
                                            true true true true "PNG" None
                                            (mundo fs_duas_fotos))))
                 (Posixpath.join
                    (Posixpath.abspath (w_cwd (mundo fs_duas_fotos)) "out")
                    (fst (Posixpath.splitext (snd fr))
                       ++ (if String.eqb (Str.lower "PNG") "jpeg"
                           then ".jpg" else ".png")))
         <> None.
Proof.
  apply (run_without_errors_leaves_outputs
           sched_tardio "/s" "out" 90 0 true true true true true "PNG" None
           (mundo fs_duas_fotos) 2
           (snd (converter_heic sched_tardio "/s" "out" 90 0 true true true true
                                true "PNG" None (mundo fs_duas_fotos)))).
  vm_compute. reflexivity.
Defined.

(** ** The recursive enumeration yields regular files only *)

Lemma distinct_entries es :
  distinct (Dir es) = true ->
  NoDup (map fst es) /\ Forall (fun e => distinct (snd e) = true) es.
Proof.
  simpl. induction es as [|[x m] es IH]; [split; constructor|].
  intros H. apply andb_prop in H. destruct H as [H H3].
  apply andb_prop in H. destruct H as [H1 H2].
  destruct (IH H3) as [Hn Hf]. split; [|constructor; auto].
  simpl. constructor; [|exact Hn].
  intros Hin. apply negb_true_iff in H1.
  assert (Ht : existsb (String.eqb x) (map fst es) = true).
  { apply existsb_exists. exists x. split; [exact Hin|apply String.eqb_refl]. }
  congruence.
Qed.

Lemma nodup_assoc es x m :
  NoDup (map fst es) -> In (x, m) es -> FS.assoc x es = Some m.
Proof.
  induction es as [|[y k] es IH]; simpl; [intros _ []|].
  intros Hn [H|H].
  - injection H as -> ->. now rewrite String.eqb_refl.
  - inversion Hn as [|? ? Hy Hn']; subst.
    destruct (String.eqb x y) eqn:E; [|now apply IH].
    apply String.eqb_eq in E. subst y. exfalso. apply Hy.
    apply in_map_iff. now exists (x, m).
Qed.

Lemma walk_entries_in top t es :
  In t (walk_entries top es) ->
  exists d sub, In (d, Dir sub) es /\ In t (FS.walk (Posixpath.join top d) (Dir sub)).
Proof.
  induction es as [|[y k] es IH]; [intros []|].
  cbn [walk_entries]. destruct k as [c|sub].
  - intros H. destruct (IH H) as (d & s & Hin & Ht). exists d, s. split; [now right|exact Ht].
  - intros H. apply in_app_or in H. destruct H as [H|H].
    + exists y, sub. split; [now left|exact H].
    + destruct (IH H) as (d & s & Hin & Ht). exists d, s. split; [now right|exact Ht].
Qed.

Lemma filenames_in f es : In f (FS.filenames es) -> exists c, In (f, File c) es.
Proof.
  unfold FS.filenames. intros H. apply in_map_iff in H.
  destruct H as ([x m] & <- & H). apply filter_In in H. destruct H as [H Hm].
  destruct m as [c|?]; [|discriminate]. now exists c.
Qed.

(** Every triple of [os.walk] is the listing of a directory below the
    top. *)
Lemma walk_sound n : forall top raiz dirs files,
  distinct n = true ->
  In (raiz, dirs, files) (FS.walk top n) ->
  exists ds es, FS.lookup n ds = Some (Dir es)
                /\ raiz = Posixpath.join_all top ds
                /\ files = FS.filenames es.
Proof.
  induction n as [c|es IH] using node_ind; intros top raiz dirs files Hd;
    [intros []|].
  rewrite walk_dir. intros [H|H].
  - inversion H; subst. now exists [], es.
  - destruct (walk_entries_in _ _ _ H) as (d & sub & Hin & Ht).
    destruct (distinct_entries _ Hd) as [Hn Hf].
    rewrite Forall_forall in IH, Hf.
    destruct (IH _ Hin _ _ _ _ (Hf _ Hin) Ht) as (ds & es' & Hl & -> & ->).
    exists (d :: ds), es'. cbn [FS.lookup].
    rewrite (nodup_assoc _ _ _ Hn Hin). auto.
Qed.

(** X18. In a well-formed world where no directory of the source has two
    entries of the same name, everything the recursive enumeration yields is
    a regular file below the source whose name has a recognised extension,
    with the path of the file and its path relative to the source: a
    directory is never yielded, whatever its name. *)
Theorem listar_recursivo_so_ficheiros pasta_origem w ficheiros w' raiz a rel :
  wf_world w ->
  _listar_ficheiros_heic pasta_origem true w = (Ok ficheiros, w') ->
  FS.stat (w_cwd w) (w_fs w) (Posixpath.abspath (w_cwd w) pasta_origem)
  = Some raiz ->
  distinct raiz = true ->
  In (a, rel) ficheiros ->
  exists ds f c,
    FS.lookup raiz (ds ++ [f]) = Some (File c)
    /\ ext_in_exts f = true
    /\ a = Posixpath.join
             (Posixpath.join_all (Posixpath.abspath (w_cwd w) pasta_origem) ds) f
    /\ rel = Str.join_with "/" (ds ++ [f]).
Proof.
  intros [Hcwd Hwf] H Hs Hd Hin.
  unfold _listar_ficheiros_heic, bind, OS.path_abspath in H.
  set (orig := Posixpath.abspath (w_cwd w) pasta_origem) in *.
  assert (Hn : normal orig) by now apply normal_abspath.
  unfold OS.walk in H. rewrite Hs in H.
  unfold bind, emit, ret in H. simpl in H. injection H as <- _.
  assert (Hr : wf_node raiz = true) by (eapply wf_stat; eassumption).
  apply in_flat_map in Hin. destruct Hin as ([[top dirs] files] & Hw & Hp).
  apply in_map_iff in Hp. destruct Hp as (f & [= <- <-] & Hf).
  apply filter_In in Hf. destruct Hf as [Hf He].
  destruct (walk_sound _ _ _ _ _ Hd Hw) as (ds & es & Hl & -> & ->).
  destruct (filenames_in _ _ Hf) as (c & Hc).
  assert (Hes : distinct (Dir es) = true).
  { clear - Hd Hl. revert raiz Hd Hl.
    induction ds as [|d r IH]; intros n Hd; simpl; [now intros [= ->]|].
    destruct n as [c|es0]; [discriminate|].
    destruct (FS.assoc d es0) as [m|] eqn:Ea; [|discriminate].
    apply IH. destruct (distinct_entries _ Hd) as [_ Hf].
    rewrite Forall_forall in Hf. apply (Hf (d, m)). now apply assoc_In. }
  destruct (distinct_entries _ Hes) as [Hnd _].
  assert (Hlf : FS.lookup raiz (ds ++ [f]) = Some (File c)).
  { rewrite lookup_app, Hl. simpl. now rewrite (nodup_assoc _ _ _ Hnd Hc). }
  exists ds, f, c. split; [exact Hlf|]. split; [exact He|].
  split; [reflexivity|].
  assert (Hcl := wf_lookup_names _ _ _ Hr Hlf).
  apply Forall_app in Hcl. destruct Hcl as [Hds Hcf].
  inversion Hcf; subst. now apply relpath_under.
Qed.

Lemma listar_recursivo_so_ficheiros_witness :
  exists ds f c,
    FS.lookup (Dir [("a.heic", File (foto 1));
                    ("n.txt", File Junk);
                    ("sub", Dir [("b.HEIF", File (foto 2));
                                 ("bad.heic", File Junk)]);
                    ("album.heic", Dir [])]) (ds ++ [f]) = Some (File c)
    /\ ext_in_exts f = true
    /\ "/s/sub/bad.heic"
       = Posixpath.join
           (Posixpath.join_all (Posixpath.abspath (w_cwd (mundo fs_exemplo)) "s") ds) f
    /\ "sub/bad.heic" = Str.join_with "/" (ds ++ [f]).
Proof.
  apply (listar_recursivo_so_ficheiros
           "s" (mundo fs_exemplo)
           [("/s/a.heic", "a.heic"); ("/s/sub/b.HEIF", "sub/b.HEIF");
            ("/s/sub/bad.heic", "sub/bad.heic")]
           (snd (_listar_ficheiros_heic "s" true (mundo fs_exemplo)))).
  - split; reflexivity.
  - vm_compute. reflexivity.
  - vm_compute. reflexivity.
  - vm_compute. reflexivity.
  - simpl. auto.
Defined.

(** ** A destination that cannot be created *)

Lemma mkdirs_blocked p pre : forall n rest c,
  FS.lookup n pre = Some (File c) ->
  FS.mkdirs p n (pre ++ rest)
  = Raise (match rest with
           | [] => FileExistsError p
           | _ :: _ => NotADirectoryError p
           end).
Proof.
  induction pre as [|x r IH]; intros n rest c; simpl.
  - intros [= ->]. now destruct rest.
  - destruct n as [c0|es]; [discriminate|].
    destruct (FS.assoc x es) as [m|]; [|discriminate].
    intros Hl. now rewrite (IH _ rest _ Hl).
Qed.

(** X19. When the destination path, or one of the directories above it,
    is a regular file, a run whose source and format are valid raises the
    error of [os.makedirs] ([FileExistsError] when the destination itself is
    the file, [NotADirectoryError] otherwise) before it lists or converts
    anything: the file system is unchanged and at most the quality warning
    has been printed. *)
Theorem destination_blocked_by_a_file
        sched pasta_origem pasta_destino qualidade subsampling progressivo
        otimizar manter_metadata recursivo overwrite formato threads
        w pre rest c :
  Posixpath.isabs (w_cwd w) = true ->
  FS.is_dir (FS.stat (w_cwd w) (w_fs w) pasta_origem) = true ->
  existsb (String.eqb (Str.lower formato)) ["jpeg"; "png"] = true ->
  FS.names (Posixpath.abspath (w_cwd w) pasta_destino) = (pre ++ rest)%list ->
  FS.lookup (w_fs w) pre = Some (File c) ->
  exists e w',
    converter_heic sched pasta_origem pasta_destino qualidade subsampling
                   progressivo otimizar manter_metadata recursivo overwrite
                   formato threads w = (Raise e, w')
    /\ match rest with
       | [] => exists s, e = FileExistsError s
       | _ :: _ => exists s, e = NotADirectoryError s
       end
    /\ w_fs w' = w_fs w
    /\ news w w' = if Z.ltb 95 qualidade && String.eqb (Str.lower formato) "jpeg"
                   then [EvPrint MsgAvisoQualidade] else [].
Proof.
  intros Hcwd Hd Hf Hn Hl.
  destruct (aviso_ok qualidade (Str.lower formato) w) as (w1 & Ha).
  destruct (aviso_log _ _ _ _ _ Ha) as (_ & La & Fa & Ca & _).
  set (dest := Posixpath.abspath (w_cwd w) pasta_destino) in *.
  set (e := match rest with
            | [] => FileExistsError dest
            | _ :: _ => NotADirectoryError dest
            end).
  assert (Hm : OS.makedirs dest w1 = (Raise e, w1)).
  { unfold OS.makedirs. rewrite Ca, Fa.
    rewrite (names_abspath_normal (w_cwd w) dest) by now apply normal_abspath.
    rewrite Hn, (mkdirs_blocked _ _ _ _ _ Hl). reflexivity. }
  exists e, w1. split.
  - apply run_converter_heic.
    apply (run_started _ _ _ _ _ _ _ _ _ _ _ _ _ w1); auto.
    apply run_no_destination. rewrite Ca. exact Hm.
  - split; [unfold e; destruct rest; eauto|]. split; [exact Fa|].
    now apply news_app.
Qed.

Lemma destination_blocked_by_a_file_witness :
  exists e w',
    converter_heic sched_tardio "/s" "/s/n.txt/out" 96 0 true true true true
                   false "jpeg" None (mundo fs_exemplo) = (Raise e, w')
    /\ match ["out"] with
       | [] => exists s, e = FileExistsError s
       | _ :: _ => exists s, e = NotADirectoryError s
       end
    /\ w_fs w' = w_fs (mundo fs_exemplo)
    /\ news (mundo fs_exemplo) w'
       = if Z.ltb 95 96 && String.eqb (Str.lower "jpeg") "jpeg"
         then [EvPrint MsgAvisoQualidade] else [].
Proof.
  apply (destination_blocked_by_a_file
           sched_tardio "/s" "/s/n.txt/out" 96 0 true true true true false
           "jpeg" None (mundo fs_exemplo) ["s"; "n.txt"] ["out"] Junk
           eq_refl eq_refl eq_refl eq_refl eq_refl).
Defined.

(** ** The output is tested when the file is reached *)


































(** Two files with one output path, [overwrite] false.  When the first
    task has run before the second file is reached, the second file is
    skipped for the output written in this same run; when no task runs
    before the loop ends, both are submitted. *)
Example saida_escrita_na_mesma_corrida :
  let w := mundo (Dir [("s", Dir [("IMG.heic", File (foto 1));
                                  ("IMG.HEIF", File (foto 2))])]) in
  let cedo := converter_heic sched_imediato "/s" "/out" 90 0 true true true
                             true false "jpeg" None w in
  let tarde := converter_heic sched_tardio "/s" "/out" 90 0 true true true
                              true false "jpeg" None w in
  fst cedo = Ok (1, 0)
  /\ map t_caminho_entrada (submitted (w_log (snd cedo))) = ["/s/IMG.heic"]
  /\ saves (w_log (snd cedo)) = ["/out/IMG.jpg"]
  /\ fst tarde = Ok (2, 0)
  /\ map t_caminho_saida (submitted (w_log (snd tarde)))
     = ["/out/IMG.jpg"; "/out/IMG.jpg"].
Proof. vm_compute. repeat split. Qed.

(** ** The format, in any letter case *)






(** ** A run, whatever its outcome *)

Lemma Forall_map_erro P l : Forall (opcoes_com P) (map MsgErro l).
Proof. induction l; simpl; constructor; simpl; auto. Qed.

(** The tasks a run submits and the options line it prints, also when it
    raises. *)
Lemma run_outcomes sched po pd q ss pr ot mm rec ow fmt th w r w' :
  run sched po pd q ss pr ot mm rec ow fmt th w r w' ->
  exists evs l',
    w_log w' = (w_log w ++ evs)%list
    /\ submitted evs
       = map (tarefa_de (Str.lower fmt) (Posixpath.abspath (w_cwd w) pd)
                        q ss pr ot mm) l'
    /\ (l' = []
        \/ exists fich, ficheiros_de po pd rec w = Ok fich
                        /\ incl l' fich /\ List.length l' <= List.length fich)
    /\ Forall (opcoes_com (eq (resolve_threads th (w_cpu_count w)))) (prints evs).
Proof.
  intros [Hd|Hd Hf|w1 r1 w1' Hd Hf Ha Hb].
  - exists [], []. rewrite app_nil_r. simpl. auto.
  - exists [], []. rewrite app_nil_r. simpl. auto.
  - destruct (aviso_log _ _ _ _ _ Ha) as (_ & La & Fa & Ca & Pa).
    set (ea := if Z.ltb 95 q && String.eqb (Str.lower fmt) "jpeg"
               then [EvPrint MsgAvisoQualidade] else []) in *.
    assert (Ma : submitted ea = []
                 /\ Forall (opcoes_com (eq (resolve_threads th (w_cpu_count w))))
                           (prints ea)).
    { unfold ea. destruct (_ && _); simpl; auto. split; auto.
      constructor; simpl; auto. }
    destruct Ma as (Ba & Pra).
    destruct Hb as [e w2 Hm|w2 e w3 Hm Hl|w2 w3 w4 Hm Hl Hp
                    |w2 fich w3 w4 e w5 Hm Hl Hne Han Hw
                    |w2 fich w3 w4 t w5 w6 Hm Hl Hne Han Hw Hr].
    + destruct (quietly_makedirs _ _ _ _ Hm) as (em & Lm & Pm & _ & Bm & _).
      exists (ea ++ em)%list, []. rewrite Lm, La, <- app_assoc.
      rewrite submitted_app, prints_app, Ba, Bm, Pm, !app_nil_r. simpl.
      repeat split; auto.
    + destruct (quietly_makedirs _ _ _ _ Hm) as (em & Lm & Pm & _ & Bm & _).
      destruct (quietly_listar _ _ _ _ _ Hl) as (el & Ll & Pl & _ & Bl & _).
      exists (ea ++ em ++ el)%list, []. rewrite Ll, Lm, La, <- !app_assoc.
      rewrite !submitted_app, !prints_app, Ba, Bm, Bl, Pm, Pl, !app_nil_r.
      simpl. repeat split; auto.
    + destruct (quietly_makedirs _ _ _ _ Hm) as (em & Lm & Pm & _ & Bm & _).
      destruct (quietly_listar _ _ _ _ _ Hl) as (el & Ll & Pl & _ & Bl & _).
      exists (ea ++ em ++ el ++ [EvPrint (MsgNenhumFicheiro po)])%list, [].
      unfold print, emit in Hp. inversion Hp; subst w4. simpl.
      rewrite Ll, Lm, La, <- !app_assoc. split; [reflexivity|].
      rewrite !submitted_app, !prints_app, Ba, Bm, Bl, Pm, Pl. simpl.
      split; [reflexivity|]. split; [now left|].
      apply Forall_app. split; [exact Pra|]. constructor; simpl; auto.
    + destruct (quietly_makedirs _ _ _ _ Hm) as (em & Lm & Pm & _ & Bm & _).
      destruct (quietly_listar _ _ _ _ _ Hl) as (el & Ll & Pl & _ & Bl & _).
      destruct (anuncio_log _ _ _ _ _ _ _ _ _ _ _ _ _ _ _ Han) as (_ & Ln).
      destruct (block_log _ _ _ _ _ _ _ _ _ _ _ _ _ _ Hw)
        as (eb & l' & Lb & _ & Bb & Hi & Hn & Prb).
      assert (Hcpu : w_cpu_count w3 = w_cpu_count w).
      { destruct (wstep_any_makedirs _ _ _ _ Hm) as ((_ & E2) & _).
        destruct (wstep_listar ok_any ok_any_stable _ _ _ _ _ Hl) as ((_ & E3) & _).
        congruence. }
      exists (ea ++ em ++ el
                 ++ [EvPrint (MsgAConverter (List.length fich) po pd);
                     EvPrint (MsgOpcoes (Str.lower fmt) q ss pr ot mm rec ow
                                (resolve_threads th (w_cpu_count w3)))]
                 ++ eb)%list, l'.
      rewrite Lb, Ln, Ll, Lm, La, <- !app_assoc. split; [reflexivity|].
      rewrite !submitted_app, !prints_app, Ba, Bm, Bl, Pm, Pl, Prb. simpl.
      rewrite ?app_nil_r. split; [now rewrite <- Ca at 1|]. split.
      * right. exists fich. split; [eapply ficheiros_de_eq; eauto|]. auto.
      * apply Forall_app. split; [exact Pra|].
        constructor; [exact I|]. constructor; [|constructor]. simpl.
        now rewrite Hcpu.
    + destruct (quietly_makedirs _ _ _ _ Hm) as (em & Lm & Pm & _ & Bm & _).
      destruct (quietly_listar _ _ _ _ _ Hl) as (el & Ll & Pl & _ & Bl & _).
      destruct (anuncio_log _ _ _ _ _ _ _ _ _ _ _ _ _ _ _ Han) as (_ & Ln).
      destruct (block_log _ _ _ _ _ _ _ _ _ _ _ _ _ _ Hw)
        as (eb & l' & Lb & _ & Bb & Hi & Hn & _ & Prb).
      destruct (resumo_log _ _ _ _ Hr) as (_ & Lr).
      assert (Hcpu : w_cpu_count w3 = w_cpu_count w).
      { destruct (wstep_any_makedirs _ _ _ _ Hm) as ((_ & E2) & _).
        destruct (wstep_listar ok_any ok_any_stable _ _ _ _ _ Hl) as ((_ & E3) & _).
        congruence. }
      exists (ea ++ em ++ el
                 ++ [EvPrint (MsgAConverter (List.length fich) po pd);
                     EvPrint (MsgOpcoes (Str.lower fmt) q ss pr ot mm rec ow
                                (resolve_threads th (w_cpu_count w3)))]
                 ++ eb
                 ++ [EvPrint MsgConcluida; EvPrint (MsgConvertidos (fst t));
                     EvPrint (MsgComErro (snd t))])%list, l'.
      rewrite Lr, Lb, Ln, Ll, Lm, La, <- !app_assoc. split; [reflexivity|].
      rewrite !submitted_app, !prints_app, Ba, Bm, Bl, Pm, Pl, Prb. simpl.
      rewrite ?app_nil_r. split; [now rewrite <- Ca at 1|]. split.
      * right. exists fich. split; [eapply ficheiros_de_eq; eauto|]. auto.
      * apply Forall_app. split; [exact Pra|].
        constructor; [exact I|]. constructor; [simpl; now rewrite Hcpu|].
        apply Forall_app. split; [apply Forall_map_erro|].
        repeat constructor.
Qed.

Lemma resolve_threads_certa threads cpus :
  (1 <= resolve_threads threads cpus)%Z
  /\ contagem_certa threads cpus (resolve_threads threads cpus).
Proof.
  unfold resolve_threads, contagem_certa.
  destruct threads as [t|].
  - destruct (Z.leb_spec t 0), (Z.ltb_spec 0 t); try lia;
      [|split; [lia|reflexivity]].
    destruct cpus as [c|]; [|split; [lia|reflexivity]].
    destruct (Z.eqb_spec c 0); lia.
  - destruct cpus as [c|]; [|split; [lia|reflexivity]].
    destruct (Z.eqb_spec c 0); lia.
Qed.

(** X1. The number of workers a run announces in its options line is
    never less than 1 and is the one of lines 131 to 133: a positive
    [threads] as it is, with no upper limit; otherwise ([None], zero or
    negative) the processor count brought into the range from 1 to 32, or 2
    when that count is unknown or zero.  This holds for every options line
    of every run, whatever its outcome, and a run that returns tallies that
    are not both zero has printed that line. *)
Theorem threads_announced
        sched pasta_origem pasta_destino qualidade subsampling progressivo
        otimizar manter_metadata recursivo overwrite formato threads w :
  let (r, w') := converter_heic sched pasta_origem pasta_destino qualidade
                                subsampling progressivo otimizar
                                manter_metadata recursivo overwrite formato
                                threads w in
  Forall (opcoes_com (fun n => (1 <= n)%Z
                               /\ contagem_certa threads (w_cpu_count w) n))
         (prints (news w w'))
  /\ match r with
     | Ok (convertidos, erros) =>
         convertidos + erros = 0
         \/ exists n,
              In (MsgOpcoes (Str.lower formato) qualidade subsampling
                            progressivo otimizar manter_metadata recursivo
                            overwrite n)
                 (prints (news w w'))
     | Raise _ => True
     end.
Proof.
  destruct (converter_heic _ _ _ _ _ _ _ _ _ _ _ _ w) as [r w'] eqn:E.
  apply converter_heic_run in E. split.
  - destruct (run_outcomes _ _ _ _ _ _ _ _ _ _ _ _ _ _ _ E)
      as (evs & l' & Hl & _ & _ & Hp).
    rewrite (news_app _ _ _ Hl). eapply Forall_impl; [|exact Hp].
    intros [] Hm; simpl in *; auto. subst. apply resolve_threads_certa.
  - destruct r as [[c e]|]; [|exact I].
    destruct (run_log _ _ _ _ _ _ _ _ _ _ _ _ _ _ _ E)
      as (evs & l' & Hl & _ & _ & fich & _ & _ & Hle & _ & Hn & Hp).
    rewrite (news_app _ _ _ Hl), Hp.
    destruct fich as [|f0 rest]; [left; simpl in Hle; lia|].
    right. eexists. apply in_or_app. right. right. left. reflexivity.
Qed.


(** A run that raises in the loop of submissions, after the first task was
    submitted and run: its one task is the task of the first enumerated
    file. *)
Example corrida_interrompida_submete :
  fst corrida_interrompida = Raise (FileExistsError "/out/sub")
  /\ ficheiros_de "/s" "/out" true (mundo (Dir [("s", Dir [("a.heic", File (foto 1));
                                         ("sub", Dir [("b.heic", File (foto 2))])]);
                              ("out", Dir [("sub", File Junk)])]))
     = Ok [("/s/a.heic", "a.heic"); ("/s/sub/b.heic", "sub/b.heic")]
  /\ map t_caminho_entrada (submitted (w_log (snd corrida_interrompida)))
     = ["/s/a.heic"]
  /\ saves (w_log (snd corrida_interrompida)) = ["/out/a.jpg"].
Proof. vm_compute. auto. Qed.

(** ** The exceptions of a run *)

Lemma destino_fails f dest rel w e w' :
  destino_para f dest rel w = (Raise e, w') ->
  OS.makedirs (Posixpath.dirname (saida_de f dest rel)) w = (Raise e, w).
Proof.
  unfold destino_para, saida_de. destruct (Posixpath.splitext rel) as [b x].
  simpl. intros H. apply bind_inv in H.
  destruct H as [(u & w1 & _ & H)|(e' & H & [= ->])]; [discriminate|].
  revert H. unfold OS.makedirs. destruct (FS.mkdirs _ _ _); [discriminate|].
  now intros [= -> _].
Qed.

(** The loop of submissions raises only where [os.makedirs] fails on the
    directory of the output of an enumerated file. *)
Lemma submeter_fails w0 sched q ss pr ot mm ow f dest l : forall i x e x',
  xinv ok_any (fun _ => True) w0 x ->
  submeter sched q ss pr ot mm ow f dest i l x = (Raise e, x') ->
  exists fr w1,
    In fr l /\ evolves w0 w1
    /\ OS.makedirs (Posixpath.dirname (saida_de f dest (snd fr))) w1
       = (Raise e, w1).
Proof.
  assert (Hw : forall t, True -> writes_ok ok_any t) by (intros t _ c; reflexivity).
  induction l as [|[a rel] rest IH]; intros i x e x' Hx; cbn [submeter].
  - discriminate.
  - intros H. apply bind_inv in H.
    destruct H as [(u1 & x1 & H1 & H)|(e1 & H1 & _)].
    2:{ destruct (workers_ok (sched (2 * i)) x) as (y & Ey). congruence. }
    assert (Hx1 : xinv ok_any (fun _ => True) w0 x1)
      by (eapply (xinv_workers ok_any ok_any_stable _ Hw); eassumption).
    apply bind_inv in H.
    destruct H as [(saida & x2 & H2 & H)|(e2 & H2 & [= ->])].
    2:{ unfold lift in H2.
        destruct (destino_para f dest rel (x_world x1)) as [r2 w2] eqn:E2.
        inversion H2; subst r2. apply destino_fails in E2.
        exists (a, rel), (x_world x1). split; [now left|].
        split; [|exact E2]. destruct Hx1 as (E & G & _). now split. }
    assert (Hx2 : xinv ok_any (fun _ => True) w0 x2).
    { eapply (xinv_lift ok_any ok_any_stable); [exact Hx1| |exact H2].
      intros r1 w1. apply wstep_any_destino. }
    apply bind_inv in H.
    destruct H as [(u3 & x3 & H3 & H)|(e3 & H3 & _)].
    2:{ destruct (workers_ok (sched (2 * i + 1)) x2) as (y & Ey). congruence. }
    assert (Hx3 : xinv ok_any (fun _ => True) w0 x3)
      by (eapply (xinv_workers ok_any ok_any_stable _ Hw); eassumption).
    apply bind_inv in H.
    destruct H as [(ex & x4 & H4 & H)|(e4 & H4 & _)]; [|discriminate].
    assert (x4 = x3).
    { unfold lift, OS.path_exists in H4. inversion H4. now destruct x3. }
    subst x4. apply bind_inv in H.
    destruct H as [(u5 & x5 & H5 & H)|(e5 & H5 & _)].
    + assert (Hx5 : xinv ok_any (fun _ => True) w0 x5).
      { destruct (negb ow && ex).
        - inversion H5; now subst.
        - eapply (xinv_submit ok_any); [exact Hx3|exact I|exact H5]. }
      destruct (IH _ _ _ _ Hx5 H) as (fr & w1 & Hin & Hev & Hmk).
      exists fr, w1. split; [now right|auto].
    + destruct (negb ow && ex); discriminate.
Qed.

Lemma block_fails final sched q ss pr ot mm ow f dest fich w e w' :
  with_executor final (corpo sched q ss pr ot mm ow f dest fich) w = (Raise e, w') ->
  exists fr w1,
    In fr fich /\ evolves w w1
    /\ OS.makedirs (Posixpath.dirname (saida_de f dest (snd fr))) w1
       = (Raise e, w1).
Proof.
  unfold with_executor.
  set (x0 := {| x_world := w; x_pending := []; x_finished := [] |}).
  destruct (corpo _ _ _ _ _ _ _ _ _ _ x0) as [rx x] eqn:Eb.
  destruct (wait_all final x) as [u x'] eqn:Ew. intros [= -> _].
  unfold corpo in Eb. apply bind_inv in Eb.
  destruct Eb as [(u1 & x1 & _ & Ha)|(e1 & Hs & [= ->])].
  - apply as_completed_result in Ha. destruct Ha as [_ Ha]. discriminate.
  - eapply submeter_fails; [|exact Hs].
    apply xinv_start.
Qed.

Lemma ficheiros_de_res po pd rec w w1 w2 r w3 :
  w_cwd w1 = w_cwd w -> w_fs w1 = w_fs w ->
  OS.makedirs (Posixpath.abspath (w_cwd w1) pd) w1 = (Ok tt, w2) ->
  _listar_ficheiros_heic (Posixpath.abspath (w_cwd w1) po) rec w2 = (r, w3) ->
  ficheiros_de po pd rec w = r.
Proof.
  intros Hc Hf Hm Hl. unfold ficheiros_de. rewrite <- Hc.
  destruct (makedirs_pure (Posixpath.abspath (w_cwd w1) pd) w w1) as (_ & F & C);
    [congruence|congruence|].
  rewrite Hm in F, C. simpl in F, C.
  rewrite (listar_pure _ _ _ w2) by assumption. now rewrite Hl.
Qed.

Lemma listar_recursivo_ok p w : exists l w', _listar_ficheiros_heic p true w = (Ok l, w').
Proof.
  unfold _listar_ficheiros_heic, bind, OS.path_abspath, OS.walk.
  destruct (FS.stat _ _ _); unfold bind, emit, ret; simpl; eauto.
Qed.

(** X14. How [main] ends.  It returns exactly when [converter_heic]
    returns its tallies, whatever they are: conversions that failed are
    counted and do not change the way [main] ends.  Otherwise it prints
    [Erro] with the exception and exits with status 1, and this happens only
    in these cases: the source is not a directory (nothing else was done);
    the format is not valid (nothing else was done); [os.makedirs] raised
    the exception on the destination root; [os.listdir] raised it on the
    source, without recursion; or [os.makedirs] raised it on the directory
    of the output of an enumerated file, in a state the run had reached. *)
Theorem main_ends sched args w :
  let origem := Args.origem args in
  let destino := Args.destino args in
  let recursivo := negb (Args.nao_recursivo args) in
  let formato := Str.lower (Args.formato args) in
  let run := converter_heic sched origem destino
                            (Args.qualidade args) (Args.subsampling args)
                            (negb (Args.sem_progressivo args))
                            (negb (Args.sem_otimizar args))
                            (negb (Args.sem_metadata args))
                            recursivo
                            (Args.overwrite args) (Args.formato args)
                            (Some (Args.threads args)) w in
  match main sched args w with
  | (Returns, w') => exists c e, run = (Ok (c, e), w')
  | (SystemExit code, w') =>
      code = 1%Z
      /\ exists e w1,
           run = (Raise e, w1)
           /\ w_fs w' = w_fs w1
           /\ news w1 w' = [EvPrint (MsgErro e)]
           /\ if negb (FS.is_dir (FS.stat (w_cwd w) (w_fs w) origem))
              then e = FileNotFoundError origem /\ w1 = w
              else if negb (existsb (String.eqb formato) ["jpeg"; "png"])
                   then e = ValueError "'formato' deve ser 'jpeg' ou 'png'."
                        /\ w1 = w
                   else
                     fst (OS.makedirs (Posixpath.abspath (w_cwd w) destino) w)
                     = Raise e
                     \/ (recursivo = false
                         /\ ficheiros_de origem destino false w = Raise e)
                     \/ exists ficheiros fr w0,
                          ficheiros_de origem destino recursivo w = Ok ficheiros
                          /\ In fr ficheiros
                          /\ evolves w w0
                          /\ OS.makedirs
                               (Posixpath.dirname
                                  (saida_de formato
                                            (Posixpath.abspath (w_cwd w) destino)
                                            (snd fr))) w0
                             = (Raise e, w0)
  end.
Proof.
  cbv zeta. unfold main.
  destruct (converter_heic _ _ _ _ _ _ _ _ _ _ _ _ w) as [[[c e]|e] w1] eqn:H.
  - eauto.
  - unfold print, emit. split; [reflexivity|]. exists e, w1.
    split; [reflexivity|]. split; [reflexivity|].
    split; [now apply news_app|].
    apply converter_heic_run in H.
    inversion H as [Hd|Hd Hf|w2 r1 w1' Hd Hf Ha Hb]; subst.
    + rewrite Hd. simpl. auto.
    + rewrite Hd, Hf. simpl. auto.
    + rewrite Hd, Hf. simpl.
      destruct (aviso_log _ _ _ _ _ Ha) as (_ & La & Fa & Ca & Pa).
      assert (Ea : evolves w w2) by (eapply wstep_evolves, (wstep_aviso ok_any), Ha).
      inversion Hb as [e' w3 Hm|w3 e' w4 Hm Hl|
                       |w3 fich w4 w5 e' w6 Hm Hl Hne Han Hw|]; subst.
      * left.
        destruct (makedirs_pure (Posixpath.abspath (w_cwd w2) (Args.destino args))
                                w w2) as (F & _); [congruence|congruence|].
        rewrite <- Ca, F, Hm. reflexivity.
      * right. left.
        destruct (negb (Args.nao_recursivo args)) eqn:Er.
        { destruct (listar_recursivo_ok
                      (Posixpath.abspath (w_cwd w2) (Args.origem args)) w3)
            as (l & wl & El). congruence. }
        split; [reflexivity|]. eapply ficheiros_de_res; eauto.
      * right. right.
        destruct (block_fails _ _ _ _ _ _ _ _ _ _ _ _ _ _ Hw)
          as (fr & w0 & Hin & Hev & Hmk).
        exists fich, fr, w0. split; [eapply ficheiros_de_eq; eauto|].
        split; [exact Hin|]. rewrite <- Ca. split; [|exact Hmk].
        eapply evolves_trans; [exact Ea|].
        eapply evolves_trans; [eapply wstep_evolves, wstep_any_makedirs, Hm|].
        eapply evolves_trans;
          [eapply wstep_evolves, wstep_listar, Hl; exact ok_any_stable|].
        eapply evolves_trans; [eapply wstep_evolves, (wstep_anuncio ok_any), Han|].
        exact Hev.
Qed.

(** ** A source without pictures *)

Lemma grow_impl (ok ok' : string -> node -> bool) :
  (forall x n, ok x n = true -> ok' x n = true) ->
  forall n n', grow ok n n' -> grow ok' n n'.
Proof.
  intros Hi.
  apply (grow_mut ok (fun n n' => grow ok' n n')
           (fun es es' => grow_entries ok' es es')).
  - constructor.
  - intros. now constructor.
  - intros new Hn. constructor. eapply Forall_impl; [|exact Hn].
    intros e. apply Hi.
  - intros. now constructor.
Qed.

(** [os.makedirs] adds entries only under names of the path it is given. *)
Lemma mkdirs_grow_names p ns : forall n n',
  FS.mkdirs p n ns = Ok n' ->
  grow (fun x _ => existsb (String.eqb x) ns) n n'.
Proof.
  induction ns as [|x r IH]; intros n n'; destruct n as [c|es]; simpl;
    try discriminate.
  - intros [= <-]. apply grow_refl.
  - destruct (FS.mkdirs p _ r) as [c'|e] eqn:E; [|discriminate].
    intros [= <-]. constructor.
    assert (G : forall m, FS.mkdirs p m r = Ok c' ->
                          grow (fun y _ => String.eqb y x || existsb (String.eqb y) r)
                               m c').
    { intros m Hm. eapply grow_impl; [|eapply IH, Hm].
      intros y m' Hy. simpl in Hy. rewrite Hy. apply orb_true_r. }
    destruct (FS.assoc x es) as [c|] eqn:Ea.
    + eapply grow_entries_set; eauto.
    + rewrite (set_absent _ _ _ Ea). apply grow_entries_app.
      constructor; [|constructor]. simpl. now rewrite String.eqb_refl.
Qed.

Lemma mkdirs_grow_comuns p ns n n' :
  nomes_comuns ns = true -> FS.mkdirs p n ns = Ok n' ->
  grow (fun x _ => negb (ext_in_exts x)) n n'.
Proof.
  intros Hc Hm. eapply grow_impl; [|eapply mkdirs_grow_names, Hm].
  intros x m Hx. simpl in Hx. apply existsb_exists in Hx.
  destruct Hx as (y & Hy & Exy). apply String.eqb_eq in Exy. subst y.
  unfold nomes_comuns in Hc. rewrite forallb_forall in Hc. now apply Hc.
Qed.

Lemma grow_comuns_names es es' :
  grow_entries (fun x _ => negb (ext_in_exts x)) es es' ->
  filter ext_in_exts (map fst es') = filter ext_in_exts (map fst es).
Proof.
  induction 1 as [new Hn|x n n' es es' Hg He IH].
  - induction Hn as [|[x m] new Hx _ IH]; [reflexivity|].
    simpl in *. apply negb_true_iff in Hx. now rewrite Hx.
  - simpl. now rewrite IH.
Qed.

Lemma names_comuns es :
  nomes_comuns (FS.filenames es) = true ->
  nomes_comuns (FS.dirnames es) = true ->
  filter ext_in_exts (map fst es) = [].
Proof.
  unfold nomes_comuns, FS.filenames, FS.dirnames.
  induction es as [|[x [c|sub]] es IH]; simpl; [reflexivity| |].
  - intros Hf Hd. apply andb_prop in Hf. destruct Hf as [Hx Hf].
    apply negb_true_iff in Hx. rewrite Hx. auto.
  - intros Hf Hd. apply andb_prop in Hd. destruct Hd as [Hx Hd].
    apply negb_true_iff in Hx. rewrite Hx. auto.
Qed.

Lemma fresh_dir x es :
  forallb (fun e => fresh true (fst e) (snd e)) es = true ->
  fresh true x (Dir es) = true.
Proof.
  simpl. induction es as [|[y m] es IH]; simpl; [reflexivity|].
  intros H. apply andb_prop in H. destruct H as [H1 H2].
  now rewrite H1, IH.
Qed.

(** X20. A source without pictures gives [(0, 0)].  When the source
    directory holds no regular file with a recognised extension (in
    recursive mode, at any depth), the batch returns [(0, 0)] once the
    destination root is created: that root exists as a directory, the file
    system is what it was right after its creation, and no picture was
    opened, written or submitted.  Without recursion this needs that the
    enumerator sees no directory named like a picture either: no
    sub-directory of the source and no component of the destination path
    has a recognised extension. *)
Theorem source_without_pictures
        sched pasta_origem pasta_destino qualidade subsampling progressivo
        otimizar manter_metadata recursivo overwrite formato threads w fs2 es :
  let destino := Posixpath.abspath (w_cwd w) pasta_destino in
  let origem := Posixpath.abspath (w_cwd w)
                  (Posixpath.abspath (w_cwd w) pasta_origem) in
  FS.is_dir (FS.stat (w_cwd w) (w_fs w) pasta_origem) = true ->
  existsb (String.eqb (Str.lower formato)) ["jpeg"; "png"] = true ->
  FS.mkdirs destino (w_fs w) (FS.names (Posixpath.abspath (w_cwd w) destino))
  = Ok fs2 ->
  FS.stat (w_cwd w) (w_fs w) origem = Some (Dir es) ->
  sem_fotos recursivo es = true ->
  recursivo
  || nomes_comuns (FS.dirnames es)
     && nomes_comuns (FS.names (Posixpath.abspath (w_cwd w) destino)) = true ->
  exists w',
    converter_heic sched pasta_origem pasta_destino qualidade subsampling
                   progressivo otimizar manter_metadata recursivo overwrite
                   formato threads w = (Ok (0, 0), w')
    /\ w_fs w' = fs2
    /\ FS.is_dir (FS.lookup fs2 (FS.names (Posixpath.abspath (w_cwd w) destino)))
       = true
    /\ Forall (fun ev => ~ touches ev) (news w w').
Proof.
  intros destino origem Hd Hf Hm Hs Hp Hn.
  apply (run_nothing_enumerated sched pasta_origem pasta_destino qualidade
           subsampling progressivo otimizar manter_metadata recursivo
           overwrite formato threads w fs2 Hd Hf Hm).
  unfold _listar_ficheiros_heic, bind, OS.path_abspath.
  change (w_cwd (with_fs w fs2)) with (w_cwd w). fold origem. destruct recursivo; simpl in Hp, Hn.
  - assert (G : grow (fresh true) (w_fs w) fs2).
    { eapply mkdirs_grow; [|exact Hm]. intros x n. apply fresh_only_dirs. }
    destruct (grow_stat _ _ _ _ _ _ G Hs) as (n' & Hs' & Gn).
    unfold OS.walk. change (w_cwd (with_fs w fs2)) with (w_cwd w).
    change (w_fs (with_fs w fs2)) with fs2. rewrite Hs'.
    unfold bind, emit, ret. simpl. f_equal.
    rewrite (grow_enum (w_cwd w) origem _ _ Gn).
    apply (fresh_enum (w_cwd w) origem (Dir es) ""). now apply fresh_dir.
  - apply andb_prop in Hn. destruct Hn as [Hn1 Hn2].
    assert (G : grow (fun x _ => negb (ext_in_exts x)) (w_fs w) fs2)
      by (eapply mkdirs_grow_comuns; eassumption).
    destruct (grow_stat _ _ _ _ _ _ G Hs) as (n' & Hs' & Gn).
    inversion Gn as [|? es' Ge]; subst.
    unfold OS.listdir. change (w_cwd (with_fs w fs2)) with (w_cwd w).
    change (w_fs (with_fs w fs2)) with fs2. rewrite Hs'.
    unfold bind, emit, ret. simpl.
    rewrite (grow_comuns_names _ _ Ge), names_comuns by assumption.
    reflexivity.
Qed.

Lemma source_without_pictures_witness :
  exists w',
    converter_heic sched_imediato "/s" "/out" 95 0 true true true false true
                   "png" None
                   (mundo (Dir [("s", Dir [("n.txt", File Junk);
                                           ("sub", Dir [("b.heic", File (foto 1))])])]))
    = (Ok (0, 0), w')
    /\ w_fs w' = Dir [("s", Dir [("n.txt", File Junk);
                                 ("sub", Dir [("b.heic", File (foto 1))])]);
                      ("out", Dir [])]
    /\ FS.is_dir
         (FS.lookup (Dir [("s", Dir [("n.txt", File Junk);
                                     ("sub", Dir [("b.heic", File (foto 1))])]);
                          ("out", Dir [])])
                    (FS.names (Posixpath.abspath "/" (Posixpath.abspath "/" "/out"))))
       = true
    /\ Forall (fun ev => ~ touches ev)
              (news (mundo (Dir [("s", Dir [("n.txt", File Junk);
                                            ("sub", Dir [("b.heic", File (foto 1))])])]))
                    w').
Proof.
  apply (source_without_pictures
           sched_imediato "/s" "/out" 95 0 true true true false true "png" None
           (mundo (Dir [("s", Dir [("n.txt", File Junk);
                                   ("sub", Dir [("b.heic", File (foto 1))])])]))
           (Dir [("s", Dir [("n.txt", File Junk);
                            ("sub", Dir [("b.heic", File (foto 1))])]);
                 ("out", Dir [])])
           [("n.txt", File Junk); ("sub", Dir [("b.heic", File (foto 1))])]
           eq_refl eq_refl eq_refl eq_refl eq_refl eq_refl).
Defined.

(** ** A directory named like a picture, in a run *)

(** C9 at its failing input.  The source [/s] holds no regular file at all,
    only a directory [album.heic]: it has no picture, at any depth.
    Without recursion the run does not return [(0, 0)]: the enumerator
    yields the directory (lines 30 to 33), one task is submitted for it and
    fails, the announcements and the summary are printed, and the run
    returns [(0, 1)].  With recursion the same source gives [(0, 0)] and
    only the line that says that nothing was found. *)
Lemma C9_directory_taken_for_a_picture :
  let fs := Dir [("s", Dir [("album.heic", Dir [])])] in
  let sem_rec := converter_heic sched_tardio "/s" "/out" 95 0 true true true
                                false false "jpeg" None (mundo fs) in
  let com_rec := converter_heic sched_tardio "/s" "/out" 95 0 true true true
                                true false "jpeg" None (mundo fs) in
  FS.stat "/" fs "/s" = Some (Dir [("album.heic", Dir [])])
  /\ sem_fotos false [("album.heic", Dir [])] = true
  /\ sem_fotos true [("album.heic", Dir [])] = true
  /\ fst sem_rec = Ok (0, 1)
  /\ map t_caminho_entrada (submitted (w_log (snd sem_rec))) = ["/s/album.heic"]
  /\ map snd (completed (w_log (snd sem_rec)))
     = [Raise (IsADirectoryError "/s/album.heic")]
  /\ prints (w_log (snd sem_rec))
     = [MsgAConverter 1 "/s" "/out";
        MsgOpcoes "jpeg" 95 0 true true true false false 4;
        MsgErro (IsADirectoryError "/s/album.heic");
        MsgConcluida; MsgConvertidos 0; MsgComErro 1]
  /\ fst com_rec = Ok (0, 0)
  /\ submitted (w_log (snd com_rec)) = []
  /\ prints (w_log (snd com_rec)) = [MsgNenhumFicheiro "/s"].
Proof. vm_compute. repeat split. Qed.
